(** * remark-shiki-highlight-api: the meta-string parser and the batch rewrite

    A shallow embedding of [src/index.ts]: [parseMetaString] and the
    transform returned by [remarkHighlightApi].

    Conventions of the embedding.
    - A JavaScript string is read as its list of code units, [list ascii].
      Every pattern of the source is made of ASCII characters only, so a
      unit outside ASCII can never take part in a match and the captured
      groups are ASCII; bytes stand in for the units without loss.
    - A JavaScript number that the parser produces is an integer or NaN
      ([jsnum]).  Integers are kept exact; the doubles of the source agree
      with them below 2^53.
    - An exception is a [Throw] in [result]; [Ok] is a normal return.
    - The tree is an inductive [node]; a parent carries the identity of its
      object ([loc]), because the transform keeps references to parents and
      mutates their child arrays in place.
    - The module-level variables [blockCounter] and [loadedLanguages] and
      the closure variable [languagesLoaded] are threaded through as an
      [env], together with the history of calls to the collaborators and of
      console output.
    - The collaborators (the custom-language hook, the bundled grammars and
      their loading, the render call) are parameters; [None] or [false]
      stands for a call that raises or rejects.  Awaiting is sequential in
      the source, so a call of the transform is one run from start to end. *)

From Stdlib Require Import Ascii String ZArith.
From stdpp Require Import base tactics option list gmap strings sorting pretty.

Set Warnings "-clear-no-such-hyp".

Local Open Scope char_scope.
Local Open Scope Z_scope.

(** ** Values *)

Definition str := list ascii.

Inductive jsnum :=
| NaN
| Num (z : Z).

Inductive exn :=
| RangeError      (* Invalid array length *)
| HookRejected.   (* the promise of [loadLanguages] rejected *)

Inductive result (A : Type) :=
| Ok (a : A)
| Throw (e : exn).
Arguments Ok {A} a.
Arguments Throw {A} e.

#[global] Instance jsnum_eq_dec : EqDecision jsnum.
Proof. solve_decision. Defined.
#[global] Instance exn_eq_dec : EqDecision exn.
Proof. solve_decision. Defined.

(** [lineNumbers?: boolean | { start?: number }] *)
Inductive lineNumbersOpt :=
| LNBool (b : bool)
| LNStart (start : option jsnum).

(** [diffLines?: { added?: number[]; removed?: number[] }] *)
Record DiffLines := {
  added : option (list jsnum);
  removed : option (list jsnum)
}.

(** The fields of [Partial<HighlightOptions>] that [parseMetaString] sets. *)
Record HighlightOptions := {
  highlightLines : option string;
  lineNumbers : option lineNumbersOpt;
  diffLines : option DiffLines;
  focusLines : option (list jsnum)
}.

Definition no_options : HighlightOptions :=
  {| highlightLines := None; lineNumbers := None;
     diffLines := None; focusLines := None |}.

(** ** Characters and the string primitives of the source *)

Definition is_digit (c : ascii) : bool :=
  match c with
  | "0" | "1" | "2" | "3" | "4" | "5" | "6" | "7" | "8" | "9" => true
  | _ => false
  end.

Definition digit_value (c : ascii) : Z :=
  Z.of_N (N_of_ascii c) - 48.

(** The class [[0-9,-]]. *)
Definition is_selector (c : ascii) : bool :=
  is_digit c || Ascii.eqb c "," || Ascii.eqb c "-".

(** The class [[0-9,]]. *)
Definition is_digit_or_comma (c : ascii) : bool :=
  is_digit c || Ascii.eqb c ",".

(** White space that [trim] and [parseInt] skip (its ASCII part). *)
Definition is_space (c : ascii) : bool :=
  match c with
  | " " | "009" | "010" | "011" | "012" | "013" => true
  | _ => false
  end.

(** Longest prefix whose characters satisfy [p], and what follows it:
    a greedy [[class]*]. *)
Fixpoint span (p : ascii → bool) (s : str) : str * str :=
  match s with
  | c :: s' =>
      if p c then let '(run, rest) := span p s' in (c :: run, rest)
      else ([], s)
  | [] => ([], [])
  end.

(** [s] without the literal [pre] in front, when [s] starts with it. *)
Fixpoint strip_prefix (pre s : str) : option str :=
  match pre, s with
  | [], _ => Some s
  | a :: pre', b :: s' => if Ascii.eqb a b then strip_prefix pre' s' else None
  | _ :: _, [] => None
  end.

(** [String.prototype.match] with a non-global pattern: the anchored
    matcher [m] is tried at every position, left to right, and the first
    success is the match. *)
Fixpoint find_first {A} (m : str → option A) (s : str) : option A :=
  match m s with
  | Some a => Some a
  | None => match s with
            | [] => None
            | _ :: s' => find_first m s'
            end
  end.

(** [s.includes(needle)] *)
Definition includes (needle s : str) : bool :=
  bool_decide (is_Some (find_first (strip_prefix needle) s)).

(** [s.split(sep)] for a one-character separator. *)
Fixpoint split (sep : ascii) (s : str) : list str :=
  match s with
  | [] => [[]]
  | c :: s' =>
      if Ascii.eqb c sep then [] :: split sep s'
      else match split sep s' with
           | p :: ps => (c :: p) :: ps
           | [] => [[c]]
           end
  end.

Fixpoint drop_spaces (s : str) : str :=
  match s with
  | c :: s' => if is_space c then drop_spaces s' else s
  | [] => []
  end.

(** [s.trim()] *)
Definition trim (s : str) : str :=
  reverse (drop_spaces (reverse (drop_spaces s))).

(** Value of a run of decimal digits, most significant first. *)
Definition digits_value (ds : str) : Z :=
  foldl (λ acc c, 10 * acc + digit_value c) 0 ds.

(** The optional sign in front of the digits. *)
Definition split_sign (s : str) : Z * str :=
  match s with
  | "-" :: r => (-1, r)
  | "+" :: r => (1, r)
  | _ => (1, s)
  end.

(** [parseInt(s, 10)]: leading white space, an optional sign, then the
    longest run of digits; NaN when that run is empty.  The integer is kept
    exact: the double of the source is that integer for a run of 15 digits
    at most, is rounded from 2^53 on and is Infinity for runs of some 310
    digits.  Statements about the value are made for runs of 15 digits at
    most. *)
Definition parseInt10 (s : str) : jsnum :=
  let '(sign, s2) := split_sign (drop_spaces s) in
  match fst (span is_digit s2) with
  | [] => NaN
  | ds => Num (sign * digits_value ds)
  end.

(** Arithmetic on numbers: NaN is absorbing.  Sums and differences are
    exact, as those of the source are on integers below 2^53. *)
Definition num_add (a b : jsnum) : jsnum :=
  match a, b with
  | Num x, Num y => Num (x + y)
  | _, _ => NaN
  end.

Definition num_sub (a b : jsnum) : jsnum :=
  match a, b with
  | Num x, Num y => Num (x - y)
  | _, _ => NaN
  end.

(** [ToLength]: NaN and negatives become 0, the top is 2^53 - 1. *)
Definition to_length (n : jsnum) : Z :=
  match n with
  | NaN => 0
  | Num z => Z.max 0 (Z.min z (2 ^ 53 - 1))
  end.

(** [Array.from({ length: len }, (_, i) => f i)]: the array constructor
    refuses a length of 2^32 or more with a RangeError.  This is the limit
    of the language; an engine may refuse a shorter array for lack of
    memory, which is not modelled. *)
Definition array_from_length {A} (len : jsnum) (f : Z → A) : result (list A) :=
  let n := to_length len in
  if 2 ^ 32 <=? n then Throw RangeError
  else Ok ((λ i : nat, f (Z.of_nat i)) <$> seq 0 (Z.to_nat n)).

(** ** The patterns of [parseMetaString], anchored at one position *)

(** [[class]+]: the greedy run must not be empty. *)
Definition class_plus (p : ascii → bool) (s : str) : option (str * str) :=
  match span p s with
  | ([], _) => None
  | (run, rest) => Some (run, rest)
  end.

Definition lbrace : str := ["{"].
Definition rbrace : str := ["}"].

(** [/\{([0-9,-]+)\}/]: no character of the class is a closing brace, so
    the match succeeds exactly when the longest run is followed by one. *)
Definition re_braces (s : str) : option str :=
  rest ← strip_prefix lbrace s;
  '(run, rest') ← class_plus is_selector rest;
  _ ← strip_prefix rbrace rest';
  Some run.

Definition kw_focus : str := list_ascii_of_string "focus".
Definition kw_showLineNumbers : str := list_ascii_of_string "showLineNumbers".
Definition kw_lineNumbers : str := list_ascii_of_string "lineNumbers".

(** [/focus\{([0-9,-]+)\}/] *)
Definition re_focus (s : str) : option str :=
  rest ← strip_prefix kw_focus s;
  re_braces rest.

(** [:(\d+)] after one of the flag words. *)
Definition colon_digits (s : str) : option str :=
  rest ← strip_prefix [":"] s;
  fst <$> class_plus is_digit rest.

(** [/(?:showLineNumbers|lineNumbers):(\d+)/]: the second alternative is
    tried when the first does not lead to a match. *)
Definition re_start (s : str) : option str :=
  match strip_prefix kw_showLineNumbers s ≫= colon_digits with
  | Some ds => Some ds
  | None => strip_prefix kw_lineNumbers s ≫= colon_digits
  end.

(** [/\+([0-9,]+)/] and [/-([0-9,]+)/], by their indicator. *)
Definition re_diff (indicator : ascii) (s : str) : option str :=
  rest ← strip_prefix [indicator] s;
  fst <$> class_plus is_digit_or_comma rest.

(** ** [parseMetaString] *)

(** [g.split(',').map((n) => parseInt(n.trim(), 10))] *)
Definition diff_numbers (g : str) : list jsnum :=
  (λ n, parseInt10 (trim n)) <$> split "," g.

(** The callback of [flatMap] in the focus branch.  [[start, end]] takes
    the first two elements of the mapped array; a missing one would be
    [undefined], which the subtraction turns into NaN. *)
Definition focus_part (part : str) : result (list jsnum) :=
  if includes ["-"] part then
    let ns := (λ n, parseInt10 (trim n)) <$> split "-" part in
    let start := default NaN (ns !! 0%nat) in
    let end_ := default NaN (ns !! 1%nat) in
    array_from_length (num_add (num_sub end_ start) (Num 1))
                      (λ i, num_add start (Num i))
  else Ok [parseInt10 (trim part)].

(** [parts.flatMap(callback)]: the first exception ends the loop. *)
Fixpoint flat_map_result {A B} (f : A → result (list B)) (l : list A)
  : result (list B) :=
  match l with
  | [] => Ok []
  | x :: l' =>
      match f x with
      | Throw e => Throw e
      | Ok ys => match flat_map_result f l' with
                 | Throw e => Throw e
                 | Ok zs => Ok (ys ++ zs)
                 end
      end
  end.

Definition focus_lines (g : str) : result (list jsnum) :=
  flat_map_result focus_part (split "," g).

Definition parse_highlight (s : str) : option string :=
  string_of_list_ascii <$> find_first re_braces s.

Definition parse_lineNumbers (s : str) : option lineNumbersOpt :=
  if includes kw_showLineNumbers s || includes kw_lineNumbers s then
    match find_first re_start s with
    | Some ds => Some (LNStart (Some (parseInt10 ds)))
    | None => Some (LNBool true)
    end
  else None.

Definition parse_diff (s : str) : option DiffLines :=
  match find_first (re_diff "+") s, find_first (re_diff "-") s with
  | None, None => None
  | a, r => Some {| added := diff_numbers <$> a; removed := diff_numbers <$> r |}
  end.

Definition parse_focus (s : str) : result (option (list jsnum)) :=
  match find_first re_focus s with
  | None => Ok None
  | Some g => match focus_lines g with
              | Ok l => Ok (Some l)
              | Throw e => Throw e
              end
  end.

(** The body of [parseMetaString] for a non-empty string. *)
Definition parse_meta (s : str) : result HighlightOptions :=
  match parse_focus s with
  | Throw e => Throw e
  | Ok f => Ok {| highlightLines := parse_highlight s;
                  lineNumbers := parse_lineNumbers s;
                  diffLines := parse_diff s;
                  focusLines := f |}
  end.

(** [if (!meta) return {}]: null, undefined and the empty string. *)
Definition parseMetaString (meta : option string) : result HighlightOptions :=
  match meta with
  | None => Ok no_options
  | Some m =>
      match list_ascii_of_string m with
      | [] => Ok no_options
      | s => parse_meta s
      end
  end.

(** ** Vocabulary for statements about strings *)

(** The next character, if there is one, is outside the class [p]: where a
    greedy run stops. *)
Definition stops (p : ascii → bool) (s : str) : Prop :=
  match s with
  | [] => True
  | c :: _ => p c = false
  end.

Definition all_in (p : ascii → bool) (s : str) : Prop :=
  Forall (λ c, p c = true) s.

(** The leftmost position of [s] at which [P] holds of the suffix, with the
    value [a] found there. *)
Definition first_at {A} (P : A → str → Prop) (s : str) (a : A) : Prop :=
  ∃ pre suf, s = pre ++ suf ∧ P a suf ∧
    ∀ pre' suf' a', s = pre' ++ suf' → P a' suf' → (length pre ≤ length pre')%nat.

(** [P] holds at no position of [s]. *)
Definition nowhere {A} (P : A → str → Prop) (s : str) : Prop :=
  ∀ pre suf a, s = pre ++ suf → ¬ P a suf.

(** ** What each pattern matches, stated on the text *)

(** A brace group [{g}] starts the text, [g] a non-empty run over
    [[0-9,-]]. *)
Definition brace_group (g suf : str) : Prop :=
  ∃ post, suf = lbrace ++ g ++ rbrace ++ post ∧ g ≠ [] ∧ all_in is_selector g.

(** [focus{g}] starts the text. *)
Definition focus_group (g suf : str) : Prop :=
  ∃ post, suf = kw_focus ++ lbrace ++ g ++ rbrace ++ post
          ∧ g ≠ [] ∧ all_in is_selector g.

(** The indicator, then [g], the whole run over [[0-9,]] that follows it. *)
Definition diff_list (indicator : ascii) (g suf : str) : Prop :=
  ∃ post, suf = indicator :: g ++ post
          ∧ g ≠ [] ∧ all_in is_digit_or_comma g ∧ stops is_digit_or_comma post.

(** A flag word, a colon, then [ds], the whole run of digits that follows. *)
Definition explicit_start (ds suf : str) : Prop :=
  ∃ kw post, (kw = kw_showLineNumbers ∨ kw = kw_lineNumbers)
             ∧ suf = kw ++ ":" :: ds ++ post
             ∧ ds ≠ [] ∧ all_in is_digit ds ∧ stops is_digit post.

(** One of the two flag words occurs somewhere in the text. *)
Definition has_flag (s : str) : Prop :=
  ∃ kw pre post, (kw = kw_showLineNumbers ∨ kw = kw_lineNumbers)
                 ∧ s = pre ++ kw ++ post.

(** The field of [diffLines] that an indicator feeds. *)
Definition diff_field (indicator : ascii) (o : HighlightOptions)
  : option (list jsnum) :=
  d ← diffLines o;
  if Ascii.eqb indicator "+" then added d else removed d.

(** [parts.join(',')] *)
Fixpoint join_commas (parts : list str) : str :=
  match parts with
  | [] => []
  | [p] => p
  | p :: ps => p ++ "," :: join_commas ps
  end.

Definition no_char (sep : ascii) (s : str) : Prop :=
  Forall (λ c, c ≠ sep) s.

(** A non-empty run of decimal digits. *)
Definition digit_run (p : str) : Prop := p ≠ [] ∧ all_in is_digit p.

(** ** Vocabulary for the lines that directives stand for *)

(** [end - start + 1] in the callback of the focus branch: the length that
    the expansion of a range asks for. *)
Definition range_length (part : str) : jsnum :=
  let ns := (λ n, parseInt10 (trim n)) <$> split "-" part in
  num_add (num_sub (default NaN (ns !! 1%nat)) (default NaN (ns !! 0%nat)))
          (Num 1).

(** The characters of a piece of a focus group: the class [[0-9,-]] less
    the comma that separates the pieces. *)
Definition is_digit_or_hyphen (c : ascii) : bool :=
  is_digit c || Ascii.eqb c "-".

(** A piece of a focus group as it is written: one line, or a range. *)
Inductive focus_item :=
| Line (a : str)
| Range (a b : str).

Definition item_text (it : focus_item) : str :=
  match it with
  | Line a => a
  | Range a b => a ++ "-" :: b
  end.

(** The lines that the piece stands for: a range that is written
    high-to-low stands for none. *)
Definition item_lines (it : focus_item) : list Z :=
  match it with
  | Line a => [digits_value a]
  | Range a b => seqZ (digits_value a) (digits_value b - digits_value a + 1)
  end.

(** The piece is written with runs of digits. *)
Definition item_written (it : focus_item) : Prop :=
  match it with
  | Line a => digit_run a
  | Range a b => digit_run a ∧ digit_run b
  end.

(** A well-formed list of lines and ranges, separated by commas. *)
Definition selector_list (g : str) : Prop :=
  ∃ items, items ≠ [] ∧ Forall item_written items
           ∧ g = join_commas (item_text <$> items).

(** [p] occurs in [s]. *)
Definition occurs_in (p s : str) : Prop := ∃ u v, s = u ++ p ++ v.

(** The longest run of decimal digits in the text. *)
Fixpoint max_digit_run (s : str) : nat :=
  match s with
  | [] => 0%nat
  | _ :: s' => Nat.max (length (fst (span is_digit s))) (max_digit_run s')
  end.

(** No number written in the text has more than 15 digits.  The numbers of
    the source are doubles: [parseInt] and the arithmetic are exact on
    integers below 2^53, and so on every number of such a text; above, the
    source rounds, and reaches Infinity, where the embedding keeps the
    integer.  Statements about the numbers that are read are made for such
    texts. *)
Definition small_numbers (s : str) : Prop := (max_digit_run s ≤ 15)%nat.

(** NaN, or an integer from 0 to 10^15, which a double holds exactly. *)
Definition small_line_or_nan (n : jsnum) : Prop :=
  match n with
  | NaN => True
  | Num z => 0 ≤ z < 10 ^ 15
  end.

(** ** The tree and the transform *)

Local Close Scope Z_scope.

(** Identity of a parent object. *)
Definition loc := nat.

(** The fields of a [Code] node that the plugin reads. *)
Record code := {
  lang : option string;
  meta : option string;
  value : string
}.

(** mdast nodes: code fences, raw html, any other literal, and parents
    with their ordered children. *)
#[warnings="-register-all"] Inductive node :=
| Code (c : code)
| Html (v : string)
| Leaf (type v : string)
| Parent (id : loc) (type : string) (children : list node).

(** An entry of [codeBlocks]. *)
Record block := {
  node_of : code;
  index : nat;
  parent : loc
}.

(** [f i x] for every element with its index, from [i] on, appended. *)
Definition flat_imap {A B} (f : nat → A → list B) : nat → list A → list B :=
  fix go i l :=
    match l with
    | [] => []
    | x :: l' => f i x ++ go (S i) l'
    end.

(** [visit(tree, 'code', visitor)]: the code nodes in document order, each
    with its index and its parent, both absent for the root. *)
Fixpoint visit_code (pos : option (nat * loc)) (n : node)
  : list (code * option (nat * loc)) :=
  match n with
  | Code c => [(c, pos)]
  | Parent id _ cs => flat_imap (λ i c, visit_code (Some (i, id)) c) 0%nat cs
  | _ => []
  end.

(** [Set.prototype.add] on a set kept in insertion order. *)
Definition set_add (x : string) (l : list string) : list string :=
  if decide (x ∈ l) then l else l ++ [x].

(** The visitor of the first pass:
    [if (node.lang && node.lang !== 'text') detectedLanguages.add(node.lang)]. *)
Definition detect (acc : list string) (v : code * option (nat * loc))
  : list string :=
  match lang (fst v) with
  | Some l => if bool_decide (l ≠ ""%string ∧ l ≠ "text"%string)
              then set_add l acc else acc
  | None => acc
  end.

(** [detectedLanguages] after the first pass, in insertion order. *)
Definition detected_languages (t : node) : list string :=
  foldl detect [] (visit_code None t).

(** The visitor of the second pass:
    [if (index !== undefined && parent) codeBlocks.push({ node, index, parent })]. *)
Definition select_block (v : code * option (nat * loc)) : option block :=
  match snd v with
  | Some (i, p) => Some {| node_of := fst v; index := i; parent := p |}
  | None => None
  end.

(** The blocks that the second pass pushes below a node found at [pos]. *)
Definition blocks_at (pos : option (nat * loc)) (n : node) : list block :=
  omap select_block (visit_code pos n).

(** [codeBlocks] after the second pass. *)
Definition collect (t : node) : list block := blocks_at None t.

(** [codeBlocks.sort((a, b) => b.index - a.index)]: a stable sort, the
    higher index first. *)
Fixpoint insert_desc (b : block) (l : list block) : list block :=
  match l with
  | [] => [b]
  | x :: l' => if (index x <=? index b)%nat then b :: x :: l'
               else x :: insert_desc b l'
  end.

Definition sort_desc (l : list block) : list block :=
  foldr insert_desc [] l.

(** [children.splice(i, 1, ...items)]: past the end nothing is removed and
    the items are appended. *)
Definition splice {A} (i : nat) (items l : list A) : list A :=
  take i l ++ items ++ drop (S i) l.

(** [parent.children.splice(index, 1, ...htmlNodes)] on the parent object
    [p] of the tree. *)
Fixpoint splice_at (p : loc) (i : nat) (items : list node) (n : node) : node :=
  match n with
  | Parent id ty cs =>
      if decide (id = p) then Parent id ty (splice i items cs)
      else Parent id ty (splice_at p i items <$> cs)
  | _ => n
  end.

(** What the render collaborator receives and returns. *)
Record RenderOptions := {
  r_lang : string;
  r_theme : string;
  r_blockId : string;
  r_directives : HighlightOptions
}.

Record RenderResult := {
  html : string;
  css : string;
  script : string
}.

(** Calls to the collaborators and console output, as they happen. *)
Inductive event :=
| EvHook                                  (* loadLanguages() *)
| EvLoad (l : string) (ok : bool)         (* the grammar load of [l] and how it ended *)
| EvWarn (l : string)                     (* console.warn: Failed to load language *)
| EvRender (blockId : string) (l : string)  (* codeToHighlightHtml(...) *)
| EvError (l : string).                   (* console.error: Failed to process ... *)

#[global] Instance event_eq_dec : EqDecision event.
Proof. solve_decision. Defined.

(** The state that outlives a call: the closure variable of the plugin
    instance, the two module-level variables, and the history. *)
Record env := {
  languagesLoaded : bool;
  blockCounter : nat;
  loadedLanguages : gset string;
  trace : list event
}.

Definition log (ev : event) (e : env) : env :=
  {| languagesLoaded := languagesLoaded e; blockCounter := blockCounter e;
     loadedLanguages := loadedLanguages e; trace := trace e ++ [ev] |}.

Definition lang_or_text (c : code) : string :=
  match lang c with
  | Some l => if decide (l = ""%string) then "text"%string else l
  | None => "text"%string
  end.

Definition html_nodes (r : RenderResult) : list node :=
  [Html (html r); Html (css r); Html (script r)].

Section transform.
(** The options of the plugin and its collaborators.  A collaborator that
    may behave differently from call to call is given the number of
    events so far. *)
Context (theme : string)
        (globalLineNumbers : option lineNumbersOpt)
        (loadLanguages : option (nat → bool))
        (bundled : string → bool)
        (loadGrammar : nat → string → bool)
        (codeToHighlightHtml : string → RenderOptions → option RenderResult).

(** [if (loadLanguages && !languagesLoaded) { await loadLanguages();
    languagesLoaded = true; }]; [false] when the hook rejects. *)
Definition run_hook (e : env) : bool * env :=
  match loadLanguages with
  | Some hook =>
      if languagesLoaded e then (true, e)
      else
        let e1 := log EvHook e in
        if hook (length (trace e)) then
          (true, {| languagesLoaded := true; blockCounter := blockCounter e1;
                    loadedLanguages := loadedLanguages e1; trace := trace e1 |})
        else (false, e1)
  | None => (true, e)
  end.

(** The body of the loop over [detectedLanguages]. *)
Definition load_language (e : env) (l : string) : env :=
  if decide (l ∈ loadedLanguages e) then e
  else if bundled l then
    let ok := loadGrammar (length (trace e)) l in
    let e1 := log (EvLoad l ok) e in
    if ok then
      {| languagesLoaded := languagesLoaded e1; blockCounter := blockCounter e1;
         loadedLanguages := {[ l ]} ∪ loadedLanguages e1; trace := trace e1 |}
    else log (EvWarn l) e1
  else e.

Definition load_languages (ls : list string) (e : env) : env :=
  foldl load_language e ls.

(** [{ lang, theme, blockId, lineNumbers: metaOptions.lineNumbers ??
    globalLineNumbers, ...metaOptions }] *)
Definition render_options (l blockId : string) (o : HighlightOptions)
  : RenderOptions :=
  {| r_lang := l; r_theme := theme; r_blockId := blockId;
     r_directives :=
       {| highlightLines := highlightLines o;
          lineNumbers := match lineNumbers o with
                         | Some x => Some x
                         | None => globalLineNumbers
                         end;
          diffLines := diffLines o;
          focusLines := focusLines o |} |}.

(** The [try] block up to the splice: the three html nodes, or nothing
    when the parser or the render collaborator raised and the [catch]
    logged it. *)
Definition attempt (b : block) (e : env) : option (list node) * env :=
  let l := lang_or_text (node_of b) in
  match parseMetaString (meta (node_of b)) with
  | Throw _ => (None, log (EvError l) e)
  | Ok metaOptions =>
      let n := S (blockCounter e) in
      let blockId := ("hl-" +:+ pretty n)%string in
      let e1 := log (EvRender blockId l)
                  {| languagesLoaded := languagesLoaded e; blockCounter := n;
                     loadedLanguages := loadedLanguages e; trace := trace e |} in
      match codeToHighlightHtml (value (node_of b))
              (render_options l blockId metaOptions) with
      | Some r => (Some (html_nodes r), e1)
      | None => (None, log (EvError l) e1)
      end
  end.

(** The body of the loop over [codeBlocks]. *)
Definition process_block (st : node * env) (b : block) : node * env :=
  let '(o, e') := attempt b (snd st) in
  (match o with
   | Some items => splice_at (parent b) (index b) items (fst st)
   | None => fst st
   end, e').

(** State after the hook and the language pass. *)
Definition prepare (t : node) (e : env) : env :=
  load_languages (detected_languages t) (snd (run_hook e)).

(** The function returned by [remarkHighlightApi(options)]: the mutated
    tree, or the rejection of the hook, with the state it leaves. *)
Definition transform (t : node) (e : env) : result node * env :=
  match run_hook e with
  | (false, e1) => (Throw HookRejected, e1)
  | (true, e1) =>
      let e2 := load_languages (detected_languages t) e1 in
      let st := foldl process_block (t, e2) (sort_desc (collect t)) in
      (Ok (fst st), snd st)
  end.

(** Successive calls of one plugin instance, each on its own tree. *)
Definition transform_all (ts : list node) (e : env) : env :=
  foldl (λ e t, snd (transform t e)) e ts.

(** The outcome of each block in processing order. *)
Fixpoint plan (bs : list block) (e : env) : list (block * option (list node)) :=
  match bs with
  | [] => []
  | b :: bs' => (b, fst (attempt b e)) :: plan bs' (snd (attempt b e))
  end.
End transform.

(** The html nodes that took the place of child [i] of parent [p], if that
    block was converted. *)
Fixpoint replacement (pl : list (block * option (list node)))
    (p : loc) (i : nat) : option (list node) :=
  match pl with
  | [] => None
  | bo :: pl' =>
      if decide (parent (fst bo) = p ∧ index (fst bo) = i) then snd bo
      else replacement pl' p i
  end.

(** The result the batch rewrite is meant to have, by structure and
    without any index arithmetic: every child that has a replacement gives
    way, in place, to its own html nodes; every other child stays, rewritten
    inside. *)
Fixpoint expected_tree (f : loc → nat → option (list node)) (n : node) : node :=
  match n with
  | Parent id ty cs =>
      Parent id ty
        (flat_imap (λ i c, match f id i with
                           | Some items => items
                           | None => [expected_tree f c]
                           end) 0%nat cs)
  | _ => n
  end.

(** The identities of the parents of a tree. *)
Fixpoint ids (n : node) : list loc :=
  match n with
  | Parent id _ cs => id :: flat_imap (λ _ c, ids c) 0%nat cs
  | _ => []
  end.

(** A tree of objects: no parent object occurs twice. *)
Definition well_formed (t : node) : Prop := NoDup (ids t).

(** First result of [g] along a list. *)
Definition first_some {A B} (g : A → option B) : list A → option B :=
  fix go l :=
    match l with
    | [] => None
    | x :: l' => match g x with
                 | Some r => Some r
                 | None => go l'
                 end
    end.

(** The children of the parent object [p], where the tree has it. *)
Fixpoint children_of (p : loc) (n : node) : option (list node) :=
  match n with
  | Parent id _ cs =>
      if decide (id = p) then Some cs else first_some (children_of p) cs
  | _ => None
  end.

(** What stands, in the expected tree, for child [i] of parent [p]. *)
Definition image (f : loc → nat → option (list node)) (p : loc) (i : nat)
    (c : node) : list node :=
  match f p i with
  | Some items => items
  | None => [expected_tree f c]
  end.

(** Number of children of [p] before child [i] that were converted. *)
Definition converted_before (f : loc → nat → option (list node)) (p : loc)
    (i : nat) : nat :=
  length (filter (λ j, is_Some (f p j)) (seq 0 i)).

(** Where child [i] of [p] ends up: every converted child before it has
    taken three places instead of one. *)
Definition final_index (f : loc → nat → option (list node)) (p : loc)
    (i : nat) : nat :=
  i + 2 * converted_before f p i.

(** The events of a call: the history it leaves, less the one it found. *)
Definition events_since (e e' : env) : list event :=
  drop (length (trace e)) (trace e').

(** The call has a hook to run: one was supplied and has not completed. *)
Definition hook_due (loadLanguages : option (nat → bool)) (e : env) : bool :=
  match loadLanguages with
  | Some _ => negb (languagesLoaded e)
  | None => false
  end.

(** A grammar load of [l], however it ended. *)
Definition is_load_of (l : string) (ev : event) : Prop :=
  ev = EvLoad l true ∨ ev = EvLoad l false.

Definition load_count (l : string) (evs : list event) : nat :=
  length (filter (is_load_of l) evs).

(** Events of the language pass, and events of the loop over the blocks. *)
Definition loader_event (ev : event) : Prop :=
  match ev with
  | EvLoad _ _ | EvWarn _ => True
  | _ => False
  end.

Definition block_event (ev : event) : Prop :=
  match ev with
  | EvRender _ _ | EvError _ => True
  | _ => False
  end.

(** After a load of [l] that succeeded, the history has no further load of
    [l]. *)
Definition no_reload (evs : list event) : Prop :=
  ∀ pre post l, evs = pre ++ EvLoad l true :: post →
    ¬ ∃ ev, ev ∈ post ∧ is_load_of l ev.

(** A code node of the tree names the language [l]. *)
Definition references (t : node) (l : string) : Prop :=
  ∃ v, v ∈ visit_code None t ∧ lang (fst v) = Some l.

(** An entry of a plan applied to the tree, and to one list of children. *)
Definition apply_entry (t : node) (bo : block * option (list node)) : node :=
  match snd bo with
  | Some items => splice_at (parent (fst bo)) (index (fst bo)) items t
  | None => t
  end.

Definition local_step (l : list node) (bo : block * option (list node))
  : list node :=
  match snd bo with
  | Some items => splice (index (fst bo)) items l
  | None => l
  end.

(** Indices that go strictly down, all below [n]. *)
Fixpoint desc_below (n : nat) (ks : list nat) : Prop :=
  match ks with
  | [] => True
  | i :: ks' => i < n ∧ desc_below i ks'
  end.

(** The splices of a plan never leave the child array of their parent, in
    any parent object of the tree that has the identity. *)
Fixpoint in_range (p : loc) (i : nat) (n : node) : Prop :=
  match n with
  | Parent id _ cs =>
      (id = p → i < length cs)
      ∧ (fix all cs := match cs with
                       | [] => True
                       | c :: cs' => in_range p i c ∧ all cs'
                       end) cs
  | _ => True
  end.

(** Child [i] of every parent object of the tree that has the identity [p]
    is the code node [k]. *)
Fixpoint code_at (p : loc) (i : nat) (k : code) (n : node) : Prop :=
  match n with
  | Parent id _ cs =>
      (id = p → cs !! i = Some (Code k))
      ∧ (fix all cs := match cs with
                       | [] => True
                       | c :: cs' => code_at p i k c ∧ all cs'
                       end) cs
  | _ => True
  end.

Definition html_only (items : list node) : Prop :=
  Forall (λ n, ∃ v, n = Html v) items.

Definition html_entries (pl : list (block * option (list node))) : Prop :=
  ∀ b items, (b, Some items) ∈ pl → html_only items.

Definition entries_of (id : loc) (pl : list (block * option (list node)))
  : list (block * option (list node)) :=
  filter (λ bo, parent (fst bo) = id) pl.

Definition entries_off (id : loc) (pl : list (block * option (list node)))
  : list (block * option (list node)) :=
  filter (λ bo, parent (fst bo) ≠ id) pl.

Definition indices (pl : list (block * option (list node))) : list nat :=
  (λ bo, index (fst bo)) <$> pl.

Definition desc_per_parent (pl : list (block * option (list node))) : Prop :=
  ∀ id, ∃ n, desc_below n (indices (entries_of id pl)).

Definition position (b : block) : loc * nat := (parent b, index b).

Definition higher_first (a b : block) : Prop := index b ≤ index a.

(** Replacements stand for code nodes and are html nodes only. *)
Definition replaces_code (f : loc → nat → option (list node)) (n : node) : Prop :=
  ∀ p i items, f p i = Some items → html_only items ∧ ∃ k, code_at p i k n.

(** ** Vocabulary for the calls of the render collaborator *)

(** The parser returns for the meta string of the block. *)
Definition meta_parses (b : block) : bool :=
  match parseMetaString (meta (node_of b)) with
  | Ok _ => true
  | Throw _ => false
  end.

(** [`hl-${n}`] *)
Definition block_id (n : nat) : string := ("hl-" +:+ pretty n)%string.

Definition is_render (ev : event) : Prop :=
  match ev with
  | EvRender _ _ => True
  | _ => False
  end.

#[global] Instance is_render_dec ev : Decision (is_render ev).
Proof. destruct ev; simpl; apply _. Defined.

Definition render_id (ev : event) : option string :=
  match ev with
  | EvRender blockId _ => Some blockId
  | _ => None
  end.

(** The render call of the [k]-th block that a call gets to, when the
    counter stood at [c] before the call. *)
Definition render_event_of (c k : nat) (b : block) : event :=
  EvRender (block_id (c + S k)) (lang_or_text (node_of b)).

(** What the language pass leaves in the history for one language: the
    load, and the warning when it failed. *)
Definition load_outcome (lo : string * bool) : list event :=
  EvLoad (fst lo) (snd lo) :: if snd lo then [] else [EvWarn (fst lo)].

(** ** A sample document and sample collaborators *)

Definition sample_code (l : string) (m : option string) (v : string) : node :=
  Code {| lang := Some l; meta := m; value := v |}.

(** Six children under the root, three of them code, and a block quote
    with two more. *)
Definition sample_doc : node :=
  Parent 0 "root"
    [Leaf "heading" "Title";
     sample_code "js" None "first";
     Leaf "paragraph" "text";
     sample_code "js" (Some "{1,3}"%string) "second";
     Parent 1 "blockquote"
       [sample_code "ts" None "third"; sample_code "rust" None "fourth"];
     sample_code "js" None "fifth"].

(** A render collaborator that raises on the body [second]. *)
Definition sample_render (c : string) (o : RenderOptions) : option RenderResult :=
  if String.eqb c "second" then None
  else Some {| html := "<pre id=" +:+ r_blockId o +:+ ">" +:+ c;
               css := "<style>" +:+ r_blockId o;
               script := "<script>" +:+ r_blockId o |}.

Definition sample_env : env :=
  {| languagesLoaded := false; blockCounter := 0;
     loadedLanguages := ∅; trace := [] |}.

(** A hook that resolves, every language bundled, and a grammar supply
    that fails for [rust]. *)
Definition sample_transform (t : node) (e : env) : result node * env :=
  transform "dark-plus" None (Some (λ _, true)) (λ _, true)
            (λ _ l, negb (String.eqb l "rust")) sample_render t e.

Definition sample_plan : list (block * option (list node)) :=
  plan "dark-plus" None sample_render (sort_desc (collect sample_doc))
       (prepare (Some (λ _, true)) (λ _, true)
                (λ _ l, negb (String.eqb l "rust")) sample_doc sample_env).

Definition sample_result : node :=
  Parent 0 "root"
    [Leaf "heading" "Title";
     Html "<pre id=hl-3>first"; Html "<style>hl-3"; Html "<script>hl-3";
     Leaf "paragraph" "text";
     sample_code "js" (Some "{1,3}"%string) "second";
     Parent 1 "blockquote"
       [Html "<pre id=hl-5>third"; Html "<style>hl-5"; Html "<script>hl-5";
        Html "<pre id=hl-4>fourth"; Html "<style>hl-4"; Html "<script>hl-4"];
     Html "<pre id=hl-1>fifth"; Html "<style>hl-1"; Html "<script>hl-1"].


Definition fifth_block : block :=
  {| node_of := {| lang := Some "js"%string; meta := None; value := "fifth" |};
     index := 5; parent := 0 |}.


Definition opts_first_group : HighlightOptions :=
  {| highlightLines := Some "1"%string; lineNumbers := None;
     diffLines := None; focusLines := None |}.

Definition opts_passed_over : HighlightOptions :=
  {| highlightLines := Some "1,3"%string; lineNumbers := None;
     diffLines := None; focusLines := None |}.


Definition opts_written : HighlightOptions :=
  {| highlightLines := Some "1,3-5"%string; lineNumbers := None;
     diffLines := Some {| added := None; removed := Some [Num 5%Z] |};
     focusLines := Some [Num 1%Z; Num 3%Z; Num 4%Z; Num 5%Z] |}.


Definition opts_diff : HighlightOptions :=
  {| highlightLines := None; lineNumbers := None;
     diffLines := Some {| added := Some [Num 1; Num 3];
                          removed := Some [Num 2; Num 5] |};
     focusLines := None |}.

Definition fifth_render : RenderResult :=
  {| html := "<pre id=hl-1>fifth"; css := "<style>hl-1";
     script := "<script>hl-1" |}.

(** A render collaborator that always returns. *)
Definition sample_render_ok (c : string) (o : RenderOptions) : option RenderResult :=
  Some {| html := "<pre id=" +:+ r_blockId o +:+ ">" +:+ c;
          css := "<style>" +:+ r_blockId o;
          script := "<script>" +:+ r_blockId o |}.

Definition sample_transform_ok (t : node) (e : env) : result node * env :=
  transform "dark-plus" None (Some (λ _, true)) (λ _, true)
            (λ _ l, negb (String.eqb l "rust")) sample_render_ok t e.

Definition sample_result_ok : node :=
  Parent 0 "root"
    [Leaf "heading" "Title";
     Html "<pre id=hl-3>first"; Html "<style>hl-3"; Html "<script>hl-3";
     Leaf "paragraph" "text";
     Html "<pre id=hl-2>second"; Html "<style>hl-2"; Html "<script>hl-2";
     Parent 1 "blockquote"
       [Html "<pre id=hl-5>third"; Html "<style>hl-5"; Html "<script>hl-5";
        Html "<pre id=hl-4>fourth"; Html "<style>hl-4"; Html "<script>hl-4"];
     Html "<pre id=hl-1>fifth"; Html "<style>hl-1"; Html "<script>hl-1"].

(** A document with a fence whose focus range cannot be expanded. *)
Definition sample_doc_long_range : node :=
  Parent 0 "root"
    [sample_code "js" (Some "focus{1-4294967296}"%string) "first";
     Leaf "paragraph" "text";
     sample_code "ts" (Some "showLineNumbers"%string) "second"].

Definition long_range_block : block :=
  {| node_of := {| lang := Some "js"%string;
                   meta := Some "focus{1-4294967296}"%string;
                   value := "first" |};
     index := 0; parent := 0 |}.

Definition sample_result_long_range : node :=
  Parent 0 "root"
    [sample_code "js" (Some "focus{1-4294967296}"%string) "first";
     Leaf "paragraph" "text";
     Html "<pre id=hl-1>second"; Html "<style>hl-1"; Html "<script>hl-1"].

Definition opts_focus2 : HighlightOptions :=
  {| highlightLines := Some "2"%string; lineNumbers := None;
     diffLines := None; focusLines := Some [Num 2%Z] |}.

Definition opts_readme : HighlightOptions :=
  {| highlightLines := Some "1,3"%string;
     lineNumbers := Some (LNStart (Some (Num 10%Z)));
     diffLines := Some {| added := Some [Num 1%Z]; removed := Some [Num 2%Z] |};
     focusLines := Some [Num 1%Z; Num 2%Z] |}.

Definition opts_flag : HighlightOptions :=
  {| highlightLines := None; lineNumbers := Some (LNBool true);
     diffLines := None; focusLines := None |}.

(** A block whose fence has the flag word and no start. *)
Definition flagged_block : block :=
  {| node_of := {| lang := Some "ts"%string;
                   meta := Some "showLineNumbers"%string;
                   value := "second" |};
     index := 2; parent := 0 |}.


(** * Proofs *)

Local Open Scope Z_scope.

(** The combined example of the README.  The hyphen of its focus range is
    also read as a removed-line indicator. *)
Example parse_readme_combined :
  parseMetaString (Some "{1,3} showLineNumbers:10 +1 focus{1-2}"%string)
  = Ok {| highlightLines := Some "1,3"%string;
          lineNumbers := Some (LNStart (Some (Num 10)));
          diffLines := Some {| added := Some [Num 1]; removed := Some [Num 2] |};
          focusLines := Some [Num 1; Num 2] |}.
Proof. vm_compute. reflexivity. Qed.

(** ** Facts about the string primitives *)

Lemma strip_prefix_Some pre s r :
  strip_prefix pre s = Some r ↔ s = pre ++ r.
Proof.
  revert s. induction pre as [|a pre IH]; intros s; simpl.
  - split; [intros [= ->] | intros ->]; done.
  - destruct s as [|b s]; [split; [done | intros [=]] |].
    destruct (Ascii.eqb_spec a b) as [->|Hne].
    + rewrite IH. split; [intros -> | intros [= ->]]; done.
    + split; [done | intros [= ? _]; done].
Qed.

Lemma strip_prefix_app pre r : strip_prefix pre (pre ++ r) = Some r.
Proof. by apply strip_prefix_Some. Qed.

Lemma span_spec p s run rest :
  span p s = (run, rest) ↔ s = run ++ rest ∧ all_in p run ∧ stops p rest.
Proof.
  split.
  - revert run rest. induction s as [|c s IH]; intros run rest; simpl.
    + intros [= <- <-]. repeat split. constructor.
    + destruct (p c) eqn:Hc.
      * destruct (span p s) as [run' rest'] eqn:Hs. intros [= <- <-].
        destruct (IH _ _ eq_refl) as (-> & Hall & Hstop).
        repeat split; [by constructor | done].
      * intros [= <- <-]. repeat split; [constructor | done].
  - intros (-> & Hall & Hstop). induction Hall as [|c run Hc _ IH]; simpl.
    + destruct rest as [|c rest]; simpl in *; [done |]. by rewrite Hstop.
    + by rewrite Hc, IH.
Qed.

Lemma class_plus_Some p s run rest :
  class_plus p s = Some (run, rest)
  ↔ s = run ++ rest ∧ run ≠ [] ∧ all_in p run ∧ stops p rest.
Proof.
  unfold class_plus. destruct (span p s) as [run' rest'] eqn:Hs.
  apply span_spec in Hs as Hs'. destruct Hs' as (-> & Hall & Hstop). split.
  - destruct run' as [|c run']; [done |]. intros [= <- <-]. done.
  - intros (Heq & Hne & Hall' & Hstop').
    assert (span p (run ++ rest) = (run, rest)) as Hs2 by by apply span_spec.
    rewrite <- Heq, Hs in Hs2. injection Hs2 as -> ->.
    by destruct run.
Qed.


Section find_first.
Context {A : Type} (m : str → option A) (P : A → str → Prop).
Hypothesis m_spec : ∀ suf a, m suf = Some a ↔ P a suf.

Lemma find_first_None s :
  find_first m s = None ↔ nowhere P s.
Proof using m_spec.
  induction s as [|c s IH]; simpl.
  - destruct (m []) as [a|] eqn:Hm.
    + split; [done |]. intros H. destruct (H [] [] a eq_refl). by apply m_spec.
    + split; [| done]. intros _ pre suf a Heq HP.
      symmetry in Heq. apply app_eq_nil in Heq as [-> ->].
      apply m_spec in HP. congruence.
  - destruct (m (c :: s)) as [a|] eqn:Hm.
    + split; [done |]. intros H. destruct (H [] (c :: s) a eq_refl).
      by apply m_spec.
    + rewrite IH. split.
      * intros H pre suf a Heq HP. destruct pre as [|c' pre]; simpl in Heq.
        -- subst suf. apply m_spec in HP. congruence.
        -- injection Heq as <- ->. by eapply H.
      * intros H pre suf a -> HP. by eapply (H (c :: pre)).
Qed.

Lemma find_first_Some s a :
  find_first m s = Some a ↔ first_at P s a.
Proof using m_spec.
  induction s as [|c s IH]; simpl.
  - destruct (m []) as [a'|] eqn:Hm.
    + split.
      * intros [= ->]. exists [], []. split_and!; [done | by apply m_spec |].
        intros; simpl; lia.
      * intros (pre & suf & Heq & HP & _).
        symmetry in Heq. apply app_eq_nil in Heq as [-> ->].
        apply m_spec in HP. congruence.
    + split; [done |]. intros (pre & suf & Heq & HP & _).
      symmetry in Heq. apply app_eq_nil in Heq as [-> ->].
      apply m_spec in HP. congruence.
  - destruct (m (c :: s)) as [a'|] eqn:Hm.
    + split.
      * intros [= ->]. exists [], (c :: s). split_and!; [done | by apply m_spec |].
        intros; simpl; lia.
      * intros (pre & suf & Heq & HP & Hmin).
        apply m_spec in Hm. specialize (Hmin [] (c :: s) a' eq_refl Hm).
        destruct pre; [| simpl in Hmin; lia]. simpl in Heq. subst suf.
        apply m_spec in HP, Hm. congruence.
    + rewrite IH. split.
      * intros (pre & suf & -> & HP & Hmin). exists (c :: pre), suf.
        split_and!; [done | done |]. intros pre' suf' a' Heq HP'.
        destruct pre' as [|c' pre']; simpl in Heq.
        -- subst suf'. apply m_spec in HP'. congruence.
        -- injection Heq as <- Heq. simpl. specialize (Hmin _ _ _ Heq HP'). lia.
      * intros (pre & suf & Heq & HP & Hmin).
        destruct pre as [|c' pre]; simpl in Heq.
        -- subst suf. apply m_spec in HP. congruence.
        -- injection Heq as <- ->. exists pre, suf. split_and!; [done | done |].
           intros pre' suf' a' Heq' HP'.
           assert (c :: pre ++ suf = (c :: pre') ++ suf') as Heq2
             by (simpl; by rewrite Heq').
           specialize (Hmin (c :: pre') suf' a' Heq2 HP'). simpl in Hmin. lia.
Qed.
End find_first.

Lemma includes_true needle s :
  includes needle s = true ↔ ∃ pre post, s = pre ++ needle ++ post.
Proof.
  unfold includes. rewrite bool_decide_eq_true. split.
  - intros [r Hr].
    apply (find_first_Some _ (λ r suf, suf = needle ++ r)) in Hr;
      [| intros; apply strip_prefix_Some].
    destruct Hr as (pre & suf & -> & -> & _). by exists pre, r.
  - intros (pre & post & ->).
    destruct (find_first (strip_prefix needle) (pre ++ needle ++ post)) eqn:Hf; [done |].
    apply (find_first_None _ (λ r suf, suf = needle ++ r)) in Hf;
      [| intros; apply strip_prefix_Some].
    by destruct (Hf pre (needle ++ post) post).
Qed.

(** ** The patterns, characterised on the text *)

Lemma fst_class_plus_Some p s run :
  fst <$> class_plus p s = Some run
  ↔ ∃ rest, s = run ++ rest ∧ run ≠ [] ∧ all_in p run ∧ stops p rest.
Proof.
  split.
  - destruct (class_plus p s) as [[run' rest]|] eqn:Hc; [| done].
    intros [= <-]. exists rest. by apply class_plus_Some.
  - intros (rest & H). apply class_plus_Some in H. by rewrite H.
Qed.

Lemma re_braces_Some s g : re_braces s = Some g ↔ brace_group g s.
Proof.
  unfold re_braces, brace_group. split.
  - intros (rest & H1 & H)%bind_Some.
    apply bind_Some in H as ([run rest'] & H2 & H).
    apply bind_Some in H as (post & H3 & [= ->]).
    apply strip_prefix_Some in H1 as ->. apply strip_prefix_Some in H3 as ->.
    apply class_plus_Some in H2 as (-> & Hne & Hall & _).
    by exists post.
  - intros (post & -> & Hne & Hall).
    apply bind_Some. exists (g ++ rbrace ++ post). split; [apply strip_prefix_app |].
    apply bind_Some. exists (g, rbrace ++ post). split.
    { apply class_plus_Some. split_and!; [done | done | done | reflexivity]. }
    apply bind_Some. exists post. split; [apply strip_prefix_app | done].
Qed.

Lemma re_focus_Some s g : re_focus s = Some g ↔ focus_group g s.
Proof.
  unfold re_focus, focus_group. split.
  - intros (rest & H1 & (post & -> & ? & ?)%re_braces_Some)%bind_Some.
    apply strip_prefix_Some in H1 as ->. by exists post.
  - intros (post & -> & Hne & Hall). apply bind_Some.
    exists (lbrace ++ g ++ rbrace ++ post). split; [apply strip_prefix_app |].
    apply re_braces_Some. by exists post.
Qed.

Lemma re_diff_Some indicator s g :
  re_diff indicator s = Some g ↔ diff_list indicator g s.
Proof.
  unfold re_diff, diff_list. split.
  - intros (rest & H1 & (post & -> & ? & ? & ?)%fst_class_plus_Some)%bind_Some.
    apply strip_prefix_Some in H1 as ->. by exists post.
  - intros (post & -> & Hne & Hall & Hstop). apply bind_Some.
    exists (g ++ post). split; [apply (strip_prefix_app [indicator]) |].
    apply fst_class_plus_Some. by exists post.
Qed.

Lemma colon_digits_Some s ds :
  colon_digits s = Some ds
  ↔ ∃ post, s = ":" :: ds ++ post ∧ ds ≠ [] ∧ all_in is_digit ds ∧ stops is_digit post.
Proof.
  unfold colon_digits. split.
  - intros (rest & H1 & (post & -> & ? & ? & ?)%fst_class_plus_Some)%bind_Some.
    apply strip_prefix_Some in H1 as ->. by exists post.
  - intros (post & -> & Hne & Hall & Hstop). apply bind_Some.
    exists (ds ++ post). split; [apply (strip_prefix_app [":"]) |].
    apply fst_class_plus_Some. by exists post.
Qed.

Lemma flag_colon_digits_Some kw s ds :
  strip_prefix kw s ≫= colon_digits = Some ds
  ↔ ∃ post, s = kw ++ ":" :: ds ++ post
            ∧ ds ≠ [] ∧ all_in is_digit ds ∧ stops is_digit post.
Proof.
  split.
  - intros (rest & H1 & (post & -> & ? & ? & ?)%colon_digits_Some)%bind_Some.
    apply strip_prefix_Some in H1 as ->. by exists post.
  - intros (post & -> & Hne & Hall & Hstop). apply bind_Some.
    exists (":" :: ds ++ post). split; [apply strip_prefix_app |].
    apply colon_digits_Some. by exists post.
Qed.

Lemma re_start_Some s ds : re_start s = Some ds ↔ explicit_start ds s.
Proof.
  unfold re_start, explicit_start. split.
  - destruct (strip_prefix kw_showLineNumbers s ≫= colon_digits) as [ds'|] eqn:H1.
    + intros [= ->]. apply flag_colon_digits_Some in H1 as (post & ?).
      exists kw_showLineNumbers, post. split; [by left | done].
    + intros (post & ?)%flag_colon_digits_Some.
      exists kw_lineNumbers, post. split; [by right | done].
  - intros (kw & post & [-> | ->] & Hrest).
    + assert (strip_prefix kw_showLineNumbers s ≫= colon_digits = Some ds) as ->;
        [| done].
      apply flag_colon_digits_Some. by exists post.
    + destruct Hrest as (-> & Hrest).
      assert (strip_prefix kw_showLineNumbers (kw_lineNumbers ++ ":" :: ds ++ post)
              = None) as -> by reflexivity.
      apply flag_colon_digits_Some. by exists post.
Qed.

Lemma has_flag_includes s :
  includes kw_showLineNumbers s || includes kw_lineNumbers s = true ↔ has_flag s.
Proof.
  rewrite orb_true_iff, !includes_true. unfold has_flag. split.
  - intros [(pre & post & ->) | (pre & post & ->)]; eauto 10.
  - intros (kw & pre & post & [-> | ->] & ->); eauto.
Qed.

(** *** Numbers read from runs of digits *)

Lemma is_digit_not_space c : is_digit c = true → is_space c = false.
Proof.
  destruct c as [[] [] [] [] [] [] [] []]; simpl; congruence.
Qed.

Lemma split_sign_digit c r :
  is_digit c = true → split_sign (c :: r) = (1, c :: r).
Proof.
  destruct c as [[] [] [] [] [] [] [] []]; simpl; done.
Qed.

Lemma drop_spaces_id p s :
  (∀ c, p c = true → is_space c = false) → all_in p s → drop_spaces s = s.
Proof.
  intros Hp [|c s' Hc _]; simpl; [done |]. by rewrite (Hp c Hc).
Qed.

Lemma trim_id p s :
  (∀ c, p c = true → is_space c = false) → all_in p s → trim s = s.
Proof.
  intros Hp Hall. unfold trim. rewrite (drop_spaces_id p s Hp Hall).
  rewrite (drop_spaces_id p (reverse s) Hp).
  - apply reverse_involutive.
  - unfold all_in. by rewrite Forall_reverse.
Qed.

Lemma parseInt10_digits ds :
  ds ≠ [] → all_in is_digit ds → parseInt10 ds = Num (digits_value ds).
Proof.
  intros Hne Hall. unfold parseInt10.
  rewrite (drop_spaces_id is_digit ds is_digit_not_space Hall).
  destruct ds as [|c ds']; [done |].
  assert (is_digit c = true) as Hc by by inversion Hall.
  rewrite (split_sign_digit c ds' Hc).
  assert (span is_digit (c :: ds') = (c :: ds', [])) as ->.
  { apply span_spec. by rewrite app_nil_r. }
  simpl fst. f_equal. lia.
Qed.

(** *** Splitting and joining *)

Lemma split_no_sep sep p : no_char sep p → split sep p = [p].
Proof.
  induction 1 as [|c p Hc _ IH]; simpl; [done |].
  destruct (Ascii.eqb_spec c sep); [done |]. by rewrite IH.
Qed.

Lemma split_app_sep sep p r :
  no_char sep p → split sep (p ++ sep :: r) = p :: split sep r.
Proof.
  induction 1 as [|c p Hc _ IH]; simpl.
  - by rewrite Ascii.eqb_refl.
  - destruct (Ascii.eqb_spec c sep); [done |]. by rewrite IH.
Qed.

Lemma split_join_commas parts :
  parts ≠ [] → Forall (no_char ",") parts → split "," (join_commas parts) = parts.
Proof.
  intros Hne Hall. induction Hall as [|p ps Hp Hps IH]; [done |].
  destruct ps as [|q ps]; simpl.
  - by apply split_no_sep.
  - rewrite split_app_sep by done. f_equal. by apply IH.
Qed.

Lemma digits_no_char sep p :
  is_digit sep = false → all_in is_digit p → no_char sep p.
Proof.
  intros Hsep Hall. eapply Forall_impl; [exact Hall |].
  intros c Hc ->. congruence.
Qed.

Lemma diff_numbers_join parts :
  parts ≠ [] → Forall digit_run parts →
  diff_numbers (join_commas parts) = (λ p, Num (digits_value p)) <$> parts.
Proof.
  intros Hne Hall. unfold diff_numbers. rewrite split_join_commas; [| done |].
  - apply list_fmap_ext. intros i p Hp.
    destruct (proj1 (Forall_lookup _ _) Hall i p Hp) as [Hp1 Hp2].
    rewrite (trim_id is_digit p is_digit_not_space Hp2).
    by apply parseInt10_digits.
  - eapply Forall_impl; [exact Hall |]. intros p [_ Hp].
    by apply digits_no_char.
Qed.

(** *** Ranges of the focus group *)

Lemma focus_part_single a :
  digit_run a → focus_part a = Ok [Num (digits_value a)].
Proof.
  intros [Hne Hall]. unfold focus_part.
  assert (includes ["-"] a = false) as ->.
  { apply not_true_is_false. intros (pre & post & ->)%includes_true.
    apply Forall_app in Hall as [_ Hall]. by inversion Hall. }
  rewrite (trim_id is_digit a is_digit_not_space Hall).
  by rewrite parseInt10_digits.
Qed.

Lemma focus_part_range a b :
  digit_run a → digit_run b →
  focus_part (a ++ "-" :: b)
  = array_from_length (Num (digits_value b - digits_value a + 1))
                      (λ i, Num (digits_value a + i)).
Proof.
  intros [Hna Ha] [Hnb Hb]. unfold focus_part.
  assert (includes ["-"] (a ++ "-" :: b) = true) as ->.
  { apply includes_true. by exists a, b. }
  rewrite split_app_sep by by apply digits_no_char.
  rewrite split_no_sep by by apply digits_no_char.
  simpl.
  rewrite (trim_id is_digit a is_digit_not_space Ha).
  rewrite (trim_id is_digit b is_digit_not_space Hb).
  by rewrite !parseInt10_digits.
Qed.


Lemma flat_map_result_app {A B} (f : A → result (list B)) l1 l2 r1 r2 :
  flat_map_result f l1 = Ok r1 → flat_map_result f l2 = Ok r2 →
  flat_map_result f (l1 ++ l2) = Ok (r1 ++ r2).
Proof.
  revert r1. induction l1 as [|x l1 IH]; intros r1; simpl.
  - by intros [= <-].
  - destruct (f x) as [ys|]; [| done].
    destruct (flat_map_result f l1) as [zs|]; [| done].
    intros [= <-] H2. rewrite (IH zs eq_refl H2). by rewrite app_assoc.
Qed.

(** *** The fields of a parse that returns *)

Lemma parseMetaString_Ok meta opts :
  parseMetaString (Some meta) = Ok opts →
  let s := list_ascii_of_string meta in
  highlightLines opts = parse_highlight s
  ∧ lineNumbers opts = parse_lineNumbers s
  ∧ diffLines opts = parse_diff s
  ∧ parse_focus s = Ok (focusLines opts).
Proof.
  unfold parseMetaString. destruct (list_ascii_of_string meta) as [|c s] eqn:Hs.
  - by intros [= <-].
  - unfold parse_meta. destruct (parse_focus (c :: s)) as [f|]; [| done].
    by intros [= <-].
Qed.

Lemma parseMetaString_returns meta f :
  parse_focus (list_ascii_of_string meta) = Ok f →
  ∃ opts, parseMetaString (Some meta) = Ok opts ∧ focusLines opts = f.
Proof.
  unfold parseMetaString. destruct (list_ascii_of_string meta) as [|c s] eqn:Hs.
  - intros [= <-]. by eexists.
  - unfold parse_meta. intros ->. by eexists.
Qed.

Lemma parse_diff_field indicator s :
  indicator = "+" ∨ indicator = "-" →
  (d ← parse_diff s; if Ascii.eqb indicator "+" then added d else removed d)
  = diff_numbers <$> find_first (re_diff indicator) s.
Proof.
  unfold parse_diff.
  intros [-> | ->]; simpl;
    destruct (find_first (re_diff "+") s), (find_first (re_diff "-") s); done.
Qed.

(** ** The parser: theorems *)



(** C8, as the code has it.  For a string on which the parser returns: a
    brace group whose content is empty, or has a character other than the
    digits, the comma and the hyphen, is passed over, and the scan goes on
    to the groups after it; when the leftmost of the remaining brace groups
    holds a well-formed list of lines and ranges, that list is
    [highlightLines], verbatim, whatever groups follow it; when no brace
    group is left, the field is absent.  Nothing is said of a leftmost
    group that is not a well-formed list. *)
Theorem highlight_first_group_wins (meta : string) (opts : HighlightOptions) :
  parseMetaString (Some meta) = Ok opts →
  let s := list_ascii_of_string meta in
  (∀ g, first_at brace_group s g → selector_list g →
     highlightLines opts = Some (string_of_list_ascii g))
  ∧ (nowhere brace_group s → highlightLines opts = None).
Proof.
  intros Hparse s. apply parseMetaString_Ok in Hparse as (Hhl & _).
  fold s in Hhl. rewrite Hhl. unfold parse_highlight.
  pose proof (find_first_Some re_braces brace_group re_braces_Some s) as Hsome.
  pose proof (find_first_None re_braces brace_group re_braces_Some s) as Hnone.
  split.
  - intros g Hg _. apply Hsome in Hg. by rewrite Hg.
  - intros Hno. apply Hnone in Hno. by rewrite Hno.
Qed.

(** X20.  Diff marks that are written as the README shows them.  For a
    string on which the parser returns, whose numbers have 15 digits at
    most, and either indicator: when the leftmost occurrence of the
    indicator that is directly followed by a digit or a comma is followed
    by a list of runs of digits, the field holds the numbers they spell, in
    order, whatever stands before or after; the scans for the two
    indicators do not depend on one another. *)
Theorem diff_list_of_integers (meta : string) (opts : HighlightOptions)
    (indicator : ascii) (parts : list str) :
  parseMetaString (Some meta) = Ok opts →
  small_numbers (list_ascii_of_string meta) →
  indicator = "+" ∨ indicator = "-" →
  parts ≠ [] → Forall digit_run parts →
  first_at (diff_list indicator) (list_ascii_of_string meta)
           (join_commas parts) →
  diff_field indicator opts = Some ((λ p, Num (digits_value p)) <$> parts).
Proof.
  intros Hparse _ Hind Hne Hall Hg.
  apply parseMetaString_Ok in Hparse as (_ & _ & Hd & _). cbn zeta in Hd.
  unfold diff_field. rewrite Hd, (parse_diff_field _ _ Hind).
  apply (find_first_Some (re_diff indicator) (diff_list indicator)
           (re_diff_Some indicator)) in Hg.
  rewrite Hg. simpl. by rewrite diff_numbers_join.
Qed.


Lemma parse_focus_Ok meta opts g :
  parseMetaString (Some meta) = Ok opts →
  first_at focus_group (list_ascii_of_string meta) g →
  ∃ l, focus_lines g = Ok l ∧ focusLines opts = Some l.
Proof.
  intros (_ & _ & _ & Hf)%parseMetaString_Ok Hg. cbn zeta in Hf.
  apply (find_first_Some re_focus focus_group re_focus_Some) in Hg.
  unfold parse_focus in Hf. rewrite Hg in Hf.
  destruct (focus_lines g) as [l|]; [| done]. injection Hf as <-. by exists l.
Qed.


Local Close Scope Z_scope.

(** ** Lists: indexed concatenation and splices in descending order *)

Lemma node_induction (P : node → Prop) :
  (∀ c, P (Code c)) → (∀ v, P (Html v)) → (∀ ty v, P (Leaf ty v)) →
  (∀ id ty cs, Forall P cs → P (Parent id ty cs)) →
  ∀ n, P n.
Proof.
  intros HC HH HL HP. fix IH 1. intros [c|v|ty v|id ty cs]; [done.. |].
  apply HP. induction cs as [|c cs IHcs]; constructor; [apply IH | apply IHcs].
Qed.

Section flat_imap.
Context {A B : Type}.
Implicit Types (f g : nat → A → list B) (l : list A).

Lemma flat_imap_app f i l1 l2 :
  flat_imap f i (l1 ++ l2)
  = flat_imap f i l1 ++ flat_imap f (i + length l1) l2.
Proof.
  revert i. induction l1 as [|x l1 IH]; intros i; simpl.
  - by rewrite Nat.add_0_r.
  - rewrite IH, <- app_assoc. do 3 f_equal. lia.
Qed.

Lemma flat_imap_ext f g i l :
  (∀ j x, l !! j = Some x → f (i + j) x = g (i + j) x) →
  flat_imap f i l = flat_imap g i l.
Proof.
  revert i. induction l as [|x l IH]; intros i H; simpl; [done |].
  f_equal.
  - specialize (H 0 x eq_refl). by rewrite Nat.add_0_r in H.
  - apply IH. intros j y Hj. specialize (H (S j) y Hj).
    by replace (S i + j) with (i + S j) by lia.
Qed.

Lemma flat_imap_fmap {C} (h : C → A) f i (l : list C) :
  flat_imap f i (h <$> l) = flat_imap (λ j x, f j (h x)) i l.
Proof.
  revert i. induction l as [|x l IH]; intros i; simpl; [done |]. by rewrite IH.
Qed.

Lemma elem_of_flat_imap f i l y :
  y ∈ flat_imap f i l ↔ ∃ j x, l !! j = Some x ∧ y ∈ f (i + j) x.
Proof.
  revert i. induction l as [|x l IH]; intros i; simpl.
  - split; [by intros ?%elem_of_nil | by intros (j & ? & ? & _)].
  - rewrite elem_of_app, IH. split.
    + intros [H | (j & x' & Hj & H)].
      * exists 0, x. by rewrite Nat.add_0_r.
      * exists (S j), x'. by replace (i + S j) with (S i + j) by lia.
    + intros ([|j] & x' & Hj & H); simpl in Hj.
      * left. injection Hj as <-. by rewrite Nat.add_0_r in H.
      * right. exists j, x'. by replace (S i + j) with (i + S j) by lia.
Qed.

Lemma NoDup_flat_imap f i l :
  (∀ j x, l !! j = Some x → NoDup (f (i + j) x)) →
  (∀ j j' x x' y, j < j' → l !! j = Some x → l !! j' = Some x' →
     y ∈ f (i + j) x → y ∉ f (i + j') x') →
  NoDup (flat_imap f i l).
Proof.
  revert i. induction l as [|x l IH]; intros i H1 H2; simpl; [constructor |].
  apply NoDup_app. split_and!.
  - specialize (H1 0 x eq_refl). by rewrite Nat.add_0_r in H1.
  - intros y Hy (j & x' & Hj & Hy')%elem_of_flat_imap.
    apply (H2 0 (S j) x x' y); [lia | done | done | | ].
    + by rewrite Nat.add_0_r.
    + by replace (i + S j) with (S i + j) by lia.
  - apply IH.
    + intros j x' Hj. specialize (H1 (S j) x' Hj).
      by replace (S i + j) with (i + S j) by lia.
    + intros j j' x1 x2 y Hlt Hj Hj' Hy.
      replace (S i + j') with (i + S j') by lia.
      apply (H2 (S j) (S j') x1 x2 y); [lia | done | done |].
      by replace (i + S j) with (S i + j) by lia.
Qed.
End flat_imap.

Lemma flat_imap_fmap_out {A B C} (h : B → C) (f : nat → A → list B) i l :
  h <$> flat_imap f i l = flat_imap (λ j x, h <$> f j x) i l.
Proof.
  revert i. induction l as [|x l IH]; intros i; simpl; [done |].
  by rewrite fmap_app, IH.
Qed.

Lemma omap_flat_imap {A B C} (h : B → option C) (f : nat → A → list B) i l :
  omap h (flat_imap f i l) = flat_imap (λ j x, omap h (f j x)) i l.
Proof.
  revert i. induction l as [|x l IH]; intros i; simpl; [done |].
  by rewrite omap_app, IH.
Qed.

Lemma flat_imap_singletons {A} i (l : list A) :
  flat_imap (λ _ x, [x]) i l = l.
Proof.
  revert i. induction l as [|x l IH]; intros i; simpl; [done |]. by rewrite IH.
Qed.

Lemma splice_app_l {A} i (items l1 l2 : list A) :
  i < length l1 → splice i items (l1 ++ l2) = splice i items l1 ++ l2.
Proof.
  intros Hi. unfold splice.
  rewrite take_app_le, drop_app_le by lia. by rewrite <- !app_assoc.
Qed.

Lemma splice_fmap {A B} (h : A → B) i (items l : list A) :
  h <$> splice i items l = splice i (h <$> items) (h <$> l).
Proof. unfold splice. by rewrite !fmap_app, fmap_take, fmap_drop. Qed.

Lemma length_splice_ge {A} i (items l : list A) :
  i < length l → i ≤ length (splice i items l).
Proof.
  intros Hi. unfold splice. rewrite length_app, length_take. lia.
Qed.

Lemma desc_below_mono n m ks : n ≤ m → desc_below n ks → desc_below m ks.
Proof. destruct ks as [|i ks]; simpl; [done |]. intros ? [? ?]. split; [lia | done]. Qed.

Lemma desc_below_Forall n ks : desc_below n ks → Forall (λ i, i < n) ks.
Proof.
  revert n. induction ks as [|i ks IH]; intros n; simpl; [constructor |].
  intros [Hi Hd]. constructor; [done |].
  eapply Forall_impl; [by apply IH |]. simpl. intros; lia.
Qed.

Lemma local_fold_app ops (l1 l2 : list node) :
  desc_below (length l1) (indices ops) →
  foldl local_step (l1 ++ l2) ops = foldl local_step l1 ops ++ l2.
Proof.
  revert l1. induction ops as [|bo ops IH]; intros l1; simpl; [done |].
  intros [Hi Hd]. unfold local_step at 2 4.
  destruct (snd bo) as [items|].
  - rewrite splice_app_l by done. apply IH.
    eapply desc_below_mono; [| done]. by apply length_splice_ge.
  - apply IH. eapply desc_below_mono; [| done]. lia.
Qed.

Lemma replacement_head bo pl :
  replacement (bo :: pl) (parent (fst bo)) (index (fst bo)) = snd bo.
Proof. simpl. by rewrite decide_True. Qed.

Lemma replacement_other bo pl p j :
  index (fst bo) ≠ j → replacement (bo :: pl) p j = replacement pl p j.
Proof. intros Hj. simpl. rewrite decide_False; [done |]. by intros [_ ?]. Qed.

Lemma replacement_above pl p i j :
  Forall (λ k, k < i) (indices pl) → i ≤ j → replacement pl p j = None.
Proof.
  induction pl as [|bo pl IH]; simpl; [done |].
  intros [Hk Hall]%Forall_cons Hj. rewrite decide_False; [by apply IH |].
  intros [_ ?]. lia.
Qed.

(** The splices of one parent, taken from the highest index down, leave
    every replaced child's items where the child was. *)
Lemma local_fold_spec id ops (l : list node) :
  Forall (λ bo, parent (fst bo) = id) ops →
  desc_below (length l) (indices ops) →
  foldl local_step l ops
  = flat_imap (λ j x, match replacement ops id j with
                      | Some items => items
                      | None => [x]
                      end) 0 l.
Proof.
  revert l. induction ops as [|bo ops IH]; intros l Hpar Hdesc.
  { simpl. by rewrite flat_imap_singletons. }
  apply Forall_cons in Hpar as [Hp Hpar]. destruct Hdesc as [Hi Hd].
  simpl in Hi. set (i := index (fst bo)) in *.
  pose proof (desc_below_Forall _ _ Hd) as Hlt.
  destruct (lookup_lt_is_Some_2 l i Hi) as [x Hx].
  cbn [foldl]. unfold local_step at 2. destruct (snd bo) as [items|] eqn:Hbo.
  - unfold splice. rewrite local_fold_app
      by (rewrite length_take_le by lia; exact Hd).
    rewrite IH by (try rewrite length_take_le by lia; done).
    rewrite <- (take_drop_middle l i x Hx) at 3.
    rewrite flat_imap_app. cbn [flat_imap]. rewrite length_take_le by lia.
    f_equal; [| f_equal].
    + apply flat_imap_ext. intros j y Hj.
      apply lookup_lt_Some in Hj. rewrite length_take_le in Hj by lia.
      rewrite replacement_other; [done | simpl; fold i; lia].
    + simpl. fold i. rewrite <- Hp, decide_True by done. by rewrite Hbo.
    + etrans; [symmetry; apply (flat_imap_singletons (S (0 + i))) |].
      apply flat_imap_ext. intros j y _.
      rewrite replacement_other by (fold i; lia).
      by rewrite (replacement_above ops id i) by (done || lia).
  - rewrite IH; [| done | eapply desc_below_mono; [| done]; lia].
    apply flat_imap_ext. intros j y _. change (0 + j) with j.
    destruct (decide (i = j)) as [<- | Hne].
    + assert (replacement (bo :: ops) id i = None) as ->.
      { unfold i. rewrite <- Hp. by rewrite replacement_head. }
      by rewrite (replacement_above ops id i) by (done || lia).
    + by rewrite replacement_other.
Qed.

(** ** The tree: splices of different parents do not disturb each other *)

Lemma apply_entry_html_only items bo :
  html_only items → (λ c, apply_entry c bo) <$> items = items.
Proof.
  induction 1 as [|n items [v ->] _ IH]; [done |]. cbn [fmap list_fmap].
  fold (fmap (M := list) (λ c, apply_entry c bo) items). rewrite IH. f_equal.
  unfold apply_entry. by destruct (snd bo).
Qed.

Lemma apply_entries_html_only items pl :
  html_only items → (λ c, foldl apply_entry c pl) <$> items = items.
Proof.
  intros Hh. induction pl as [|bo pl IH]; simpl.
  - by rewrite list_fmap_id.
  - rewrite <- IH at 2. rewrite <- (apply_entry_html_only items bo Hh) at 2.
    by rewrite <- list_fmap_compose.
Qed.

Lemma html_entries_cons bo pl : html_entries (bo :: pl) → html_entries pl.
Proof. intros H b items Hin. apply (H b items). by right. Qed.

Lemma html_entries_filter (P : block * option (list node) → Prop)
    `{∀ x, Decision (P x)} pl :
  html_entries pl → html_entries (filter P pl).
Proof.
  intros Hh b items Hin. apply list_elem_of_filter in Hin as [_ Hin]. by eapply Hh.
Qed.

Lemma apply_entries_Parent pl id ty cs :
  html_entries pl →
  foldl apply_entry (Parent id ty cs) pl
  = Parent id ty
      (foldl local_step ((λ c, foldl apply_entry c (entries_off id pl)) <$> cs)
             (entries_of id pl)).
Proof.
  revert cs. induction pl as [|bo pl IH]; intros cs Hh.
  { simpl. by rewrite list_fmap_id. }
  pose proof (html_entries_cons _ _ Hh) as Hh'.
  unfold entries_of, entries_off. rewrite !filter_cons. cbn [foldl].
  destruct bo as [b o]. cbn [fst snd].
  destruct (decide (parent b = id)) as [Hp | Hp].
  - rewrite (decide_False (P := parent b ≠ id)) by by intros ?.
    cbn [foldl]. unfold local_step at 2, apply_entry at 2. cbn [fst snd].
    destruct o as [items|]; [| by apply IH].
    assert (html_only items) as Hitems by (apply (Hh b); by left).
    simpl. rewrite decide_True by done. rewrite IH by done.
    f_equal. f_equal. rewrite splice_fmap.
    by rewrite (apply_entries_html_only items _ Hitems).
  - rewrite (decide_True (P := parent b ≠ id)) by done.
    unfold apply_entry at 2. cbn [fst snd].
    destruct o as [items|].
    + simpl. rewrite decide_False by by intros ?. rewrite IH by done.
      f_equal. f_equal. rewrite <- list_fmap_compose. done.
    + rewrite IH by done. done.
Qed.

Lemma in_range_Parent p i id ty cs :
  in_range p i (Parent id ty cs)
  ↔ (id = p → i < length cs) ∧ Forall (in_range p i) cs.
Proof.
  simpl. apply and_iff_compat_l.
  induction cs as [|c cs IH].
  - split; [intros _; constructor | done].
  - rewrite Forall_cons, <- IH. done.
Qed.

Lemma elem_of_ids_child cs j c p i :
  cs !! j = Some c → p ∈ ids c → p ∈ flat_imap (λ _ c, ids c) i cs.
Proof. intros Hj Hp. apply elem_of_flat_imap. by exists j, c. Qed.

Lemma NoDup_ids_Parent id ty cs :
  NoDup (ids (Parent id ty cs)) →
  (∀ j c, cs !! j = Some c → (id ∉ ids c) ∧ NoDup (ids c))
  ∧ (∀ j j' c c' p, j ≠ j' → cs !! j = Some c → cs !! j' = Some c' →
       p ∈ ids c → p ∉ ids c').
Proof.
  simpl. intros [Hid Hnd]%NoDup_cons.
  assert (∀ i0 l, NoDup (flat_imap (λ _ c, ids c) i0 l) →
            (∀ j c, l !! j = Some c → NoDup (ids c))
            ∧ (∀ j j' c c' p, j < j' → l !! j = Some c → l !! j' = Some c' →
                 p ∈ ids c → p ∉ ids c')) as Haux.
  { intros i0 l. revert i0. induction l as [|x l IH]; intros i0; simpl.
    - intros _. split; [intros j c Hj | intros j j' c c' p _ Hj];
        by rewrite lookup_nil in Hj.
    - intros (Hx & Hdis & Hl)%NoDup_app. destruct (IH _ Hl) as [IH1 IH2].
      split.
      + intros [|j] c Hj; simpl in Hj; [by injection Hj as <- | by eapply IH1].
      + intros [|j] [|j'] c c' p Hlt Hj Hj' Hp; simpl in Hj, Hj'; try lia.
        * injection Hj as <-. intros Hp'. apply (Hdis p Hp).
          by eapply elem_of_ids_child.
        * apply (IH2 j j' c c' p); [lia | done..]. }
  destruct (Haux _ _ Hnd) as [H1 H2]. split.
  - intros j c Hj. split; [| by eapply H1].
    intros Hin. apply Hid. by eapply elem_of_ids_child.
  - intros j j' c c' p Hne Hj Hj' Hp Hp'.
    destruct (decide (j < j')).
    + by eapply (H2 j j' c c' p).
    + eapply (H2 j' j c' c p); [lia | done..].
Qed.

Lemma expected_tree_ext f g n :
  (∀ p i, p ∈ ids n → f p i = g p i) →
  expected_tree f n = expected_tree g n.
Proof.
  induction n as [c|v|ty v|id ty cs IH] using node_induction; [done.. |].
  intros H. simpl. f_equal. apply flat_imap_ext. intros j c Hj.
  rewrite (H id); [| simpl; by left]. destruct (g id (0 + j)); [done |].
  f_equal. apply (proj1 (Forall_lookup _ _) IH j c Hj).
  intros p i Hp. apply H. simpl. right. by eapply elem_of_ids_child.
Qed.

Lemma replacement_entries_of pl id j :
  replacement (entries_of id pl) id j = replacement pl id j.
Proof.
  unfold entries_of. induction pl as [|bo pl IH]; [done |].
  rewrite filter_cons. simpl. destruct (decide (parent bo.1 = id)) as [Hp | Hp].
  - simpl. by rewrite IH.
  - rewrite IH. rewrite decide_False; [done |]. by intros [? _].
Qed.

Lemma replacement_entries_off pl id p j :
  p ≠ id → replacement (entries_off id pl) p j = replacement pl p j.
Proof.
  intros Hne. unfold entries_off. induction pl as [|bo pl IH]; [done |].
  rewrite filter_cons. simpl. destruct (decide (parent bo.1 ≠ id)) as [Hp | Hp].
  - simpl. by rewrite IH.
  - rewrite IH. rewrite decide_False; [done |]. intros [? _].
    apply Hp. congruence.
Qed.

Lemma entries_of_off id' id pl :
  entries_of id' (entries_off id pl)
  = if decide (id' = id) then [] else entries_of id' pl.
Proof.
  unfold entries_of, entries_off. induction pl as [|bo pl IH].
  { by destruct (decide (id' = id)). }
  rewrite !filter_cons. destruct (decide (parent bo.1 ≠ id)) as [Hp | Hp].
  - rewrite filter_cons, IH.
    destruct (decide (id' = id)) as [-> | Hne].
    + by rewrite decide_False.
    + done.
  - rewrite IH. destruct (decide (id' = id)) as [-> | Hne]; [done |].
    rewrite decide_False; [done |]. intros Heq. apply Hp. congruence.
Qed.

Lemma desc_per_parent_off id pl :
  desc_per_parent pl → desc_per_parent (entries_off id pl).
Proof.
  intros Hd id'. rewrite entries_of_off.
  destruct (decide (id' = id)); [by exists 0 | apply Hd].
Qed.

Lemma desc_below_bound n m ks :
  desc_below n ks → Forall (λ i, i < m) ks → desc_below m ks.
Proof.
  destruct ks as [|i ks]; simpl; [done |].
  intros [_ Hd] [Hi _]%Forall_cons. done.
Qed.

Lemma apply_entries_leaf n pl :
  (∀ id ty cs, n ≠ Parent id ty cs) → foldl apply_entry n pl = n.
Proof.
  intros Hn. induction pl as [|bo pl IH]; simpl; [done |].
  assert (apply_entry n bo = n) as ->; [| done].
  unfold apply_entry. destruct (snd bo); [| done].
  destruct n; try done. by destruct (Hn id type children).
Qed.

(** The splices of a whole plan, in its order, give the tree that the plan
    describes by structure. *)
Lemma apply_entries_expected n pl :
  html_entries pl → desc_per_parent pl →
  Forall (λ bo, in_range (parent (fst bo)) (index (fst bo)) n) pl →
  NoDup (ids n) →
  foldl apply_entry n pl = expected_tree (replacement pl) n.
Proof.
  revert pl.
  induction n as [c|v|ty v|id ty cs IH] using node_induction;
    intros pl Hh Hd Hr Hnd; [by apply apply_entries_leaf.. |].
  rewrite apply_entries_Parent by done.
  destruct (NoDup_ids_Parent _ _ _ Hnd) as [Hkids _].
  rewrite (local_fold_spec id).
  - simpl. f_equal. rewrite flat_imap_fmap. apply flat_imap_ext.
    intros j c Hj. rewrite replacement_entries_of.
    destruct (replacement pl id (0 + j)); [done |]. f_equal.
    destruct (Hkids j c Hj) as [Hid Hndc].
    rewrite (proj1 (Forall_lookup _ _) IH j c Hj).
    + apply expected_tree_ext. intros p i Hp.
      apply replacement_entries_off. by intros ->.
    + by apply html_entries_filter.
    + by apply desc_per_parent_off.
    + unfold entries_off. apply Forall_forall.
      intros bo [_ Hin]%list_elem_of_filter.
      apply (proj1 (Forall_forall _ _) Hr) in Hin.
      apply in_range_Parent in Hin as [_ Hin].
      by apply (proj1 (Forall_lookup _ _) Hin j c).
    + done.
  - unfold entries_of. apply Forall_forall. by intros bo [? _]%list_elem_of_filter.
  - destruct (Hd id) as [n Hn]. eapply desc_below_bound; [exact Hn |].
    unfold indices, entries_of. apply Forall_fmap, Forall_forall.
    intros bo [Hp Hin]%list_elem_of_filter. simpl.
    rewrite length_fmap.
    apply (proj1 (Forall_forall _ _) Hr) in Hin.
    apply in_range_Parent in Hin as [Hin _]. by apply Hin.
Qed.

(** ** Discovery: what [visit] collects from a well-formed tree *)

Lemma blocks_at_Parent pos id ty cs :
  blocks_at pos (Parent id ty cs)
  = flat_imap (λ i c, blocks_at (Some (i, id)) c) 0 cs.
Proof. unfold blocks_at. simpl. by rewrite omap_flat_imap. Qed.

Lemma collect_blocks_at t : collect t = blocks_at None t.
Proof. reflexivity. Qed.

Lemma code_at_Parent p i k id ty cs :
  code_at p i k (Parent id ty cs)
  ↔ (id = p → cs !! i = Some (Code k)) ∧ Forall (code_at p i k) cs.
Proof.
  simpl. apply and_iff_compat_l.
  induction cs as [|c cs IH].
  - split; [intros _; constructor | done].
  - rewrite Forall_cons, <- IH. done.
Qed.

Lemma code_at_in_range p i k n : code_at p i k n → in_range p i n.
Proof.
  induction n as [c|v|ty v|id ty cs IH] using node_induction; [done.. |].
  rewrite code_at_Parent, in_range_Parent. intros [H1 H2]. split.
  - intros Hid. by apply lookup_lt_Some in H1.
  - apply Forall_lookup. intros j c Hj.
    apply (proj1 (Forall_lookup _ _) IH j c Hj).
    by apply (proj1 (Forall_lookup _ _) H2 j c).
Qed.

Lemma not_in_ids_code_at p i k n : p ∉ ids n → code_at p i k n.
Proof.
  induction n as [c|v|ty v|id ty cs IH] using node_induction; [done.. |].
  intros Hp. apply code_at_Parent. split.
  - intros ->. destruct Hp. simpl. by left.
  - apply Forall_lookup. intros j c Hj.
    apply (proj1 (Forall_lookup _ _) IH j c Hj).
    intros Hin. apply Hp. simpl. right. by eapply elem_of_ids_child.
Qed.

(** A collected block is the node itself, recorded with the position it was
    found at, or it lies below a parent of the tree, at the index it was
    recorded with. *)
Lemma blocks_at_shape n pos b :
  NoDup (ids n) → b ∈ blocks_at pos n →
  (pos = Some (index b, parent b) ∧ n = Code (node_of b))
  ∨ (parent b ∈ ids n ∧ code_at (parent b) (index b) (node_of b) n).
Proof.
  revert pos b.
  induction n as [c|v|ty v|id ty cs IH] using node_induction; intros pos b Hnd.
  - unfold blocks_at. simpl. destruct pos as [[i p]|]; simpl.
    + intros ->%list_elem_of_singleton. by left.
    + by intros ?%elem_of_nil.
  - by intros ?%elem_of_nil.
  - by intros ?%elem_of_nil.
  - rewrite blocks_at_Parent. intros (j & c & Hj & Hb)%elem_of_flat_imap.
    destruct (NoDup_ids_Parent _ _ _ Hnd) as [Hkids Hsib].
    destruct (Hkids j c Hj) as [Hid Hndc]. right.
    destruct (proj1 (Forall_lookup _ _) IH j c Hj _ b Hndc Hb)
      as [[[= -> ->] ->] | [Hp Hr]].
    + split; [simpl; by left |]. apply code_at_Parent. split.
      * intros _. done.
      * apply Forall_lookup. intros j' c' Hj'.
        apply not_in_ids_code_at. by apply (Hkids j' c').
    + split; [simpl; right; by eapply elem_of_ids_child |].
      apply code_at_Parent. split.
      * intros ->. done.
      * apply Forall_lookup. intros j' c' Hj'.
        destruct (decide (j = j')) as [<- | Hne]; [by simplify_eq |].
        apply not_in_ids_code_at. by apply (Hsib j j' c c' (parent b)).
Qed.

Lemma collect_code_at t b :
  well_formed t → b ∈ collect t →
  code_at (parent b) (index b) (node_of b) t.
Proof.
  intros Hwf Hb. rewrite collect_blocks_at in Hb.
  by destruct (blocks_at_shape _ _ _ Hwf Hb) as [[[=] _] | [_ ?]].
Qed.

Lemma NoDup_positions n pos :
  NoDup (ids n) → NoDup (position <$> blocks_at pos n).
Proof.
  revert pos.
  induction n as [c|v|ty v|id ty cs IH] using node_induction; intros pos Hnd.
  - unfold blocks_at. simpl. destruct pos as [[i p]|]; simpl.
    + apply NoDup_singleton.
    + constructor.
  - constructor.
  - constructor.
  - rewrite blocks_at_Parent, flat_imap_fmap_out.
    destruct (NoDup_ids_Parent _ _ _ Hnd) as [Hkids Hsib].
    apply NoDup_flat_imap.
    + intros j c Hj. destruct (Hkids j c Hj) as [_ Hndc].
      by apply (proj1 (Forall_lookup _ _) IH j c Hj).
    + intros j j' c c' y Hlt Hj Hj'
        (b & -> & Hb)%list_elem_of_fmap (b' & Heq & Hb')%list_elem_of_fmap.
      destruct (Hkids j c Hj) as [Hid Hndc].
      destruct (Hkids j' c' Hj') as [Hid' Hndc'].
      injection Heq as Hpar Hidx.
      destruct (blocks_at_shape c _ b Hndc Hb) as [[[= H1 H2] _] | [Hp _]];
        destruct (blocks_at_shape c' _ b' Hndc' Hb') as [[[= H1' H2'] _] | [Hp' _]].
      * lia.
      * apply Hid'. congruence.
      * apply Hid. congruence.
      * apply (Hsib j j' c c' (parent b)); [lia | done | done | done |].
        by rewrite Hpar.
Qed.

(** ** The sort *)

Lemma insert_desc_perm b l : insert_desc b l ≡ₚ b :: l.
Proof.
  induction l as [|x l IH]; simpl; [done |].
  destruct (index x <=? index b)%nat; [done |]. rewrite IH. apply Permutation_swap.
Qed.

Lemma sort_desc_perm l : sort_desc l ≡ₚ l.
Proof.
  induction l as [|b l IH]; simpl; [done |].
  by rewrite insert_desc_perm, IH.
Qed.

Lemma insert_desc_sorted b l :
  StronglySorted higher_first l → StronglySorted higher_first (insert_desc b l).
Proof.
  induction 1 as [|x l Hl IH Hx]; simpl.
  - repeat constructor.
  - destruct (Nat.leb_spec (index x) (index b)) as [Hle | Hgt].
    + constructor; [by constructor |]. constructor; [done |].
      eapply Forall_impl; [exact Hx |]. unfold higher_first. intros; lia.
    + constructor; [done |]. rewrite insert_desc_perm.
      constructor; [unfold higher_first; lia | done].
Qed.

Lemma sort_desc_sorted l : StronglySorted higher_first (sort_desc l).
Proof.
  induction l as [|b l IH]; simpl; [constructor | by apply insert_desc_sorted].
Qed.

Lemma StronglySorted_filter {A} (R : relation A) (P : A → Prop)
    `{∀ x, Decision (P x)} l :
  StronglySorted R l → StronglySorted R (filter P l).
Proof.
  induction 1 as [|x l Hl IH Hx]; [constructor |].
  rewrite filter_cons. destruct (decide (P x)); [| done].
  constructor; [done |]. apply Forall_forall.
  intros y [_ Hy]%list_elem_of_filter. by apply (proj1 (Forall_forall _ _) Hx).
Qed.

Lemma NoDup_fmap_filter {A B} (f : A → B) (P : A → Prop)
    `{∀ x, Decision (P x)} l :
  NoDup (f <$> l) → NoDup (f <$> filter P l).
Proof.
  induction l as [|x l IH]; [done |]. rewrite fmap_cons, filter_cons.
  intros [Hx Hl]%NoDup_cons. destruct (decide (P x)); [| by apply IH].
  rewrite fmap_cons. apply NoDup_cons. split; [| by apply IH].
  intros (y & Hy & [_ Hin]%list_elem_of_filter)%list_elem_of_fmap.
  apply Hx. rewrite Hy. by apply list_elem_of_fmap_2.
Qed.

Lemma NoDup_indices_same_parent id l :
  Forall (λ b, parent b = id) l → NoDup (position <$> l) → NoDup (index <$> l).
Proof.
  induction 1 as [|x l Hx Hl IH]; [intros; constructor |]. rewrite !fmap_cons.
  intros [Hnx Hnd]%NoDup_cons. apply NoDup_cons. split; [| by apply IH].
  intros (y & Hy & Hin)%list_elem_of_fmap. apply Hnx.
  apply list_elem_of_fmap. exists y. split; [| done].
  unfold position. f_equal; [| done].
  rewrite Hx. symmetry. by apply (proj1 (Forall_forall _ _) Hl).
Qed.

Lemma sorted_NoDup_desc_below l :
  StronglySorted higher_first l → NoDup (index <$> l) →
  ∃ n, desc_below n (index <$> l).
Proof.
  induction 1 as [|x l Hl IH Hx]; [by exists 0 |].
  rewrite fmap_cons. intros [Hnx Hnd]%NoDup_cons.
  destruct (IH Hnd) as [n Hn]. exists (S (index x)). simpl. split; [lia |].
  eapply desc_below_bound; [exact Hn |]. apply Forall_fmap, Forall_forall.
  intros y Hy. simpl.
  assert (index y ≠ index x).
  { intros Heq. apply Hnx. rewrite <- Heq. by apply list_elem_of_fmap_2. }
  apply (proj1 (Forall_forall _ _) Hx) in Hy. unfold higher_first in Hy. lia.
Qed.

(** For each parent, the sorted blocks come with strictly falling indices. *)
Lemma sort_desc_per_parent id bs :
  NoDup (position <$> bs) →
  ∃ n, desc_below n (index <$> filter (λ b, parent b = id) (sort_desc bs)).
Proof.
  intros Hnd. apply sorted_NoDup_desc_below.
  - apply StronglySorted_filter, sort_desc_sorted.
  - apply (NoDup_indices_same_parent id).
    + apply Forall_forall. by intros b [? _]%list_elem_of_filter.
    + apply NoDup_fmap_filter. by rewrite sort_desc_perm.
Qed.

(** ** The loop over the blocks *)

Section process_facts.
Context (theme : string)
        (globalLineNumbers : option lineNumbersOpt)
        (codeToHighlightHtml : string → RenderOptions → option RenderResult).

Local Abbreviation attempt_ := (attempt theme globalLineNumbers codeToHighlightHtml).
Local Abbreviation process_block_ :=
  (process_block theme globalLineNumbers codeToHighlightHtml).
Local Abbreviation plan_ := (plan theme globalLineNumbers codeToHighlightHtml).

Lemma attempt_items b e items :
  fst (attempt_ b e) = Some items → ∃ r, items = html_nodes r.
Proof using Type.
  unfold attempt. destruct (parseMetaString _); [| done].
  destruct (codeToHighlightHtml _ _) as [r|]; [| done].
  intros [= <-]. by exists r.
Qed.

Lemma html_nodes_html_only r : html_only (html_nodes r).
Proof using Type. repeat constructor; by eexists. Qed.

Lemma plan_fst bs e : fst <$> plan_ bs e = bs.
Proof using Type.
  revert e. induction bs as [|b bs IH]; intros e; simpl; [done |].
  by rewrite IH.
Qed.

Lemma plan_entries bs e b o :
  (b, o) ∈ plan_ bs e → b ∈ bs ∧ (o = None ∨ ∃ r, o = Some (html_nodes r)).
Proof using Type.
  revert e. induction bs as [|b' bs IH]; intros e; simpl.
  - by intros ?%elem_of_nil.
  - intros [[= -> ->] | Hin]%elem_of_cons.
    + split; [by left |].
      destruct (fst (attempt_ b' e)) as [items|] eqn:Ha; [| by left].
      right. destruct (attempt_items _ _ _ Ha) as [r ->]. by exists r.
    + destruct (IH _ Hin) as [? ?]. split; [by right | done].
Qed.

Lemma plan_html_entries bs e : html_entries (plan_ bs e).
Proof using Type.
  intros b items [_ [? | [r [= ->]]]]%plan_entries; [done |].
  apply html_nodes_html_only.
Qed.

Lemma plan_indices id bs e :
  indices (entries_of id (plan_ bs e))
  = index <$> filter (λ b, parent b = id) bs.
Proof using Type.
  unfold indices, entries_of. revert e.
  induction bs as [|b bs IH]; intros e; [done |].
  cbn [plan]. rewrite !filter_cons. cbn [fst].
  destruct (decide (parent b = id)); [| by apply IH].
  rewrite !fmap_cons. f_equal. apply IH.
Qed.

Lemma process_blocks_plan t e bs :
  foldl process_block_ (t, e) bs
  = (foldl apply_entry t (plan_ bs e),
     foldl (λ e b, snd (attempt_ b e)) e bs).
Proof using Type.
  revert t e. induction bs as [|b bs IH]; intros t e; [done |].
  cbn [foldl plan]. unfold process_block at 2.
  cbn [fst snd]. destruct (attempt_ b e) as [o e1] eqn:Ha. cbn [fst snd].
  rewrite IH. f_equal.
Qed.

(** The loop over the sorted blocks of a well-formed tree leaves the tree
    that its plan describes. *)
Lemma process_blocks_expected t e :
  well_formed t →
  let pl := plan_ (sort_desc (collect t)) e in
  fst (foldl process_block_ (t, e) (sort_desc (collect t)))
  = expected_tree (replacement pl) t.
Proof using Type.
  intros Hwf pl. rewrite process_blocks_plan. cbn [fst].
  apply apply_entries_expected; [apply plan_html_entries | | | done].
  - intros id. unfold pl. rewrite plan_indices.
    apply sort_desc_per_parent. rewrite collect_blocks_at.
    by apply NoDup_positions.
  - apply Forall_forall. intros [b o] [Hb _]%plan_entries. cbn [fst].
    rewrite sort_desc_perm in Hb.
    eapply code_at_in_range. by apply collect_code_at.
Qed.

Lemma replacement_own pl b o :
  NoDup ((λ bo, position (fst bo)) <$> pl) → (b, o) ∈ pl →
  replacement pl (parent b) (index b) = o.
Proof using Type.
  induction pl as [|bo pl IH]; [by intros _ ?%elem_of_nil |].
  rewrite fmap_cons. intros [Hbo Hnd]%NoDup_cons [<- | Hin]%elem_of_cons.
  - apply replacement_head.
  - simpl. rewrite decide_False; [by apply IH |].
    intros [Hp Hi]. apply Hbo. apply list_elem_of_fmap.
    exists (b, o). split; [| done]. unfold position. cbn [fst]. congruence.
Qed.

Lemma plan_positions_NoDup t e :
  well_formed t →
  NoDup ((λ bo, position (fst bo)) <$> plan_ (sort_desc (collect t)) e).
Proof using Type.
  intros Hwf.
  assert (∀ pl : list (block * option (list node)),
            (λ bo, position (fst bo)) <$> pl = position <$> (fst <$> pl)) as ->
    by (intros; by rewrite <- list_fmap_compose).
  rewrite plan_fst, sort_desc_perm.
  rewrite collect_blocks_at. by apply NoDup_positions.
Qed.
End process_facts.

(** ** The history: what each phase of a call adds to it *)

Lemma set_add_NoDup x l : NoDup l → NoDup (set_add x l).
Proof.
  intros Hl. unfold set_add. destruct (decide (x ∈ l)); [done |].
  apply NoDup_app. split_and!; [done | | apply NoDup_singleton].
  intros y Hy ->%list_elem_of_singleton. done.
Qed.

Lemma elem_of_set_add x y l : y ∈ set_add x l ↔ y = x ∨ y ∈ l.
Proof.
  unfold set_add. destruct (decide (x ∈ l)).
  - split; [by right | by intros [-> | ?]].
  - rewrite elem_of_app, list_elem_of_singleton. tauto.
Qed.

Lemma detect_NoDup acc vs : NoDup acc → NoDup (foldl detect acc vs).
Proof.
  revert acc. induction vs as [|v vs IH]; intros acc Hacc; simpl; [done |].
  apply IH. unfold detect. destruct (lang (fst v)) as [l|]; [| done].
  destruct (bool_decide _); [by apply set_add_NoDup | done].
Qed.

Lemma detected_languages_NoDup t : NoDup (detected_languages t).
Proof. apply detect_NoDup. constructor. Qed.

Lemma elem_of_detect acc vs l :
  l ∈ foldl detect acc vs
  ↔ l ∈ acc ∨ ∃ v, v ∈ vs ∧ lang (fst v) = Some l
                   ∧ l ≠ ""%string ∧ l ≠ "text"%string.
Proof.
  revert acc. induction vs as [|v vs IH]; intros acc; simpl.
  - split; [by left | intros [? | (v & ?%elem_of_nil & _)]; done].
  - rewrite IH. unfold detect.
    destruct (lang (fst v)) as [l'|] eqn:Hl.
    + destruct (bool_decide_reflect (l' ≠ ""%string ∧ l' ≠ "text"%string))
        as [[H1 H2] | Hno].
      * rewrite elem_of_set_add. split.
        -- intros [[-> | ?] | (v' & ? & ?)]; [right | by left | right].
           ++ exists v. split_and!; [by left | done..].
           ++ exists v'. split; [by right | done].
        -- intros [? | (v' & [-> | ?]%elem_of_cons & Hv & ?)];
             [by left; right | | right; by exists v'].
           left. left. congruence.
      * split.
        -- intros [? | (v' & ? & ?)]; [by left | right].
           exists v'. split; [by right | done].
        -- intros [? | (v' & [-> | ?]%elem_of_cons & Hv & ? & ?)];
             [by left | | right; by exists v'].
           destruct Hno. split; congruence.
    + split.
      * intros [? | (v' & ? & ?)]; [by left | right].
        exists v'. split; [by right | done].
      * intros [? | (v' & [-> | ?]%elem_of_cons & Hv & ?)];
          [by left | congruence | right; by exists v'].
Qed.

(** The first pass finds exactly the languages that some code node names,
    the empty tag and [text] apart. *)
Lemma elem_of_detected_languages t l :
  l ∈ detected_languages t
  ↔ references t l ∧ l ≠ ""%string ∧ l ≠ "text"%string.
Proof.
  unfold detected_languages, references. rewrite elem_of_detect. split.
  - intros [?%elem_of_nil | (v & ? & ? & ? & ?)]; [done |]. eauto.
  - intros ((v & ? & ?) & ? & ?). right. eauto.
Qed.

Lemma load_count_app l evs1 evs2 :
  load_count l (evs1 ++ evs2) = load_count l evs1 + load_count l evs2.
Proof. unfold load_count. by rewrite filter_app, length_app. Qed.

Lemma load_count_0 l evs :
  (∀ ev, ev ∈ evs → ¬ is_load_of l ev) → load_count l evs = 0.
Proof.
  intros H. unfold load_count.
  induction evs as [|ev evs IH]; [done |]. rewrite filter_cons.
  destruct (decide (is_load_of l ev)) as [Hl | Hl].
  - destruct (H ev); [by left | done].
  - apply IH. intros ev' Hin. apply H. by right.
Qed.

Lemma load_count_pos l evs ev :
  ev ∈ evs → is_load_of l ev → 0 < load_count l evs.
Proof.
  intros Hin Hl. unfold load_count.
  assert (ev ∈ filter (is_load_of l) evs) as Hf by by apply list_elem_of_filter.
  destruct (filter (is_load_of l) evs); [by apply elem_of_nil in Hf | simpl; lia].
Qed.

Lemma load_count_both l evs :
  EvLoad l true ∈ evs → EvLoad l false ∈ evs → 2 ≤ load_count l evs.
Proof.
  intros (pre & post & ->)%list_elem_of_split Hf.
  change (EvLoad l true :: post) with ([EvLoad l true] ++ post).
  rewrite !load_count_app.
  assert (load_count l [EvLoad l true] = 1) as ->.
  { unfold load_count. rewrite filter_cons, decide_True; [done | by left]. }
  apply elem_of_app in Hf as [Hf | [Hf | Hf]%elem_of_cons]; [| done |].
  - pose proof (load_count_pos l pre _ Hf (or_intror eq_refl)). lia.
  - pose proof (load_count_pos l post _ Hf (or_intror eq_refl)). lia.
Qed.

Lemma block_event_not_load l ev : block_event ev → ¬ is_load_of l ev.
Proof. by intros Hb [-> | ->]. Qed.

Lemma load_count_once_no_reload evs :
  (∀ l, load_count l evs ≤ 1) → no_reload evs.
Proof.
  intros H pre post l -> (ev & Hin & Hl). specialize (H l).
  rewrite load_count_app in H. unfold load_count at 2 in H.
  rewrite filter_cons in H. rewrite decide_True in H by by left.
  pose proof (load_count_pos l post ev Hin Hl). simpl in H.
  fold (load_count l post) in H. lia.
Qed.

Section call_facts.
Context (theme : string)
        (globalLineNumbers : option lineNumbersOpt)
        (loadLanguages : option (nat → bool))
        (bundled : string → bool)
        (loadGrammar : nat → string → bool)
        (codeToHighlightHtml : string → RenderOptions → option RenderResult).

Local Abbreviation run_hook_ := (run_hook loadLanguages).
Local Abbreviation load_language_ := (load_language bundled loadGrammar).
Local Abbreviation load_languages_ := (load_languages bundled loadGrammar).
Local Abbreviation attempt_ :=
  (attempt theme globalLineNumbers codeToHighlightHtml).
Local Abbreviation plan_ := (plan theme globalLineNumbers codeToHighlightHtml).
Local Abbreviation transform_ :=
  (transform theme globalLineNumbers loadLanguages bundled loadGrammar
             codeToHighlightHtml).

Lemma run_hook_spec e :
  trace (snd (run_hook_ e))
  = trace e ++ (if hook_due loadLanguages e then [EvHook] else [])
  ∧ loadedLanguages (snd (run_hook_ e)) = loadedLanguages e
  ∧ blockCounter (snd (run_hook_ e)) = blockCounter e
  ∧ (fst (run_hook_ e) = false → hook_due loadLanguages e = true
                                 ∧ languagesLoaded (snd (run_hook_ e)) = false)
  ∧ (fst (run_hook_ e) = true →
       languagesLoaded (snd (run_hook_ e))
       = match loadLanguages with
         | Some _ => true
         | None => languagesLoaded e
         end).
Proof using Type.
  unfold run_hook, hook_due. destruct loadLanguages as [hook|]; simpl.
  - destruct (languagesLoaded e) eqn:Hl; simpl.
    + rewrite app_nil_r. by split_and!.
    + destruct (hook (length (trace e))); simpl; by split_and!.
  - rewrite app_nil_r. by split_and!.
Qed.

Lemma load_language_cases e l :
  (load_language_ e l = e ∧ (l ∈ loadedLanguages e ∨ bundled l = false))
  ∨ ((l ∉ loadedLanguages e) ∧ bundled l = true ∧
     ∃ ok, trace (load_language_ e l)
           = trace e ++ EvLoad l ok :: (if ok then [] else [EvWarn l])
         ∧ loadedLanguages (load_language_ e l)
           = (if ok then {[ l ]} ∪ loadedLanguages e else loadedLanguages e)
         ∧ languagesLoaded (load_language_ e l) = languagesLoaded e
         ∧ blockCounter (load_language_ e l) = blockCounter e).
Proof using Type.
  unfold load_language. destruct (decide (l ∈ loadedLanguages e)); [left; auto |].
  destruct (bundled l) eqn:Hb; [| left; auto]. right. split_and!; [done.. |].
  exists (loadGrammar (length (trace e)) l).
  destruct (loadGrammar (length (trace e)) l); simpl; split_and!; try done.
  by rewrite <- app_assoc.
Qed.

Lemma load_languages_spec ls e :
  NoDup ls →
  let e' := load_languages_ ls e in
  ∃ lev, trace e' = trace e ++ lev
    ∧ languagesLoaded e' = languagesLoaded e
    ∧ blockCounter e' = blockCounter e
    ∧ loadedLanguages e ⊆ loadedLanguages e'
    ∧ (∀ l, l ∈ loadedLanguages e' →
            l ∈ loadedLanguages e ∨ EvLoad l true ∈ lev)
    ∧ Forall loader_event lev
    ∧ (∀ l, load_count l lev
            = if decide (l ∈ ls ∧ bundled l = true ∧ l ∉ loadedLanguages e)
              then 1 else 0)
    ∧ (∀ l, EvLoad l true ∈ lev → l ∈ loadedLanguages e').
Proof using Type.
  clear theme globalLineNumbers loadLanguages codeToHighlightHtml.
  revert e. induction ls as [|x ls IH]; intros e Hnd; cbn zeta.
  { exists []. rewrite app_nil_r. unfold load_languages. cbn [foldl].
    split_and!; [done | done | done | done | by left | constructor | |].
    - intros l. rewrite decide_False; [done |]. by intros [?%elem_of_nil _].
    - by intros l ?%elem_of_nil. }
  apply NoDup_cons in Hnd as [Hx Hnd]. unfold load_languages. cbn [foldl].
  fold (load_languages_ ls (load_language_ e x)).
  destruct (IH (load_language_ e x) Hnd)
    as (lev & Htr & Hfl & Hbc & Hsub & Hsup & Hall & Hcount & Hok).
  destruct (load_language_cases e x)
    as [[Heq Hwhy] | (Hnin & Hb & ok & Htr1 & Hc1 & Hfl1 & Hbc1)].
  - rewrite Heq in *. exists lev. split_and!; try done.
    + intros l. rewrite Hcount.
      destruct (decide (l = x)) as [-> | Hne].
      * rewrite !decide_False; [done | |].
        -- intros (_ & Hb & Hn). destruct Hwhy; [done | congruence].
        -- by intros [? _].
      * apply decide_ext. rewrite elem_of_cons. naive_solver.
  - exists (EvLoad x ok :: (if ok then [] else [EvWarn x]) ++ lev). split_and!.
    + rewrite Htr, Htr1, <- !app_assoc. done.
    + congruence.
    + congruence.
    + etrans; [| exact Hsub]. rewrite Hc1. destruct ok; set_solver.
    + intros l Hl. destruct (Hsup l Hl) as [Hl' | Hl'].
      * rewrite Hc1 in Hl'. destruct ok; [| by left].
        apply elem_of_union in Hl' as [->%elem_of_singleton | ?];
          [right; by left | by left].
      * right. apply elem_of_cons. right. apply elem_of_app. by right.
    + constructor; [done |]. apply Forall_app. split; [| done].
      destruct ok; repeat constructor.
    + intros l.
      change (EvLoad x ok :: (if ok then [] else [EvWarn x]) ++ lev)
        with ([EvLoad x ok] ++ ((if ok then [] else [EvWarn x]) ++ lev)).
      rewrite !load_count_app, Hcount.
      assert (load_count l (if ok then [] else [EvWarn x]) = 0) as ->.
      { apply load_count_0. intros ev Hev [-> | ->];
          destruct ok; set_solver. }
      destruct (decide (l = x)) as [-> | Hne].
      * assert (load_count x [EvLoad x ok] = 1) as ->.
        { unfold load_count. rewrite filter_cons, decide_True; [done |].
          destruct ok; [by left | by right]. }
        rewrite decide_False by by intros [? _].
        rewrite decide_True; [done |]. split_and!; [by left | done..].
      * assert (load_count l [EvLoad x ok] = 0) as ->.
        { apply load_count_0. intros ev ->%list_elem_of_singleton [? | ?];
            congruence. }
        simpl. apply decide_ext. rewrite elem_of_cons, Hc1.
        destruct ok; set_solver.
    + intros l [[= -> <-] | Hin]%elem_of_cons.
      * apply Hsub. rewrite Hc1. set_solver.
      * apply elem_of_app in Hin as [Hin | Hin]; [| by apply Hok].
        destruct ok; set_solver.
Qed.

Lemma attempt_spec b e :
  ∃ pev, trace (snd (attempt_ b e)) = trace e ++ pev
    ∧ Forall block_event pev
    ∧ loadedLanguages (snd (attempt_ b e)) = loadedLanguages e
    ∧ languagesLoaded (snd (attempt_ b e)) = languagesLoaded e
    ∧ (fst (attempt_ b e) = None → EvError (lang_or_text (node_of b)) ∈ pev).
Proof using Type.
  clear loadLanguages bundled loadGrammar.
  unfold attempt. destruct (parseMetaString _) as [o|].
  - destruct (codeToHighlightHtml _ _) as [r|]; simpl.
    + eexists [_]. split_and!; try done. repeat constructor.
    + eexists [_; _]. rewrite <- app_assoc. split_and!; try done.
      * repeat constructor.
      * intros _. set_solver.
  - simpl. eexists [_]. split_and!; try done.
    + repeat constructor.
    + intros _. set_solver.
Qed.

Lemma process_env_spec bs e :
  let e' := foldl (λ e b, snd (attempt_ b e)) e bs in
  ∃ pev, trace e' = trace e ++ pev
    ∧ Forall block_event pev
    ∧ loadedLanguages e' = loadedLanguages e
    ∧ languagesLoaded e' = languagesLoaded e
    ∧ (∀ b, (b, None) ∈ plan_ bs e →
            EvError (lang_or_text (node_of b)) ∈ pev).
Proof using Type.
  revert e. induction bs as [|b bs IH]; intros e; cbn zeta.
  { exists []. rewrite app_nil_r. split_and!; try done.
    by intros b ?%elem_of_nil. }
  cbn [foldl plan].
  destruct (attempt_spec b e) as (pev1 & Htr1 & Hall1 & Hc1 & Hf1 & Herr1).
  destruct (IH (snd (attempt_ b e))) as (pev & Htr & Hall & Hc & Hf & Herr).
  exists (pev1 ++ pev). split_and!.
  - by rewrite Htr, Htr1, <- app_assoc.
  - by apply Forall_app.
  - congruence.
  - congruence.
  - intros b' [[= -> Hnone] | Hin]%elem_of_cons; apply elem_of_app.
    + left. by apply Herr1.
    + right. by apply Herr.
Qed.

(** What one call adds to the history: the hook if it is due, then the
    events of the language pass, then those of the blocks. *)
Lemma transform_spec t e :
  let e' := snd (transform_ t e) in
  ∃ lev pev,
    trace e' = trace e ++ (if hook_due loadLanguages e then [EvHook] else [])
                       ++ lev ++ pev
    ∧ Forall loader_event lev ∧ Forall block_event pev
    ∧ loadedLanguages e ⊆ loadedLanguages e'
    ∧ (∀ l, load_count l lev
            = if decide (fst (run_hook_ e) = true ∧ l ∈ detected_languages t
                         ∧ bundled l = true ∧ l ∉ loadedLanguages e)
              then 1 else 0)
    ∧ (∀ l, l ∈ loadedLanguages e'
            ↔ l ∈ loadedLanguages e ∨ EvLoad l true ∈ lev)
    ∧ (fst (run_hook_ e) = true →
         ∀ b, (b, None) ∈ plan_ (sort_desc (collect t))
                            (prepare loadLanguages bundled loadGrammar t e) →
              EvError (lang_or_text (node_of b)) ∈ pev).
Proof using Type.
  cbn zeta. unfold transform, prepare.
  destruct (run_hook_spec e) as (Htr0 & Hc0 & _).
  destruct (run_hook_ e) as [[] e1] eqn:Hh; cbn [fst snd] in *.
  - destruct (load_languages_spec (detected_languages t) e1
                (detected_languages_NoDup t))
      as (lev & Htr1 & _ & _ & Hsub & Hsup & Hall1 & Hcount & Hok).
    cbn zeta in *. rewrite process_blocks_plan. cbn [snd].
    destruct (process_env_spec (sort_desc (collect t))
                (load_languages_ (detected_languages t) e1))
      as (pev & Htr2 & Hall2 & Hc2 & _ & Herr).
    cbn zeta in *. exists lev, pev. split_and!; try done.
    + by rewrite Htr2, Htr1, Htr0, <- !app_assoc.
    + rewrite Hc2, <- Hc0. done.
    + intros l. rewrite Hcount, Hc0. apply decide_ext. naive_solver.
    + intros l. rewrite Hc2, <- Hc0. split; [apply Hsup |].
      intros [Hl | Hl]; [by apply Hsub | by apply Hok].
  - exists [], []. rewrite !app_nil_r.
    split_and!; [done | constructor | constructor | by rewrite Hc0 | | | done].
    + intros l. rewrite decide_False; [done |]. by intros [? _].
    + intros l. rewrite Hc0. split; [by left |].
      by intros [? | ?%elem_of_nil].
Qed.
End call_facts.

(** ** Where the children of a parent end up *)

Lemma first_some_app {A B} (g : A → option B) l1 l2 :
  first_some g (l1 ++ l2)
  = match first_some g l1 with
    | Some r => Some r
    | None => first_some g l2
    end.
Proof.
  induction l1 as [|x l1 IH]; simpl; [done |]. by destruct (g x).
Qed.

Lemma first_some_None {A B} (g : A → option B) l :
  Forall (λ x, g x = None) l → first_some g l = None.
Proof. induction 1 as [|x l Hx _ IH]; simpl; [done |]. by rewrite Hx. Qed.

Lemma first_some_Some {A B} (g : A → option B) l r :
  first_some g l = Some r → ∃ x, x ∈ l ∧ g x = Some r.
Proof.
  induction l as [|x l IH]; simpl; [done |].
  destruct (g x) as [r'|] eqn:Hx.
  - intros [= ->]. exists x. split; [by left | done].
  - intros (y & ? & ?)%IH. exists y. split; [by right | done].
Qed.

Lemma first_some_is_Some {A B} (g : A → option B) l x :
  x ∈ l → is_Some (g x) → is_Some (first_some g l).
Proof.
  induction l as [|y l IH]; [by intros ?%elem_of_nil |].
  simpl. intros [-> | Hin]%elem_of_cons [r Hr].
  - rewrite Hr. by eexists.
  - destruct (g y); [by eexists |]. apply IH; [done | by eexists].
Qed.

Lemma children_of_html_only p items :
  html_only items → first_some (children_of p) items = None.
Proof.
  intros H. apply first_some_None. eapply Forall_impl; [exact H |].
  by intros n [v ->].
Qed.

Lemma children_of_ids p n : p ∈ ids n → is_Some (children_of p n).
Proof.
  induction n as [c|v|ty v|id ty cs IH] using node_induction;
    [by intros ?%elem_of_nil.. |].
  simpl. destruct (decide (id = p)) as [-> | Hne]; [by eexists |].
  intros [-> | (j & c & Hj & Hp)%elem_of_flat_imap]%elem_of_cons; [done |].
  apply (first_some_is_Some _ _ c); [by eapply list_elem_of_lookup_2 |].
  by apply (proj1 (Forall_lookup _ _) IH j c Hj).
Qed.

Lemma children_of_code_at p i k n cs :
  code_at p i k n → children_of p n = Some cs → cs !! i = Some (Code k).
Proof.
  revert cs.
  induction n as [c|v|ty v|id ty cs0 IH] using node_induction;
    intros cs; [done.. |].
  rewrite code_at_Parent. intros [H1 H2]. simpl.
  destruct (decide (id = p)) as [-> | Hne].
  - intros [= <-]. by apply H1.
  - intros (c & Hin & Hc)%first_some_Some.
    apply list_elem_of_lookup in Hin as [j Hj].
    apply (proj1 (Forall_lookup _ _) IH j c Hj); [| done].
    by apply (proj1 (Forall_lookup _ _) H2 j c).
Qed.

Lemma replaces_code_child f id ty cs j c :
  replaces_code f (Parent id ty cs) → cs !! j = Some c → replaces_code f c.
Proof.
  intros H Hj p i items Hf. destruct (H p i items Hf) as [? [k Hk]].
  split; [done |]. exists k. apply code_at_Parent in Hk as [_ Hk].
  by apply (proj1 (Forall_lookup _ _) Hk j c).
Qed.

Lemma children_of_expected f p n :
  replaces_code f n →
  children_of p (expected_tree f n) = flat_imap (image f p) 0 <$> children_of p n.
Proof.
  induction n as [c|v|ty v|id ty cs IH] using node_induction; [done.. |].
  intros Hf. simpl. destruct (decide (id = p)) as [-> | Hne]; [done |].
  assert (∀ l j0,
    (∀ j c, l !! j = Some c → cs !! (j0 + j) = Some c) →
    first_some (children_of p)
      (flat_imap (λ i c, match f id i with
                         | Some items => items
                         | None => [expected_tree f c]
                         end) j0 l)
    = flat_imap (image f p) 0 <$> first_some (children_of p) l) as Haux.
  { induction l as [|c l IHl]; intros j0 Hl; [done |].
    cbn [flat_imap first_some]. rewrite first_some_app.
    assert (cs !! j0 = Some c) as Hc.
    { specialize (Hl 0 c eq_refl). by rewrite Nat.add_0_r in Hl. }
    assert (first_some (children_of p) (flat_imap
              (λ i c, match f id i with
                      | Some items => items
                      | None => [expected_tree f c]
                      end) (S j0) l)
            = flat_imap (image f p) 0 <$> first_some (children_of p) l) as Hrest.
    { apply IHl. intros j c' Hj. specialize (Hl (S j) c' Hj).
      by replace (S j0 + j) with (j0 + S j) by lia. }
    destruct (f id j0) as [items|] eqn:Hfj.
    - destruct (Hf id j0 items Hfj) as [Hh [k Hk]].
      apply code_at_Parent in Hk as [Hk _]. rewrite Hc in Hk.
      specialize (Hk eq_refl). injection Hk as ->.
      by rewrite (children_of_html_only p items Hh).
    - cbn [first_some].
      rewrite (proj1 (Forall_lookup _ _) IH j0 c Hc)
        by by eapply replaces_code_child.
      by destruct (children_of p c). }
  apply Haux. intros j c Hj. done.
Qed.

Lemma flat_imap_middle {A B} (F : nat → A → list B) cs i c :
  cs !! i = Some c →
  flat_imap F 0 cs
  = flat_imap F 0 (take i cs) ++ F i c ++ flat_imap F (S i) (drop (S i) cs).
Proof.
  intros Hc. rewrite <- (take_drop_middle cs i c Hc) at 1.
  rewrite flat_imap_app. cbn [flat_imap].
  apply lookup_lt_Some in Hc. by rewrite length_take_le by lia.
Qed.

Lemma converted_before_S f p i :
  converted_before f p (S i)
  = converted_before f p i + (if decide (is_Some (f p i)) then 1 else 0).
Proof.
  unfold converted_before. rewrite seq_S, filter_app, length_app. f_equal.
  simpl. rewrite filter_cons. by destruct (decide (is_Some (f p i))).
Qed.

Lemma length_images f p cs i :
  i ≤ length cs →
  (∀ j items, f p j = Some items → length items = 3) →
  length (flat_imap (image f p) 0 (take i cs)) = final_index f p i.
Proof.
  intros Hi Hlen. unfold final_index. induction i as [|i IH]; [done |].
  destruct (lookup_lt_is_Some_2 cs i ltac:(lia)) as [c Hc].
  rewrite (take_S_r cs i c Hc), flat_imap_app, length_app, IH by lia.
  rewrite length_take_le by lia. cbn [flat_imap]. rewrite app_nil_r.
  rewrite converted_before_S. unfold image.
  destruct (f p (0 + i)) as [items|] eqn:Hf; simpl in Hf; rewrite Hf.
  - rewrite (Hlen i items Hf). rewrite decide_True by by eexists. lia.
  - rewrite decide_False by by intros [? [=]]. simpl. lia.
Qed.

(** In the expected tree, what stands for child [i] of [p] begins at
    [final_index]. *)
Lemma expected_position f t p cs i c :
  replaces_code f t →
  (∀ j items, f p j = Some items → length items = 3) →
  children_of p t = Some cs → cs !! i = Some c →
  ∃ cs', children_of p (expected_tree f t) = Some cs'
         ∧ take (length (image f p i c)) (drop (final_index f p i) cs')
           = image f p i c.
Proof.
  intros Hf Hlen Hcs Hc. rewrite children_of_expected, Hcs by done.
  eexists. split; [done |].
  rewrite (flat_imap_middle _ cs i c Hc).
  rewrite <- (length_images f p cs i) by (done || apply lookup_lt_Some in Hc; lia).
  rewrite drop_app_length. by rewrite take_app_length.
Qed.

Lemma replacement_Some pl p i items :
  replacement pl p i = Some items →
  ∃ b, (b, Some items) ∈ pl ∧ parent b = p ∧ index b = i.
Proof.
  induction pl as [|[b o] pl IH]; simpl; [done |].
  destruct (decide (parent b = p ∧ index b = i)) as [[Hp Hi] | Hne].
  - intros ->. exists b. split; [by left | done].
  - intros (b' & ? & ?)%IH. exists b'. split; [by right | done].
Qed.

(** ** One call of the transform *)

Section transform_facts.
Context (theme : string)
        (globalLineNumbers : option lineNumbersOpt)
        (loadLanguages : option (nat → bool))
        (bundled : string → bool)
        (loadGrammar : nat → string → bool)
        (codeToHighlightHtml : string → RenderOptions → option RenderResult).

Local Abbreviation attempt_ :=
  (attempt theme globalLineNumbers codeToHighlightHtml).
Local Abbreviation plan_ := (plan theme globalLineNumbers codeToHighlightHtml).
Local Abbreviation prepare_ := (prepare loadLanguages bundled loadGrammar).
Local Abbreviation transform_ :=
  (transform theme globalLineNumbers loadLanguages bundled loadGrammar
             codeToHighlightHtml).

Lemma transform_Ok t e t' e' :
  transform_ t e = (Ok t', e') →
  fst (run_hook loadLanguages e) = true
  ∧ t' = fst (foldl (process_block theme globalLineNumbers codeToHighlightHtml)
                (t, prepare_ t e) (sort_desc (collect t))).
Proof using Type.
  unfold transform, prepare.
  destruct (run_hook loadLanguages e) as [[] e1]; [| done].
  by intros [= <- _].
Qed.

Lemma transform_tree t e t' e' :
  well_formed t → transform_ t e = (Ok t', e') →
  t' = expected_tree (replacement (plan_ (sort_desc (collect t)) (prepare_ t e))) t.
Proof using Type.
  intros Hwf [_ ->]%transform_Ok. by apply process_blocks_expected.
Qed.

Lemma plan_replaces_code t e0 :
  well_formed t →
  let f := replacement (plan_ (sort_desc (collect t)) e0) in
  replaces_code f t ∧ ∀ p j items, f p j = Some items → length items = 3.
Proof using Type.
  intros Hwf f.
  assert (∀ p i items, f p i = Some items →
            ∃ b r, b ∈ collect t ∧ parent b = p ∧ index b = i
                   ∧ items = html_nodes r) as Hf.
  { intros p i items (b & Hin & Hp & Hi)%replacement_Some.
    apply plan_entries in Hin as [Hb [? | [r [= ->]]]]; [done |].
    rewrite sort_desc_perm in Hb. by exists b, r. }
  split.
  - intros p i items (b & r & Hb & <- & <- & ->)%Hf. split.
    + apply html_nodes_html_only.
    + exists (node_of b). by apply collect_code_at.
  - by intros p i items (b & r & _ & _ & _ & ->)%Hf.
Qed.

Lemma plan_entry_of bs e b :
  b ∈ bs → ∃ e_b, (b, fst (attempt_ b e_b)) ∈ plan_ bs e.
Proof using Type.
  revert e. induction bs as [|b' bs IH]; intros e; [by intros ?%elem_of_nil |].
  cbn [plan]. intros [-> | Hin]%elem_of_cons.
  - exists e. by left.
  - destruct (IH (snd (attempt_ b' e)) Hin) as [e_b ?]. exists e_b. by right.
Qed.

Lemma attempt_fails b e :
  (∀ ro, codeToHighlightHtml (value (node_of b)) ro = None) →
  fst (attempt_ b e) = None.
Proof using Type.
  intros H. unfold attempt. destruct (parseMetaString _); [| done].
  by rewrite H.
Qed.

Lemma attempt_succeeds b e :
  (∀ ro, is_Some (codeToHighlightHtml (value (node_of b)) ro)) →
  (∃ mo, parseMetaString (meta (node_of b)) = Ok mo) →
  is_Some (fst (attempt_ b e)).
Proof using Type.
  intros H [mo Hmo]. unfold attempt. rewrite Hmo.
  destruct (H (render_options theme globalLineNumbers
                 (lang_or_text (node_of b))
                 ("hl-" +:+ pretty (S (blockCounter e))) mo)) as [r Hr].
  rewrite Hr. by eexists.
Qed.

(** Where a collected block, or what replaced it, stands after the call. *)
Lemma transform_position t e t' e' b :
  well_formed t → transform_ t e = (Ok t', e') → b ∈ collect t →
  let f := replacement (plan_ (sort_desc (collect t)) (prepare_ t e)) in
  ∃ cs', children_of (parent b) t' = Some cs'
    ∧ take (length (image f (parent b) (index b) (Code (node_of b))))
           (drop (final_index f (parent b) (index b)) cs')
      = image f (parent b) (index b) (Code (node_of b)).
Proof using Type.
  intros Hwf Ht Hb f. rewrite (transform_tree t e t' e' Hwf Ht). fold f.
  destruct (plan_replaces_code t (prepare_ t e) Hwf) as [Hrc Hlen].
  rewrite collect_blocks_at in Hb.
  destruct (blocks_at_shape _ _ _ Hwf Hb) as [[[=] _] | [Hp Hc]].
  destruct (children_of_ids _ _ Hp) as [cs Hcs].
  apply (expected_position f t (parent b) cs); [done | | done |].
  - intros j items. apply Hlen.
  - by eapply children_of_code_at.
Qed.

Lemma transform_events_since t e :
  let e' := snd (transform_ t e) in
  ∃ lev pev,
    events_since e e'
    = (if hook_due loadLanguages e then [EvHook] else []) ++ lev ++ pev
    ∧ Forall loader_event lev ∧ Forall block_event pev.
Proof using Type.
  destruct (transform_spec theme globalLineNumbers loadLanguages bundled
              loadGrammar codeToHighlightHtml t e)
    as (lev & pev & Htr & ? & ? & _).
  exists lev, pev. split; [| done].
  unfold events_since. rewrite Htr. apply drop_app_length.
Qed.
End transform_facts.

(** ** The transform: theorems *)

(** C1.  For a well-formed tree and a call that returns: the blocks are all
    collected first and processed in one stable order, by descending index;
    the tree that results is the original one in which every converted
    block has given way, in place, to its own three html nodes (markup,
    style, script) and nothing else has moved; and the three nodes of a
    converted block stand, in its own parent, at its recorded index plus two
    for each converted block before it.  This holds for any number of
    blocks, two or more in particular. *)
Theorem batch_rewrite_in_place
    (theme : string) (globalLineNumbers : option lineNumbersOpt)
    (loadLanguages : option (nat → bool)) (bundled : string → bool)
    (loadGrammar : nat → string → bool)
    (codeToHighlightHtml : string → RenderOptions → option RenderResult)
    (t t' : node) (e e' : env) :
  well_formed t →
  transform theme globalLineNumbers loadLanguages bundled loadGrammar
            codeToHighlightHtml t e = (Ok t', e') →
  let bs := sort_desc (collect t) in
  let pl := plan theme globalLineNumbers codeToHighlightHtml bs
                 (prepare loadLanguages bundled loadGrammar t e) in
  let f := replacement pl in
  (bs ≡ₚ collect t ∧ StronglySorted higher_first bs ∧ fst <$> pl = bs)
  ∧ t' = expected_tree f t
  ∧ ∀ b r, (b, Some (html_nodes r)) ∈ pl →
      f (parent b) (index b) = Some (html_nodes r)
      ∧ ∃ cs', children_of (parent b) t' = Some cs'
               ∧ take 3 (drop (final_index f (parent b) (index b)) cs')
                 = html_nodes r.
Proof.
  intros Hwf Ht bs pl f. split_and!.
  - apply sort_desc_perm.
  - apply sort_desc_sorted.
  - apply plan_fst.
  - by eapply transform_tree.
  - intros b r Hin.
    assert (f (parent b) (index b) = Some (html_nodes r)) as Hf.
    { apply replacement_own; [| done]. by apply plan_positions_NoDup. }
    split; [done |].
    assert (b ∈ collect t) as Hb.
    { apply plan_entries in Hin as [Hb _]. unfold bs in Hb.
      by rewrite sort_desc_perm in Hb. }
    destruct (transform_position _ _ _ _ _ _ t e t' e' b Hwf Ht Hb)
      as (cs' & Hcs & Hpos).
    exists cs'. split; [done |].
    fold bs pl f in Hpos. unfold image in Hpos. by rewrite Hf in Hpos.
Qed.

(** ** The history of many calls *)

Section lifetime_facts.
Context (theme : string)
        (globalLineNumbers : option lineNumbersOpt)
        (loadLanguages : option (nat → bool))
        (bundled : string → bool)
        (loadGrammar : nat → string → bool)
        (codeToHighlightHtml : string → RenderOptions → option RenderResult).

Local Abbreviation transform_ :=
  (transform theme globalLineNumbers loadLanguages bundled loadGrammar
             codeToHighlightHtml).
Local Abbreviation transform_all_ :=
  (transform_all theme globalLineNumbers loadLanguages bundled loadGrammar
                 codeToHighlightHtml).

Lemma transform_flag t e :
  languagesLoaded (snd (transform_ t e))
  = languagesLoaded (snd (run_hook loadLanguages e)).
Proof using Type.
  unfold transform. destruct (run_hook loadLanguages e) as [[] e1]; [| done].
  cbn [snd]. rewrite process_blocks_plan. cbn [snd].
  destruct (process_env_spec theme globalLineNumbers codeToHighlightHtml
              (sort_desc (collect t))
              (load_languages bundled loadGrammar (detected_languages t) e1))
    as (_ & _ & _ & _ & -> & _).
  by destruct (load_languages_spec bundled loadGrammar (detected_languages t) e1
                 (detected_languages_NoDup t)) as (_ & _ & -> & _).
Qed.

(** The summary of one call that the history of many calls rests on. *)
Lemma transform_call t e :
  let e' := snd (transform_ t e) in
  ∃ cev, trace e' = trace e ++ cev
    ∧ events_since e e' = cev
    ∧ loadedLanguages e ⊆ loadedLanguages e'
    ∧ (∀ l, load_count l cev
            = if decide (fst (run_hook loadLanguages e) = true
                         ∧ l ∈ detected_languages t
                         ∧ bundled l = true ∧ l ∉ loadedLanguages e)
              then 1 else 0)
    ∧ (∀ l, l ∈ loadedLanguages e'
            ↔ l ∈ loadedLanguages e ∨ EvLoad l true ∈ cev).
Proof using Type.
  destruct (transform_spec theme globalLineNumbers loadLanguages bundled
              loadGrammar codeToHighlightHtml t e)
    as (lev & pev & Htr & Hlev & Hpev & Hsub & Hcount & Hok & _).
  cbn zeta in *.
  exists ((if hook_due loadLanguages e then [EvHook] else []) ++ lev ++ pev).
  split_and!; [done | | done | |].
  - unfold events_since. rewrite Htr. apply drop_app_length.
  - intros l. rewrite !load_count_app, Hcount.
    rewrite (load_count_0 l (if hook_due loadLanguages e then [EvHook] else [])).
    + rewrite (load_count_0 l pev); [lia |].
      intros ev Hev. apply block_event_not_load.
      by apply (proj1 (Forall_forall _ _) Hpev).
    + intros ev Hev [-> | ->]; destruct (hook_due loadLanguages e); set_solver.
  - intros l. rewrite Hok. split; [set_solver |].
    intros [Hl | [Hin | [Hin | Hin]%elem_of_app]%elem_of_app]; [by left | | by right |].
    + destruct (hook_due loadLanguages e); set_solver.
    + by apply (proj1 (Forall_forall _ _) Hpev) in Hin.
Qed.

Lemma load_count_0_inv l evs ev :
  load_count l evs = 0 → ev ∈ evs → ¬ is_load_of l ev.
Proof using Type.
  intros H0 Hin Hl. pose proof (load_count_pos l evs ev Hin Hl). lia.
Qed.

Lemma transform_all_spec ts e :
  let e' := transform_all_ ts e in
  ∃ evs, trace e' = trace e ++ evs
    ∧ loadedLanguages e ⊆ loadedLanguages e'
    ∧ no_reload evs
    ∧ (∀ l, l ∈ loadedLanguages e'
            ↔ l ∈ loadedLanguages e ∨ EvLoad l true ∈ evs)
    ∧ (∀ l ev, l ∈ loadedLanguages e → ev ∈ evs → ¬ is_load_of l ev).
Proof using Type.
  revert e. induction ts as [|t ts IH]; intros e; cbn zeta.
  { exists []. rewrite app_nil_r. split_and!; [done | done | | |].
    - intros pre post l Heq. by destruct pre.
    - intros l. split; [by left | by intros [? | ?%elem_of_nil]].
    - by intros l ev _ ?%elem_of_nil. }
  unfold transform_all. cbn [foldl]. fold (transform_all_ ts (snd (transform_ t e))).
  destruct (transform_call t e) as (cev & Htr1 & _ & Hsub1 & Hcount & Hok1).
  destruct (IH (snd (transform_ t e))) as (evs & Htr & Hsub & Hnr & Hok & Hcached).
  cbn zeta in *.
  assert (∀ l, load_count l cev ≤ 1) as Hle.
  { intros l. rewrite Hcount. destruct (decide _); lia. }
  exists (cev ++ evs). split_and!.
  - by rewrite Htr, Htr1, <- app_assoc.
  - by etrans.
  - intros pre post l Heq (ev & Hin & Hl).
    apply app_eq_app in Heq as [k [[-> Hk] | [-> Hk]]].
    + destruct k as [|x k]; simpl in Hk.
      * apply (Hnr [] post l); [done | by exists ev].
      * injection Hk as <- ->. apply elem_of_app in Hin as [Hin | Hin].
        -- apply (load_count_once_no_reload _ Hle pre k l eq_refl). by exists ev.
        -- apply (Hcached l ev); [| done..]. apply Hok1. right. set_solver.
    + apply (Hnr k post l); [done | by exists ev].
  - intros l. rewrite Hok, Hok1. set_solver.
  - intros l ev Hl [Hin | Hin]%elem_of_app.
    + apply (load_count_0_inv l cev ev); [| done].
      rewrite Hcount. rewrite decide_False; [done |]. by intros (_ & _ & _ & ?).
    + apply (Hcached l ev); [by apply Hsub1 | done].
Qed.
End lifetime_facts.

(** C4, as the code has it.  With a hook supplied, a call runs it only
    while no earlier call of the same plugin instance has completed it; it
    then runs it once, before anything else of that call, however many
    blocks the tree has; a call that completes the hook marks it done, and
    later calls of the instance do not run it again. *)
Theorem hook_runs_until_completed
    (theme : string) (globalLineNumbers : option lineNumbersOpt)
    (hook : nat → bool) (bundled : string → bool)
    (loadGrammar : nat → string → bool)
    (codeToHighlightHtml : string → RenderOptions → option RenderResult)
    (t : node) (e : env) :
  let e' := snd (transform theme globalLineNumbers (Some hook) bundled
                   loadGrammar codeToHighlightHtml t e) in
  ∃ rest,
    events_since e e' = (if languagesLoaded e then [] else [EvHook]) ++ rest
    ∧ (EvHook ∉ rest)
    ∧ languagesLoaded e' = languagesLoaded e || hook (length (trace e)).
Proof.
  cbn zeta.
  destruct (transform_events_since theme globalLineNumbers (Some hook) bundled
              loadGrammar codeToHighlightHtml t e) as (lev & pev & Hev & Hl & Hp).
  exists (lev ++ pev). split_and!.
  - rewrite Hev. simpl. by destruct (languagesLoaded e).
  - intros [Hin | Hin]%elem_of_app.
    + by apply (proj1 (Forall_forall _ _) Hl) in Hin.
    + by apply (proj1 (Forall_forall _ _) Hp) in Hin.
  - rewrite transform_flag. unfold run_hook.
    destruct (languagesLoaded e) eqn:Hld; [done |].
    by destruct (hook (length (trace e))).
Qed.

(** C5, as the code has it.  In one call, a language is loaded once when
    the first pass has found it, it is bundled and it is not in the cache
    (and the hook did not reject), and not at all otherwise, however many
    blocks name it; a load that succeeds puts the language in the cache;
    the cache only grows; all loads of the call come before its first
    render call.  Over any sequence of calls, a language whose load has
    succeeded is not loaded again; one whose load failed is not cached, and
    a later call loads it again. *)
Theorem loader_loads_once_and_cache_grows
    (theme : string) (globalLineNumbers : option lineNumbersOpt)
    (loadLanguages : option (nat → bool)) (bundled : string → bool)
    (loadGrammar : nat → string → bool)
    (codeToHighlightHtml : string → RenderOptions → option RenderResult) :
  (∀ (t : node) (e : env),
     let e' := snd (transform theme globalLineNumbers loadLanguages bundled
                      loadGrammar codeToHighlightHtml t e) in
     let evs := events_since e e' in
     loadedLanguages e ⊆ loadedLanguages e'
     ∧ (∀ l, l ∈ detected_languages t
             ↔ references t l ∧ l ≠ ""%string ∧ l ≠ "text"%string)
     ∧ (∀ l, load_count l evs
             = if decide (fst (run_hook loadLanguages e) = true
                          ∧ l ∈ detected_languages t
                          ∧ bundled l = true ∧ l ∉ loadedLanguages e)
               then 1 else 0)
     ∧ (∀ l, l ∈ loadedLanguages e'
             ↔ l ∈ loadedLanguages e ∨ EvLoad l true ∈ evs)
     ∧ (∀ l, EvLoad l false ∈ evs → l ∉ loadedLanguages e')
     ∧ ∃ lev pev,
         evs = (if hook_due loadLanguages e then [EvHook] else []) ++ lev ++ pev
         ∧ Forall loader_event lev ∧ Forall block_event pev)
  ∧ (∀ (ts : list node) (e : env),
       let e' := transform_all theme globalLineNumbers loadLanguages bundled
                   loadGrammar codeToHighlightHtml ts e in
       let evs := events_since e e' in
       loadedLanguages e ⊆ loadedLanguages e'
       ∧ (∀ l, l ∈ loadedLanguages e'
               ↔ l ∈ loadedLanguages e ∨ EvLoad l true ∈ evs)
       ∧ no_reload evs).
Proof.
  split.
  - intros t e e' evs.
    destruct (transform_call theme globalLineNumbers loadLanguages bundled
                loadGrammar codeToHighlightHtml t e)
      as (cev & _ & Hev & Hsub & Hcount & Hok).
    fold e' in Hev, Hsub, Hok. fold evs in Hev. rewrite Hev.
    split_and!; [done | apply elem_of_detected_languages | done | done | |].
    + intros l Hfail [Hl | Hl]%Hok.
      * apply (load_count_pos l cev) in Hfail as Hpos; [| by right].
        rewrite Hcount, decide_False in Hpos; [lia |]. by intros (_ & _ & _ & ?).
      * pose proof (load_count_both l cev Hl Hfail) as H2.
        rewrite Hcount in H2. destruct (decide _); lia.
    + rewrite <- Hev. apply transform_events_since.
  - intros ts e e' evs.
    destruct (transform_all_spec theme globalLineNumbers loadLanguages bundled
                loadGrammar codeToHighlightHtml ts e)
      as (evs' & Htr & Hsub & Hnr & Hok & _).
    fold e' in Htr, Hsub, Hok.
    assert (evs = evs') as ->.
    { unfold evs, events_since. rewrite Htr. by rewrite drop_app_length. }
    done.
Qed.

(** ** The sample document, evaluated *)

Example sample_transform_result :
  fst (sample_transform sample_doc sample_env) = Ok sample_result.
Proof. vm_compute. reflexivity. Qed.

Example sample_transform_trace :
  trace (snd (sample_transform sample_doc sample_env))
  = [EvHook; EvLoad "js" true; EvLoad "ts" true; EvLoad "rust" false;
     EvWarn "rust"; EvRender "hl-1" "js"; EvRender "hl-2" "js"; EvError "js";
     EvRender "hl-3" "js"; EvRender "hl-4" "rust"; EvRender "hl-5" "ts"].
Proof. vm_compute. reflexivity. Qed.

(** ** The parser at concrete strings *)

(** C2.  The directive types are not independent in the code.  The hyphen
    of a highlight range is read as a removed-line indicator: [{1-3}] marks
    line 3 as removed.  The brace group of a focus directive is read as a
    highlight group: [focus{2,3}] sets [highlightLines], and with
    [focus{2} {1}] it is the focus group, standing first, that becomes
    [highlightLines], where [{1} focus{2}] gives the group [{1}]. *)
Theorem directives_interfere :
  parseMetaString (Some "{1-3}"%string)
  = Ok {| highlightLines := Some "1-3"%string; lineNumbers := None;
          diffLines := Some {| added := None; removed := Some [Num 3] |};
          focusLines := None |}
  ∧ parseMetaString (Some "focus{2,3}"%string)
    = Ok {| highlightLines := Some "2,3"%string; lineNumbers := None;
            diffLines := None; focusLines := Some [Num 2; Num 3] |}
  ∧ parseMetaString (Some "focus{2} {1}"%string)
    = Ok {| highlightLines := Some "2"%string; lineNumbers := None;
            diffLines := None; focusLines := Some [Num 2] |}
  ∧ parseMetaString (Some "{1} focus{2}"%string)
    = Ok {| highlightLines := Some "1"%string; lineNumbers := None;
            diffLines := None; focusLines := Some [Num 2] |}.
Proof. split_and!; vm_compute; reflexivity. Qed.

(** C3.  The parser raises on a focus range of 2^32 lines or more: the
    array of the range cannot be created. *)
Theorem parse_raises_on_huge_focus_range :
  parseMetaString (Some "focus{1-4294967296}"%string) = Throw RangeError.
Proof. vm_compute. reflexivity. Qed.

(** Absent, null and empty meta give the empty directive set. *)
Lemma parseMetaString_absent :
  parseMetaString None = Ok no_options
  ∧ parseMetaString (Some ""%string) = Ok no_options.
Proof. split; reflexivity. Qed.

(** A string without a focus group never makes the parser raise. *)
Lemma parseMetaString_returns_without_focus meta :
  nowhere focus_group (list_ascii_of_string meta) →
  ∃ opts, parseMetaString (Some meta) = Ok opts ∧ focusLines opts = None.
Proof.
  intros Hno. apply parseMetaString_returns. unfold parse_focus.
  apply (find_first_None re_focus focus_group re_focus_Some) in Hno.
  by rewrite Hno.
Qed.

Ltac first_match lem := apply (find_first_Some _ _ lem); vm_compute; reflexivity.

Ltac digit_runs :=
  repeat first [ apply Forall_nil_2 | apply Forall_cons_2
               | split; [discriminate | repeat constructor] ].



(** With white space before the number the start is not read. *)
Example lineNumbers_with_space :
  parseMetaString (Some "lineNumbers: 10"%string)
  = Ok {| highlightLines := None; lineNumbers := Some (LNBool true);
          diffLines := None; focusLines := None |}.
Proof. vm_compute. reflexivity. Qed.

(** C8 as stated fails: when the first brace group of the string has empty
    content, the field does not stay absent; the scan goes on and a later
    group is taken. *)
Lemma highlight_rejection_counterexample :
  parseMetaString (Some "{} {2}"%string)
  = Ok {| highlightLines := Some "2"%string; lineNumbers := None;
          diffLines := None; focusLines := None |}.
Proof. vm_compute. reflexivity. Qed.

(** The content of a group is checked character by character only: an
    incomplete range goes through as it is written, where the comment of
    the test for it expects no match. *)
Example incomplete_range_is_taken :
  parseMetaString (Some "{1-}"%string)
  = Ok {| highlightLines := Some "1-"%string; lineNumbers := None;
          diffLines := None; focusLines := None |}.
Proof. vm_compute. reflexivity. Qed.

Lemma highlight_first_group_wins_witness :
  parseMetaString (Some "{} {1,3} {2}"%string) = Ok opts_passed_over
  ∧ selector_list (list_ascii_of_string "1,3")
  ∧ highlightLines opts_passed_over = Some "1,3"%string.
Proof.
  assert (parseMetaString (Some "{} {1,3} {2}"%string) = Ok opts_passed_over)
    as Hparse by reflexivity.
  assert (selector_list (list_ascii_of_string "1,3")) as Hlist.
  { exists [Line (list_ascii_of_string "1"); Line (list_ascii_of_string "3")].
    split_and!; [discriminate | digit_runs | reflexivity]. }
  destruct (highlight_first_group_wins "{} {1,3} {2}" opts_passed_over Hparse)
    as [Hfirst _].
  split_and!; [exact Hparse | exact Hlist |].
  apply (Hfirst (list_ascii_of_string "1,3")); [| exact Hlist].
  first_match re_braces_Some.
Defined.

(** C9.  An indicator with no digit after it does match when a comma
    follows: [+,] gives an added-line list of two NaN, where the claim, and
    the comment of the test for the empty indicator, have no match.  The
    pattern admits the comma as it admits the digits, so that a list with a
    space after the comma, [+1, -2], also ends in NaN. *)
Theorem diff_indicator_without_digits_matches :
  parseMetaString (Some "+,"%string)
  = Ok {| highlightLines := None; lineNumbers := None;
          diffLines := Some {| added := Some [NaN; NaN]; removed := None |};
          focusLines := None |}
  ∧ parseMetaString (Some "+1, -2"%string)
    = Ok {| highlightLines := None; lineNumbers := None;
            diffLines := Some {| added := Some [Num 1; NaN];
                                 removed := Some [Num 2] |};
            focusLines := None |}.
Proof. split; vm_compute; reflexivity. Qed.

Lemma diff_list_of_integers_witness :
  parseMetaString (Some "-2,5 +1,3"%string) = Ok opts_diff
  ∧ small_numbers (list_ascii_of_string "-2,5 +1,3")
  ∧ diff_field "+" opts_diff = Some [Num 1; Num 3].
Proof.
  assert (parseMetaString (Some "-2,5 +1,3"%string) = Ok opts_diff)
    as Hparse by reflexivity.
  assert (small_numbers (list_ascii_of_string "-2,5 +1,3")) as Hsmall
    by (vm_compute; lia).
  split_and!; [exact Hparse | exact Hsmall |].
  apply (diff_list_of_integers "-2,5 +1,3" opts_diff "+"
           [list_ascii_of_string "1"; list_ascii_of_string "3"] Hparse Hsmall).
  - by left.
  - discriminate.
  - digit_runs.
  - first_match (re_diff_Some "+").
Defined.



(** ** The transform at the sample document *)

Lemma sample_doc_well_formed : well_formed sample_doc.
Proof.
  unfold well_formed. assert (ids sample_doc = [0; 1]) as -> by reflexivity.
  apply NoDup_cons. split; [| apply NoDup_singleton].
  by intros ?%list_elem_of_singleton.
Qed.

Lemma sample_transform_returns :
  sample_transform sample_doc sample_env
  = (Ok sample_result, snd (sample_transform sample_doc sample_env)).
Proof.
  rewrite (surjective_pairing (sample_transform sample_doc sample_env)) at 1.
  by rewrite sample_transform_result.
Qed.

Lemma batch_rewrite_in_place_witness :
  well_formed sample_doc
  ∧ sample_transform sample_doc sample_env
    = (Ok sample_result, snd (sample_transform sample_doc sample_env))
  ∧ sample_result = expected_tree (replacement sample_plan) sample_doc
  ∧ final_index (replacement sample_plan) 0 5 = 7
  ∧ ∃ cs', children_of 0 sample_result = Some cs'
           ∧ take 3 (drop (final_index (replacement sample_plan) 0 5) cs')
             = html_nodes fifth_render.
Proof.
  pose proof sample_doc_well_formed as Hwf.
  pose proof sample_transform_returns as Ht.
  destruct (batch_rewrite_in_place _ _ _ _ _ _ _ _ _ _ Hwf Ht)
    as (_ & Htree & Hpos).
  split_and!; [exact Hwf | exact Ht | exact Htree | by vm_compute |].
  destruct (Hpos fifth_block fifth_render) as (_ & cs' & Hcs & Htake).
  - apply (list_elem_of_lookup_2 _ 0). vm_compute. reflexivity.
  - exists cs'. split; [exact Hcs | exact Htake].
Defined.

(** C4 as stated fails: the second call of the same plugin instance, with
    the hook supplied, does not run the hook. *)
Lemma hook_not_run_by_second_call :
  let e1 := snd (sample_transform sample_doc sample_env) in
  let e2 := snd (sample_transform sample_doc e1) in
  languagesLoaded e1 = true
  ∧ events_since e1 e2
    = [EvLoad "rust" false; EvWarn "rust"; EvRender "hl-6" "js";
       EvRender "hl-7" "js"; EvError "js"; EvRender "hl-8" "js";
       EvRender "hl-9" "rust"; EvRender "hl-10" "ts"].
Proof. split; vm_compute; reflexivity. Qed.

(** C5 as stated fails: a grammar whose load fails is loaded again by the
    next call, twice within one process here. *)
Lemma failed_load_is_repeated :
  let e2 := snd (sample_transform sample_doc
                   (snd (sample_transform sample_doc sample_env))) in
  load_count "rust" (events_since sample_env e2) = 2
  ∧ load_count "js" (events_since sample_env e2) = 1.
Proof. split; vm_compute; reflexivity. Qed.

(** * Further properties *)

(** ** The parser: what a string without directives gives *)

Local Open Scope Z_scope.

Lemma no_char_not_in sep pre post : ¬ no_char sep (pre ++ sep :: post).
Proof.
  intros H. apply Forall_app in H as [_ H]. by inversion H.
Qed.

Lemma no_brace_nowhere_brace_group s : no_char "{" s → nowhere brace_group s.
Proof.
  intros H pre suf g -> (post & -> & _). by apply no_char_not_in in H.
Qed.

Lemma no_brace_nowhere_focus_group s : no_char "{" s → nowhere focus_group s.
Proof.
  intros H pre suf g -> (post & -> & _).
  rewrite (app_assoc pre kw_focus) in H. by apply no_char_not_in in H.
Qed.

Lemma no_indicator_nowhere_diff_list indicator s :
  no_char indicator s → nowhere (diff_list indicator) s.
Proof.
  intros H pre suf g -> (post & -> & _). by apply no_char_not_in in H.
Qed.

(** X1.  A meta string that has no brace, no plus sign, no hyphen and
    neither flag word gives the empty directive set: words the parser does
    not know, such as a title attribute, are ignored. *)
Theorem meta_without_directives_is_ignored (meta : string) :
  let s := list_ascii_of_string meta in
  no_char "{" s → no_char "+" s → no_char "-" s → ¬ has_flag s →
  parseMetaString (Some meta) = Ok no_options.
Proof.
  intros s Hb Hp Hm Hf. unfold parseMetaString. fold s.
  destruct s as [|c s'] eqn:Hs; [done |]. rewrite <- Hs in *.
  unfold parse_meta, parse_focus, parse_highlight, parse_lineNumbers, parse_diff.
  rewrite (proj2 (find_first_None re_focus focus_group re_focus_Some s))
    by by apply no_brace_nowhere_focus_group.
  rewrite (proj2 (find_first_None re_braces brace_group re_braces_Some s))
    by by apply no_brace_nowhere_brace_group.
  rewrite (proj2 (find_first_None (re_diff "+") (diff_list "+")
                    (re_diff_Some "+") s))
    by by apply no_indicator_nowhere_diff_list.
  rewrite (proj2 (find_first_None (re_diff "-") (diff_list "-")
                    (re_diff_Some "-") s))
    by by apply no_indicator_nowhere_diff_list.
  destruct (includes kw_showLineNumbers s || includes kw_lineNumbers s) eqn:Hi.
  - by apply has_flag_includes in Hi.
  - done.
Qed.


(** ** The parser: when it raises *)

Lemma focus_part_unfold part :
  focus_part part
  = if includes ["-"] part
    then array_from_length (range_length part)
           (λ i, num_add (default NaN (((λ n, parseInt10 (trim n))
                                          <$> split "-" part) !! 0%nat))
                         (Num i))
    else Ok [parseInt10 (trim part)].
Proof. reflexivity. Qed.

Lemma array_from_length_Throw {A} len (f : Z → A) ex :
  array_from_length len f = Throw ex ↔ ex = RangeError ∧ 2 ^ 32 ≤ to_length len.
Proof.
  unfold array_from_length. destruct (Z.leb_spec (2 ^ 32) (to_length len)).
  - split; [by intros [= <-] | by intros [-> _]].
  - split; [done | intros [_ ?]; lia].
Qed.

Lemma focus_part_Throw part ex :
  focus_part part = Throw ex
  ↔ ex = RangeError ∧ includes ["-"] part = true
    ∧ 2 ^ 32 ≤ to_length (range_length part).
Proof.
  rewrite focus_part_unfold. destruct (includes ["-"] part).
  - rewrite array_from_length_Throw. naive_solver.
  - naive_solver.
Qed.

Lemma flat_map_result_Throw {A B} (f : A → result (list B)) l ex :
  flat_map_result f l = Throw ex → ∃ x, x ∈ l ∧ f x = Throw ex.
Proof.
  induction l as [|x l IH]; simpl; [done |].
  destruct (f x) as [ys|ex'] eqn:Hx.
  - destruct (flat_map_result f l) as [zs|ex']; [done |].
    intros [= ->]. destruct (IH eq_refl) as (y & ? & ?).
    exists y. split; [by right | done].
  - intros [= ->]. exists x. split; [by left | done].
Qed.

Lemma flat_map_result_raises {A B} (f : A → result (list B)) l x ex :
  x ∈ l → f x = Throw ex → ∃ ex', flat_map_result f l = Throw ex'.
Proof.
  induction l as [|y l IH]; [by intros ?%elem_of_nil |].
  simpl. intros [-> | Hin]%elem_of_cons Hx.
  - rewrite Hx. by eexists.
  - destruct (f y); [| by eexists].
    destruct (IH Hin Hx) as [ex' ->]. by eexists.
Qed.

Lemma focus_lines_Throw g ex :
  focus_lines g = Throw ex
  ↔ ex = RangeError ∧ ∃ part, part ∈ split "," g ∧ includes ["-"] part = true
                              ∧ 2 ^ 32 ≤ to_length (range_length part).
Proof.
  unfold focus_lines. split.
  - intros (part & Hin & (-> & ? & ?)%focus_part_Throw)%flat_map_result_Throw.
    split; [done |]. by exists part.
  - intros (-> & part & Hin & Hinc & Hlen).
    assert (focus_part part = Throw RangeError) as Hpart
      by by apply focus_part_Throw.
    destruct (flat_map_result_raises _ _ _ _ Hin Hpart) as [ex' Hex].
    rewrite Hex. f_equal.
    by apply flat_map_result_Throw in Hex
      as (part' & _ & (-> & _)%focus_part_Throw).
Qed.

Lemma focus_group_nonempty s g : first_at focus_group s g → s ≠ [].
Proof.
  intros (pre & suf & -> & (post & -> & _) & _). by destruct pre.
Qed.

Lemma parseMetaString_Throw meta ex :
  parseMetaString (Some meta) = Throw ex
  ↔ ∃ g, find_first re_focus (list_ascii_of_string meta) = Some g
         ∧ focus_lines g = Throw ex.
Proof.
  unfold parseMetaString.
  destruct (list_ascii_of_string meta) as [|c s] eqn:Hs.
  - split; [done |]. by intros (g & [=] & _).
  - unfold parse_meta, parse_focus.
    destruct (find_first re_focus (c :: s)) as [g|].
    + destruct (focus_lines g) as [l|ex'] eqn:Hg.
      * split; [done |]. intros (g' & [= <-] & ?). congruence.
      * split; [intros [= ->]; by exists g |].
        intros (g' & [= <-] & ?). congruence.
    + split; [done |]. by intros (g & [=] & _).
Qed.

(** X2.  When the parser raises.  For a string whose numbers have 15 digits
    at most: if the parser raises, it raises a RangeError, and the leftmost
    focus group has a piece with a hyphen, a range; so a string without a
    focus group, or whose leftmost focus group has no hyphen, never makes it
    raise; and it does raise when a range of that group asks for 2^32 lines
    or more. *)
Theorem parser_raises_only_on_long_range (meta : string) :
  let s := list_ascii_of_string meta in
  small_numbers s →
  (∀ ex, parseMetaString (Some meta) = Throw ex →
     ex = RangeError
     ∧ ∃ g part, first_at focus_group s g ∧ part ∈ split "," g
                 ∧ includes ["-"] part = true)
  ∧ ((∀ g part, first_at focus_group s g → part ∈ split "," g →
        includes ["-"] part = false) →
     ∃ opts, parseMetaString (Some meta) = Ok opts)
  ∧ (∀ g part, first_at focus_group s g → part ∈ split "," g →
       includes ["-"] part = true →
       2 ^ 32 ≤ to_length (range_length part) →
       parseMetaString (Some meta) = Throw RangeError).
Proof.
  intros s _.
  assert (∀ ex, parseMetaString (Some meta) = Throw ex →
            ex = RangeError
            ∧ ∃ g part, first_at focus_group s g ∧ part ∈ split "," g
                        ∧ includes ["-"] part = true
                        ∧ 2 ^ 32 ≤ to_length (range_length part)) as Honly.
  { intros ex (g & Hg & (-> & part & ? & ? & ?)%focus_lines_Throw)
      %parseMetaString_Throw.
    split; [done |]. exists g, part. split_and!; [| done..].
    by apply (find_first_Some re_focus focus_group re_focus_Some). }
  split_and!.
  - intros ex (-> & g & part & ? & ? & ? & _)%Honly. split; [done |].
    by exists g, part.
  - intros Hnone. destruct (parseMetaString (Some meta)) as [opts|ex] eqn:Hp;
      [by exists opts |].
    destruct (Honly ex eq_refl) as (_ & g & part & Hg & Hin & Hinc & _).
    rewrite (Hnone g part Hg Hin) in Hinc. done.
  - intros g part Hg Hin Hinc Hlen. apply parseMetaString_Throw.
    exists g. split.
    + by apply (find_first_Some re_focus focus_group re_focus_Some).
    + apply focus_lines_Throw. split; [done |]. by exists part.
Qed.

(** ** The parser: the lines of a focus group *)

Lemma array_from_length_short (a n : Z) :
  n < 2 ^ 32 →
  array_from_length (Num n) (λ i, Num (a + i)) = Ok (Num <$> seqZ a n).
Proof.
  intros Hn. unfold array_from_length, to_length.
  destruct (Z.leb_spec (2 ^ 32) (Z.max 0 (Z.min n (2 ^ 53 - 1)))); [lia |].
  f_equal. unfold seqZ. rewrite <- list_fmap_compose.
  replace (Z.to_nat (Z.max 0 (Z.min n (2 ^ 53 - 1)))) with (Z.to_nat n) by lia.
  apply list_fmap_ext. intros _ i _. simpl. f_equal. lia.
Qed.

Lemma array_from_length_Ok (a n : Z) l :
  array_from_length (Num n) (λ i, Num (a + i)) = Ok l → l = Num <$> seqZ a n.
Proof.
  intros H. destruct (Z.lt_ge_cases n (2 ^ 32)) as [Hn | Hn].
  - rewrite array_from_length_short in H by done. by injection H.
  - unfold array_from_length, to_length in H.
    destruct (Z.leb_spec (2 ^ 32) (Z.max 0 (Z.min n (2 ^ 53 - 1)))); [done | lia].
Qed.

Lemma flat_map_result_cons_Ok {A B} (f : A → result (list B)) x l r :
  flat_map_result f (x :: l) = Ok r →
  ∃ ys zs, f x = Ok ys ∧ flat_map_result f l = Ok zs ∧ r = ys ++ zs.
Proof.
  simpl. destruct (f x) as [ys|]; [| done].
  destruct (flat_map_result f l) as [zs|]; [| done].
  intros [= <-]. by exists ys, zs.
Qed.

Lemma item_text_no_comma it : item_written it → no_char "," (item_text it).
Proof.
  destruct it as [a | a b]; simpl.
  - intros [_ Ha]. by apply digits_no_char.
  - intros ([_ Ha] & [_ Hb]). apply Forall_app. split.
    + by apply digits_no_char.
    + constructor; [done | by apply digits_no_char].
Qed.

Lemma focus_part_item it l :
  item_written it → focus_part (item_text it) = Ok l →
  l = Num <$> item_lines it.
Proof.
  destruct it as [a | a b]; simpl.
  - intros Ha. rewrite focus_part_single by done. by intros [= <-].
  - intros (Ha & Hb). rewrite focus_part_range by done.
    apply array_from_length_Ok.
Qed.

Lemma flat_map_result_items items l :
  Forall item_written items →
  flat_map_result focus_part (item_text <$> items) = Ok l →
  l = Num <$> concat (item_lines <$> items).
Proof.
  intros Hall. revert l. induction Hall as [|it items Hit _ IH]; intros l.
  - by intros [= <-].
  - rewrite !fmap_cons.
    intros (li & lr & Hi & Hr & ->)%flat_map_result_cons_Ok.
    rewrite (focus_part_item it li Hit Hi), (IH lr Hr).
    cbn [concat]. by rewrite fmap_app.
Qed.

(** X3.  For a string whose numbers have 15 digits at most and on which the
    parser returns: when the leftmost focus group is a list of lines and
    ranges written with digits, [focusLines] holds the lines of the pieces
    in the order they are written: a line for itself, a range [a-b] for
    every line from [a] to [b], and for none when [b] is below [a]. *)
Theorem focus_lines_of_written_group (meta : string) (opts : HighlightOptions)
    (items : list focus_item) :
  small_numbers (list_ascii_of_string meta) →
  parseMetaString (Some meta) = Ok opts →
  items ≠ [] → Forall item_written items →
  first_at focus_group (list_ascii_of_string meta)
           (join_commas (item_text <$> items)) →
  focusLines opts = Some (Num <$> concat (item_lines <$> items)).
Proof.
  intros _ Hparse Hne Hok Hg.
  destruct (parse_focus_Ok meta opts _ Hparse Hg) as (l & Hl & ->).
  unfold focus_lines in Hl. rewrite split_join_commas in Hl.
  - by rewrite (flat_map_result_items items l Hok Hl).
  - by destruct items.
  - apply Forall_fmap. eapply Forall_impl; [exact Hok |].
    intros it Hit. by apply item_text_no_comma.
Qed.

(** ** The parser: a focus group is a brace group *)

Lemma focus_group_brace_group s g :
  first_at focus_group s g → ¬ nowhere brace_group s.
Proof.
  intros (pre & suf & -> & (post & -> & Hne & Hall) & _) Hno.
  apply (Hno (pre ++ kw_focus) (lbrace ++ g ++ rbrace ++ post) g).
  - by rewrite <- app_assoc.
  - by exists post.
Qed.

Lemma focusLines_Some meta opts l :
  parseMetaString (Some meta) = Ok opts → focusLines opts = Some l →
  ∃ g, first_at focus_group (list_ascii_of_string meta) g
       ∧ focus_lines g = Ok l.
Proof.
  intros (_ & _ & _ & Hf)%parseMetaString_Ok Hl. cbn zeta in Hf.
  rewrite Hl in Hf. unfold parse_focus in Hf.
  destruct (find_first re_focus (list_ascii_of_string meta)) as [g|] eqn:Hg;
    [| done].
  exists g. split.
  - by apply (find_first_Some re_focus focus_group re_focus_Some).
  - destruct (focus_lines g); congruence.
Qed.

(** X4.  Whenever the parser finds a focus group it also sets
    [highlightLines]: the braces of [focus{...}] are a brace group for the
    highlight pattern.  A string gives both fields or [highlightLines]
    alone, never [focusLines] alone. *)
Theorem focus_group_sets_highlight (meta : string) (opts : HighlightOptions) :
  parseMetaString (Some meta) = Ok opts →
  is_Some (focusLines opts) → is_Some (highlightLines opts).
Proof.
  intros Hparse [l Hl].
  destruct (focusLines_Some meta opts l Hparse Hl) as (g & Hg & _).
  apply parseMetaString_Ok in Hparse as (Hhl & _). cbn zeta in Hhl.
  rewrite Hhl. unfold parse_highlight.
  destruct (find_first re_braces (list_ascii_of_string meta)) eqn:Hb;
    [by eexists |].
  apply (find_first_None re_braces brace_group re_braces_Some) in Hb.
  by apply focus_group_brace_group in Hg.
Qed.

(** ** The parser: the numbers of a text with small numbers *)

Lemma occurs_in_trans p g s : occurs_in p g → occurs_in g s → occurs_in p s.
Proof.
  intros (u & v & ->) (u' & v' & ->). exists (u' ++ u), (v ++ v').
  by rewrite <- !app_assoc.
Qed.

Lemma span_fst_app p ds post :
  all_in p ds → fst (span p (ds ++ post)) = ds ++ fst (span p post).
Proof.
  induction 1 as [|c ds Hc _ IH]; [done |]. simpl. rewrite Hc.
  destruct (span p (ds ++ post)) as [run rest]. simpl in *. by rewrite IH.
Qed.

Lemma max_digit_run_occurs ds s :
  occurs_in ds s → all_in is_digit ds → (length ds ≤ max_digit_run s)%nat.
Proof.
  intros (u & v & ->) Hall. induction u as [|c u IH].
  - destruct ds as [|d ds]; [simpl; lia |].
    change ([] ++ (d :: ds) ++ v) with (d :: (ds ++ v)).
    cbn [max_digit_run].
    change (d :: ds ++ v) with ((d :: ds) ++ v).
    rewrite (span_fst_app is_digit (d :: ds) v Hall), length_app. lia.
  - change ((c :: u) ++ ds ++ v) with (c :: (u ++ ds ++ v)).
    cbn [max_digit_run]. lia.
Qed.

Lemma digit_value_range c : is_digit c = true → 0 ≤ digit_value c ≤ 9.
Proof.
  destruct c as [[] [] [] [] [] [] [] []]; simpl; try congruence;
    intros _; unfold digit_value; simpl; lia.
Qed.

Lemma digits_value_snoc ds c :
  digits_value (ds ++ [c]) = 10 * digits_value ds + digit_value c.
Proof. unfold digits_value. by rewrite foldl_app. Qed.

Lemma digits_value_range ds :
  all_in is_digit ds → 0 ≤ digits_value ds < 10 ^ Z.of_nat (length ds).
Proof.
  induction ds as [|c ds IH] using rev_ind; intros Hall.
  - by vm_compute.
  - apply Forall_app in Hall as [Hds Hc].
    apply Forall_inv, digit_value_range in Hc.
    specialize (IH Hds). rewrite digits_value_snoc, length_app. simpl.
    replace (Z.of_nat (length ds + 1)) with (Z.succ (Z.of_nat (length ds)))
      by lia.
    rewrite Z.pow_succ_r by lia. lia.
Qed.

Lemma digits_value_small ds s :
  small_numbers s → occurs_in ds s → all_in is_digit ds →
  0 ≤ digits_value ds < 10 ^ 15.
Proof.
  intros Hs Hocc Hall.
  pose proof (max_digit_run_occurs ds s Hocc Hall) as Hlen.
  pose proof (digits_value_range ds Hall) as [H0 Hlt].
  split; [done |]. eapply Z.lt_le_trans; [exact Hlt |].
  apply Z.pow_le_mono_r; [lia |]. unfold small_numbers in Hs. lia.
Qed.

Lemma parseInt10_small_piece p s :
  small_numbers s → occurs_in p s → all_in is_digit p →
  small_line_or_nan (parseInt10 (trim p)).
Proof.
  intros Hs Hocc Hall. rewrite (trim_id is_digit p is_digit_not_space Hall).
  destruct p as [|c p]; [done |].
  rewrite parseInt10_digits by done. by apply (digits_value_small _ s).
Qed.

Lemma split_nonempty sep s : split sep s ≠ [].
Proof.
  destruct s as [|c s]; simpl; [done |].
  destruct (Ascii.eqb c sep); [done |]. by destruct (split sep s).
Qed.

Lemma split_pieces sep s p :
  p ∈ split sep s → no_char sep p ∧ ∀ c, c ∈ p → c ∈ s.
Proof.
  revert p. induction s as [|c s IH]; intros p; simpl.
  - intros ->%list_elem_of_singleton. split; [constructor | done].
  - destruct (Ascii.eqb_spec c sep) as [-> | Hne].
    + intros [-> | Hin]%elem_of_cons.
      * split; [constructor | by intros ? ?%elem_of_nil].
      * destruct (IH p Hin) as [? H]. split; [done |].
        intros c Hc. right. by apply H.
    + destruct (split sep s) as [|q qs] eqn:Hs.
      * by apply split_nonempty in Hs.
      * intros [-> | Hin]%elem_of_cons.
        -- destruct (IH q) as [Hq1 Hq2]; [by left |].
           split; [by constructor |].
           intros c' [-> | ?]%elem_of_cons; [by left | right; by apply Hq2].
        -- destruct (IH p) as [Hp1 Hp2]; [by right |].
           split; [done |]. intros c' Hc. right. by apply Hp2.
Qed.

Lemma split_head_prefix sep s q qs :
  split sep s = q :: qs → ∃ v, s = q ++ v.
Proof.
  revert q qs. induction s as [|c s IH]; intros q qs; simpl.
  - intros [= <- _]. by exists [].
  - destruct (Ascii.eqb c sep).
    + intros [= <- _]. by eexists.
    + destruct (split sep s) as [|q' qs'] eqn:Hs.
      * by apply split_nonempty in Hs.
      * intros [= <- _]. destruct (IH q' qs' eq_refl) as [v ->]. by exists v.
Qed.

Lemma split_pieces_occur sep s p : p ∈ split sep s → occurs_in p s.
Proof.
  revert p. induction s as [|c s IH]; intros p; simpl.
  - intros ->%list_elem_of_singleton. by exists [], [].
  - destruct (Ascii.eqb c sep).
    + intros [-> | (u & v & ->)%IH]%elem_of_cons.
      * by exists [], (c :: s).
      * by exists (c :: u), v.
    + destruct (split sep s) as [|q qs] eqn:Hs.
      * by apply split_nonempty in Hs.
      * intros [-> | Hin]%elem_of_cons.
        -- destruct (split_head_prefix sep s q qs Hs) as [v ->].
           by exists [], v.
        -- destruct (IH p) as (u & v & ->); [by right |].
           by exists (c :: u), v.
Qed.

Lemma split_pieces_class (P Q : ascii → bool) sep s p :
  (∀ c, P c = true → c ≠ sep → Q c = true) →
  all_in P s → p ∈ split sep s → all_in Q p.
Proof.
  intros HPQ Hall [Hno Hsub]%split_pieces. apply Forall_forall.
  intros c Hc. apply HPQ.
  - by apply (proj1 (Forall_forall _ _) Hall), Hsub.
  - by apply (proj1 (Forall_forall _ _) Hno).
Qed.

Lemma digit_or_comma_piece c :
  is_digit_or_comma c = true → c ≠ "," → is_digit c = true.
Proof.
  unfold is_digit_or_comma. intros [? | ?%Ascii.eqb_eq]%orb_true_iff; done.
Qed.

Lemma selector_piece c :
  is_selector c = true → c ≠ "," → is_digit_or_hyphen c = true.
Proof.
  unfold is_selector, is_digit_or_hyphen.
  intros [[-> | ?%Ascii.eqb_eq]%orb_true_iff | ->]%orb_true_iff; try done.
  by rewrite orb_true_r.
Qed.

Lemma digit_or_hyphen_piece c :
  is_digit_or_hyphen c = true → c ≠ "-" → is_digit c = true.
Proof.
  unfold is_digit_or_hyphen. intros [? | ?%Ascii.eqb_eq]%orb_true_iff; done.
Qed.

Lemma diff_numbers_lines g s :
  small_numbers s → occurs_in g s → all_in is_digit_or_comma g →
  Forall small_line_or_nan (diff_numbers g) ∧ diff_numbers g ≠ [].
Proof.
  intros Hs Hocc Hall. unfold diff_numbers. split.
  - apply Forall_fmap, Forall_forall. intros p Hp. simpl.
    apply (parseInt10_small_piece p s Hs).
    + eapply occurs_in_trans; [by apply (split_pieces_occur "," g) | done].
    + by apply (split_pieces_class is_digit_or_comma is_digit "," g p
                  digit_or_comma_piece).
  - intros H%fmap_nil_inv. by apply split_nonempty in H.
Qed.

Lemma array_from_length_Forall {A} (P : A → Prop) len (f : Z → A) l :
  (∀ i, 0 ≤ i < to_length len → P (f i)) →
  array_from_length len f = Ok l → Forall P l.
Proof.
  intros Hf. unfold array_from_length.
  destruct (2 ^ 32 <=? to_length len); [done |]. intros [= <-].
  apply Forall_fmap, Forall_forall. intros i Hi%elem_of_seq. simpl.
  apply Hf. lia.
Qed.

Lemma includes_single_false c s : includes [c] s = false → no_char c s.
Proof.
  intros Hinc. apply Forall_forall. intros c' Hc' ->.
  apply list_elem_of_split in Hc' as (pre & post & ->).
  assert (includes [c] (pre ++ c :: post) = true) as Ht; [| congruence].
  apply includes_true. by exists pre, post.
Qed.

(** The lines of a range lie between its ends. *)
Lemma range_line_small start end_ i :
  small_line_or_nan start → small_line_or_nan end_ →
  0 ≤ i < to_length (num_add (num_sub end_ start) (Num 1)) →
  small_line_or_nan (num_add start (Num i)).
Proof.
  destruct start as [|x], end_ as [|y]; simpl; try done; lia.
Qed.

Lemma focus_part_lines part s l :
  small_numbers s → occurs_in part s →
  all_in is_digit_or_hyphen part → focus_part part = Ok l →
  Forall small_line_or_nan l.
Proof.
  intros Hs Hocc Hall. rewrite focus_part_unfold.
  assert (∀ k, small_line_or_nan
                 (default NaN (((λ n, parseInt10 (trim n))
                                  <$> split "-" part) !! k))) as Hk.
  { intros k. rewrite list_lookup_fmap.
    destruct (split "-" part !! k) as [p|] eqn:Hp; [| done]. simpl.
    apply list_elem_of_lookup_2 in Hp.
    apply (parseInt10_small_piece p s Hs).
    - eapply occurs_in_trans; [by apply (split_pieces_occur "-" part) | done].
    - by apply (split_pieces_class is_digit_or_hyphen is_digit "-" part p
                  digit_or_hyphen_piece Hall). }
  destruct (includes ["-"] part) eqn:Hinc.
  - apply array_from_length_Forall. intros i Hi.
    by apply (range_line_small _ _ i (Hk 0%nat) (Hk 1%nat)).
  - intros [= <-]. constructor; [| constructor].
    apply (parseInt10_small_piece part s Hs Hocc).
    apply Forall_forall. intros c Hc. apply digit_or_hyphen_piece.
    + by apply (proj1 (Forall_forall _ _) Hall).
    + apply includes_single_false in Hinc.
      by apply (proj1 (Forall_forall _ _) Hinc).
Qed.

Lemma flat_map_result_Forall {A B} (P : B → Prop) (f : A → result (list B)) l r :
  (∀ x ys, x ∈ l → f x = Ok ys → Forall P ys) →
  flat_map_result f l = Ok r → Forall P r.
Proof.
  revert r. induction l as [|x l IH]; intros r Hf; simpl.
  - intros [= <-]. constructor.
  - destruct (f x) as [ys|] eqn:Hx; [| done].
    destruct (flat_map_result f l) as [zs|]; [| done]. intros [= <-].
    apply Forall_app. split.
    + apply (Hf x); [by left | done].
    + apply IH; [| done]. intros y ys' Hy. apply Hf. by right.
Qed.

Lemma focus_lines_lines g s l :
  small_numbers s → occurs_in g s →
  all_in is_selector g → focus_lines g = Ok l → Forall small_line_or_nan l.
Proof.
  intros Hs Hocc Hall. unfold focus_lines. apply flat_map_result_Forall.
  intros part ys Hpart. apply (focus_part_lines part s ys Hs).
  - eapply occurs_in_trans; [by apply (split_pieces_occur "," g) | done].
  - by apply (split_pieces_class is_selector is_digit_or_hyphen "," g part
                selector_piece).
Qed.

(** X5.  The numbers that the parser returns for a string whose numbers
    have 15 digits at most.  Every entry of [diffLines.added],
    [diffLines.removed] and [focusLines] is NaN or an integer from 0 to
    10^15, never a negative one; the two lists of [diffLines] are never
    empty; and an explicit start of the numbering is an integer from 0 to
    10^15. *)
Theorem parsed_lines_are_never_negative (meta : string)
    (opts : HighlightOptions) :
  small_numbers (list_ascii_of_string meta) →
  parseMetaString (Some meta) = Ok opts →
  (∀ indicator ns, indicator = "+" ∨ indicator = "-" →
     diff_field indicator opts = Some ns →
     Forall small_line_or_nan ns ∧ ns ≠ [])
  ∧ (∀ ns, focusLines opts = Some ns → Forall small_line_or_nan ns)
  ∧ (∀ n, lineNumbers opts = Some (LNStart n) →
       ∃ z, n = Some (Num z) ∧ 0 ≤ z < 10 ^ 15).
Proof.
  intros Hs Hparse. split_and!.
  - intros indicator ns Hind.
    apply parseMetaString_Ok in Hparse as (_ & _ & Hd & _). cbn zeta in Hd.
    unfold diff_field. rewrite Hd, (parse_diff_field _ _ Hind).
    destruct (find_first (re_diff indicator) (list_ascii_of_string meta))
      as [g|] eqn:Hg; [| done].
    intros [= <-].
    apply (find_first_Some (re_diff indicator) (diff_list indicator)
             (re_diff_Some indicator)) in Hg
      as (pre & suf & Heq & (post & -> & _ & Hall & _) & _).
    apply (diff_numbers_lines g _ Hs); [| done].
    exists (pre ++ [indicator]), post. by rewrite Heq, <- app_assoc.
  - intros ns Hns.
    destruct (focusLines_Some meta opts ns Hparse Hns)
      as (g & (pre & suf & Heq & (post & -> & _ & Hall) & _) & Hl).
    apply (focus_lines_lines g _ ns Hs); [| done..].
    exists (pre ++ kw_focus ++ lbrace), (rbrace ++ post).
    by rewrite Heq, <- !app_assoc.
  - intros n Hn.
    apply parseMetaString_Ok in Hparse as (_ & Hln & _). cbn zeta in Hln.
    rewrite Hn in Hln. unfold parse_lineNumbers in Hln.
    destruct (includes kw_showLineNumbers _ || includes kw_lineNumbers _);
      [| done].
    destruct (find_first re_start (list_ascii_of_string meta)) as [ds|] eqn:Hds;
      [| done].
    injection Hln as ->.
    apply (find_first_Some re_start explicit_start re_start_Some) in Hds
      as (pre & suf & Heq & (kw & post & _ & -> & Hne & Hall & _) & _).
    exists (digits_value ds). split.
    + by rewrite parseInt10_digits.
    + apply (digits_value_small ds _ Hs); [| done].
      exists (pre ++ kw ++ [":"]), post. by rewrite Heq, <- !app_assoc.
Qed.

(** ** The parser: the text of the highlight group *)

(** X15.  [highlightLines], when the parser sets it, is never empty and is
    made of digits, commas and hyphens only: no other text of the meta
    string reaches the render collaborator through it. *)
Theorem highlight_text_is_selector (meta : option string)
    (opts : HighlightOptions) (h : string) :
  parseMetaString meta = Ok opts → highlightLines opts = Some h →
  list_ascii_of_string h ≠ [] ∧ all_in is_selector (list_ascii_of_string h).
Proof.
  destruct meta as [m|]; [| by intros [= <-]].
  intros (Hhl & _)%parseMetaString_Ok Hh. cbn zeta in Hhl.
  rewrite Hh in Hhl. unfold parse_highlight in Hhl.
  destruct (find_first re_braces (list_ascii_of_string m)) as [g|] eqn:Hg;
    [| done].
  injection Hhl as ->. rewrite list_ascii_of_string_of_list_ascii.
  by apply (find_first_Some re_braces brace_group re_braces_Some) in Hg
    as (_ & _ & _ & (_ & _ & ? & ?) & _).
Qed.

Local Close Scope Z_scope.

Local Open Scope Z_scope.

(** ** The parser: pieces of a focus group that are not a full range *)

Lemma array_from_length_NaN {A} (f : Z → A) : array_from_length NaN f = Ok [].
Proof. reflexivity. Qed.

Lemma includes_hyphen pre post : includes ["-"] (pre ++ "-" :: post) = true.
Proof. apply includes_true. by exists pre, post. Qed.

(** X18.  A piece of a focus group with a hyphen and one end missing stands
    for no line at all, not for the end that is written; and only the first
    two numbers of a piece count: what follows a second hyphen is not
    read. *)
Theorem incomplete_focus_range_is_empty (a b rest : str) :
  all_in is_digit a →
  focus_part (a ++ ["-"]) = Ok []
  ∧ focus_part ("-" :: a) = Ok []
  ∧ (digit_run a → digit_run b →
     focus_part (a ++ "-" :: b ++ "-" :: rest) = focus_part (a ++ "-" :: b)).
Proof.
  intros Ha.
  assert (no_char "-" a) as Hno by by apply digits_no_char.
  split_and!.
  - rewrite focus_part_unfold, includes_hyphen. unfold range_length.
    rewrite split_app_sep by done. simpl.
    by destruct (parseInt10 (trim a)).
  - change ("-" :: a) with ([] ++ "-" :: a).
    rewrite focus_part_unfold, includes_hyphen. unfold range_length.
    rewrite split_app_sep by constructor.
    rewrite split_no_sep by done. simpl.
    by destruct (parseInt10 (trim a)).
  - intros _ [_ Hb].
    assert (no_char "-" b) as Hnob by by apply digits_no_char.
    rewrite !focus_part_unfold, !includes_hyphen. unfold range_length.
    rewrite !split_app_sep by done.
    rewrite (split_no_sep "-" b) by done.
    done.
Qed.

(** ** The parser: a range is read as a removed line *)


Local Close Scope Z_scope.

(** ** The transform: what the render collaborator receives *)

Lemma lineNumbers_present_iff meta opts :
  parseMetaString (Some meta) = Ok opts →
  is_Some (lineNumbers opts) ↔ has_flag (list_ascii_of_string meta).
Proof.
  intros (_ & Hln & _)%parseMetaString_Ok. cbn zeta in Hln. rewrite Hln.
  unfold parse_lineNumbers. rewrite <- has_flag_includes.
  destruct (includes kw_showLineNumbers _ || includes kw_lineNumbers _).
  - split; [done |]. intros _. by destruct (find_first re_start _); eexists.
  - split; [by intros [? [=]] | done].
Qed.

(** X6.  For a block whose meta string parses, the render collaborator is
    called on the body of the block with the language of the block (or
    [text]), the theme of the plugin, the next block id, and the directives
    that were parsed.  The [lineNumbers] option of the plugin is passed on
    exactly when the meta string has neither flag word; a flag word in the
    meta string takes its place, also when the plugin option gives a start
    and the meta string gives none. *)
Theorem render_call_options
    (theme : string) (globalLineNumbers : option lineNumbersOpt)
    (codeToHighlightHtml : string → RenderOptions → option RenderResult)
    (b : block) (e : env) (opts : HighlightOptions) :
  parseMetaString (meta (node_of b)) = Ok opts →
  ∃ ro,
    fst (attempt theme globalLineNumbers codeToHighlightHtml b e)
    = html_nodes <$> codeToHighlightHtml (value (node_of b)) ro
    ∧ r_lang ro = lang_or_text (node_of b)
    ∧ r_theme ro = theme
    ∧ r_blockId ro = block_id (S (blockCounter e))
    ∧ highlightLines (r_directives ro) = highlightLines opts
    ∧ diffLines (r_directives ro) = diffLines opts
    ∧ focusLines (r_directives ro) = focusLines opts
    ∧ ((∀ m, meta (node_of b) = Some m → ¬ has_flag (list_ascii_of_string m)) →
       lineNumbers (r_directives ro) = globalLineNumbers)
    ∧ (∀ m, meta (node_of b) = Some m → has_flag (list_ascii_of_string m) →
       lineNumbers (r_directives ro) = lineNumbers opts
       ∧ is_Some (lineNumbers opts)).
Proof.
  intros Hparse.
  exists (render_options theme globalLineNumbers (lang_or_text (node_of b))
            (block_id (S (blockCounter e))) opts).
  split_and!; try done.
  - unfold attempt, block_id. rewrite Hparse.
    by destruct (codeToHighlightHtml _ _).
  - intros Hno. simpl. destruct (meta (node_of b)) as [m|] eqn:Hm.
    + destruct (lineNumbers opts) as [x|] eqn:Hx; [| done].
      destruct (Hno m eq_refl). apply (lineNumbers_present_iff m opts Hparse).
      by eexists.
    + by injection Hparse as <-.
  - intros m Hm Hflag. rewrite Hm in Hparse.
    apply (lineNumbers_present_iff m opts Hparse) in Hflag as [x Hx].
    simpl. rewrite Hx. split; [done | by eexists].
Qed.

(** ** The transform: when the hook rejects *)

(** X7.  A call of the transform rejects in one case only: a hook was
    supplied, no earlier call of the instance has completed it, and it
    rejects now.  The call then ends with the hook: no language is loaded,
    no block is rendered, the tree is not touched, and the instance is not
    marked, so that the next call runs the hook again. *)
Theorem hook_rejection_ends_call
    (theme : string) (globalLineNumbers : option lineNumbersOpt)
    (loadLanguages : option (nat → bool)) (bundled : string → bool)
    (loadGrammar : nat → string → bool)
    (codeToHighlightHtml : string → RenderOptions → option RenderResult)
    (t : node) (e : env) :
  let r := transform theme globalLineNumbers loadLanguages bundled loadGrammar
             codeToHighlightHtml t e in
  (∀ ex, fst r = Throw ex
         ↔ ex = HookRejected
           ∧ ∃ hook, loadLanguages = Some hook ∧ languagesLoaded e = false
                     ∧ hook (length (trace e)) = false)
  ∧ (∀ ex, fst r = Throw ex →
       events_since e (snd r) = [EvHook]
       ∧ languagesLoaded (snd r) = false
       ∧ blockCounter (snd r) = blockCounter e
       ∧ loadedLanguages (snd r) = loadedLanguages e
       ∧ hook_due loadLanguages (snd r) = true).
Proof.
  cbn zeta. unfold transform, run_hook, hook_due, events_since.
  destruct loadLanguages as [hook|]; simpl.
  - destruct (languagesLoaded e) eqn:Hl; simpl.
    + split; intros ex; [| done]. split; [done |]. by intros (_ & ? & _ & [=] & _).
    + destruct (hook (length (trace e))) eqn:Hh; simpl.
      * split; intros ex; [| done]. split; [done |].
        intros (_ & hook' & [= <-] & _ & ?). congruence.
      * split; intros ex.
        -- split; [intros [= <-] | by intros [-> _]].
           split; [done |]. by exists hook.
        -- intros _. rewrite drop_app_length, Hl. done.
  - split; intros ex; [| done]. split; [done |]. by intros (_ & ? & [=] & _).
Qed.

(** ** The transform: the numbering of the render calls *)

Lemma filter_is_render_loader (lev : list event) :
  Forall loader_event lev → filter is_render lev = [].
Proof.
  induction 1 as [|ev lev Hev _ IH]; [done |]. rewrite filter_cons, IH.
  by destruct ev.
Qed.

Lemma omap_cons {A B} (f : A → option B) x l :
  omap f (x :: l) = match f x with
                    | Some y => y :: omap f l
                    | None => omap f l
                    end.
Proof. reflexivity. Qed.

Lemma omap_render_id_filter (evs : list event) :
  omap render_id (filter is_render evs) = omap render_id evs.
Proof.
  induction evs as [|ev evs IH]; [done |]. rewrite filter_cons.
  destruct (decide (is_render ev)) as [H | H];
    rewrite ?omap_cons, IH; by destruct ev.
Qed.

Lemma omap_render_id_imap c (bs : list block) :
  omap render_id (imap (render_event_of c) bs)
  = block_id <$> seq (S c) (length bs).
Proof.
  revert c. induction bs as [|b bs IH]; intros c; [done |].
  rewrite imap_cons, omap_cons. cbn [render_id render_event_of length seq].
  rewrite fmap_cons, Nat.add_1_r. f_equal. rewrite <- IH. f_equal.
  apply imap_ext. intros k b' _. unfold render_event_of. simpl.
  do 2 f_equal. lia.
Qed.

Section numbering_facts.
Context (theme : string)
        (globalLineNumbers : option lineNumbersOpt)
        (loadLanguages : option (nat → bool))
        (bundled : string → bool)
        (loadGrammar : nat → string → bool)
        (codeToHighlightHtml : string → RenderOptions → option RenderResult).

Local Abbreviation attempt_ :=
  (attempt theme globalLineNumbers codeToHighlightHtml).
Local Abbreviation transform_ :=
  (transform theme globalLineNumbers loadLanguages bundled loadGrammar
             codeToHighlightHtml).
Local Abbreviation transform_all_ :=
  (transform_all theme globalLineNumbers loadLanguages bundled loadGrammar
                 codeToHighlightHtml).

Lemma attempt_render b e :
  ∃ pev, trace (snd (attempt_ b e)) = trace e ++ pev
    ∧ filter is_render pev
      = (if meta_parses b then [render_event_of (blockCounter e) 0 b] else [])
    ∧ blockCounter (snd (attempt_ b e))
      = blockCounter e + (if meta_parses b then 1 else 0).
Proof using Type.
  clear loadLanguages bundled loadGrammar.
  unfold attempt, meta_parses, render_event_of, block_id.
  destruct (parseMetaString _) as [o|].
  - rewrite Nat.add_1_r. destruct (codeToHighlightHtml _ _) as [r|]; simpl.
    + eexists [_]. split_and!; [done | done | lia].
    + eexists [_; _]. rewrite <- app_assoc. split_and!; [done | done | lia].
  - simpl. eexists [_]. split_and!; [done | done | lia].
Qed.

Lemma process_render bs e :
  let e' := foldl (λ e b, snd (attempt_ b e)) e bs in
  let rs := filter (λ b, meta_parses b = true) bs in
  ∃ pev, trace e' = trace e ++ pev
    ∧ filter is_render pev = imap (render_event_of (blockCounter e)) rs
    ∧ blockCounter e' = blockCounter e + length rs.
Proof using Type.
  clear loadLanguages bundled loadGrammar.
  revert e. induction bs as [|b bs IH]; intros e; cbn zeta.
  { exists []. rewrite app_nil_r. split_and!; [done | done | simpl; lia]. }
  cbn [foldl]. destruct (attempt_render b e) as (pev1 & Htr1 & Hr1 & Hc1).
  destruct (IH (snd (attempt_ b e))) as (pev & Htr & Hr & Hc).
  cbn zeta in *. exists (pev1 ++ pev). rewrite filter_cons.
  split_and!.
  - by rewrite Htr, Htr1, <- app_assoc.
  - rewrite filter_app, Hr1, Hr, Hc1.
    destruct (meta_parses b) eqn:Hb.
    + rewrite decide_True by done. rewrite imap_cons. simpl. f_equal.
      apply imap_ext. intros k b' _. unfold render_event_of. simpl.
      do 2 f_equal. lia.
    + rewrite decide_False by done. simpl. by rewrite Nat.add_0_r.
  - rewrite Hc, Hc1. destruct (meta_parses b) eqn:Hb.
    + rewrite decide_True by done. simpl. lia.
    + rewrite decide_False by done. lia.
Qed.

(** The render calls of one call of the transform. *)
Lemma transform_render t e :
  let e' := snd (transform_ t e) in
  let rs := if fst (run_hook loadLanguages e)
            then filter (λ b, meta_parses b = true) (sort_desc (collect t))
            else [] in
  ∃ cev, trace e' = trace e ++ cev
    ∧ filter is_render cev = imap (render_event_of (blockCounter e)) rs
    ∧ blockCounter e' = blockCounter e + length rs.
Proof using Type.
  cbn zeta. unfold transform.
  destruct (run_hook_spec loadLanguages e) as (Htr0 & _ & Hc0 & _).
  destruct (run_hook loadLanguages e) as [[] e1] eqn:Hh; cbn [fst snd] in *.
  - destruct (load_languages_spec bundled loadGrammar (detected_languages t) e1
                (detected_languages_NoDup t))
      as (lev & Htr1 & _ & Hc1 & _ & _ & Hall1 & _).
    cbn zeta in *. rewrite process_blocks_plan. cbn [snd].
    destruct (process_render (sort_desc (collect t))
                (load_languages bundled loadGrammar (detected_languages t) e1))
      as (pev & Htr2 & Hr2 & Hc2).
    cbn zeta in *.
    exists ((if hook_due loadLanguages e then [EvHook] else []) ++ lev ++ pev).
    split_and!.
    + by rewrite Htr2, Htr1, Htr0, <- !app_assoc.
    + rewrite !filter_app, Hr2, Hc1, Hc0, (filter_is_render_loader lev Hall1).
      by destruct (hook_due loadLanguages e).
    + by rewrite Hc2, Hc1, Hc0.
  - exists (if hook_due loadLanguages e then [EvHook] else []).
    split_and!; [done | by destruct (hook_due loadLanguages e) | simpl; lia].
Qed.

(** The block ids of one call, and of a sequence of calls. *)
Lemma transform_ids t e :
  let e' := snd (transform_ t e) in
  ∃ cev, trace e' = trace e ++ cev
    ∧ blockCounter e ≤ blockCounter e'
    ∧ omap render_id cev
      = block_id <$> seq (S (blockCounter e)) (blockCounter e' - blockCounter e).
Proof using Type.
  destruct (transform_render t e) as (cev & Htr & Hr & Hc). cbn zeta in *.
  exists cev. split_and!; [done | lia |].
  rewrite <- omap_render_id_filter, Hr, omap_render_id_imap. do 2 f_equal. lia.
Qed.

Lemma transform_all_ids ts e :
  let e' := transform_all_ ts e in
  ∃ evs, trace e' = trace e ++ evs
    ∧ blockCounter e ≤ blockCounter e'
    ∧ omap render_id evs
      = block_id <$> seq (S (blockCounter e)) (blockCounter e' - blockCounter e).
Proof using Type.
  revert e. induction ts as [|t ts IH]; intros e; cbn zeta.
  { exists []. rewrite app_nil_r, Nat.sub_diag. by split_and!. }
  unfold transform_all. cbn [foldl]. fold (transform_all_ ts (snd (transform_ t e))).
  destruct (transform_ids t e) as (cev & Htr1 & Hle1 & Hid1).
  destruct (IH (snd (transform_ t e))) as (evs & Htr & Hle & Hid).
  cbn zeta in *. exists (cev ++ evs). split_and!.
  - by rewrite Htr, Htr1, <- app_assoc.
  - lia.
  - rewrite omap_app, Hid1, Hid, <- fmap_app. f_equal.
    set (c0 := blockCounter e) in *.
    set (c1 := blockCounter (snd (transform_ t e))) in *.
    set (c2 := blockCounter (transform_all_ ts (snd (transform_ t e)))) in *.
    replace (c2 - c0) with ((c1 - c0) + (c2 - c1)) by lia.
    rewrite seq_app. do 2 f_equal. lia.
Qed.
End numbering_facts.

Lemma block_id_inj n m : block_id n = block_id m → n = m.
Proof.
  unfold block_id. intros H.
  by apply (inj (String.app "hl-")), (inj pretty) in H.
Qed.

(** ** The transform: the call that decides the outcome of a block *)

Lemma filter_lookup_take {A} (P : A → Prop) `{∀ x, Decision (P x)}
    (l : list A) j x :
  l !! j = Some x → P x →
  filter P l !! length (filter P (take j l)) = Some x.
Proof.
  intros Hj HP.
  assert (filter P l = filter P (take j l) ++ x :: filter P (drop (S j) l))
    as ->.
  { rewrite <- (take_drop_middle l j x Hj) at 1.
    by rewrite filter_app, filter_cons, decide_True. }
  by rewrite lookup_app_r, Nat.sub_diag by lia.
Qed.

Lemma take_singleton_lookup {A} (l : list A) n x :
  take 1 (drop n l) = [x] → l !! n = Some x.
Proof.
  intros H. replace n with (n + 0) by lia. rewrite <- lookup_drop.
  destruct (drop n l); [done |]. by injection H as ->.
Qed.

Section outcome_facts.
Context (theme : string)
        (globalLineNumbers : option lineNumbersOpt)
        (loadLanguages : option (nat → bool))
        (bundled : string → bool)
        (loadGrammar : nat → string → bool)
        (codeToHighlightHtml : string → RenderOptions → option RenderResult).

Local Abbreviation attempt_ :=
  (attempt theme globalLineNumbers codeToHighlightHtml).
Local Abbreviation plan_ := (plan theme globalLineNumbers codeToHighlightHtml).
Local Abbreviation prepare_ := (prepare loadLanguages bundled loadGrammar).

Lemma plan_lookup bs e j b :
  bs !! j = Some b →
  plan_ bs e !! j
  = Some (b, fst (attempt_ b (foldl (λ e b, snd (attempt_ b e)) e (take j bs)))).
Proof using Type.
  clear loadLanguages bundled loadGrammar.
  revert e j. induction bs as [|x bs IH]; intros e j; [done |].
  destruct j as [|j]; cbn [plan]; simpl.
  - by intros [= ->].
  - intros Hj. by apply IH.
Qed.

Lemma attempt_parsed b e mo :
  parseMetaString (meta (node_of b)) = Ok mo →
  fst (attempt_ b e)
  = html_nodes <$> codeToHighlightHtml (value (node_of b))
                     (render_options theme globalLineNumbers
                        (lang_or_text (node_of b))
                        (block_id (S (blockCounter e))) mo).
Proof using Type.
  clear loadLanguages bundled loadGrammar.
  intros H. unfold attempt, block_id. rewrite H.
  by destruct (codeToHighlightHtml _ _).
Qed.

Lemma prepare_counter t e : blockCounter (prepare_ t e) = blockCounter e.
Proof using Type.
  clear theme globalLineNumbers codeToHighlightHtml.
  unfold prepare.
  destruct (run_hook_spec loadLanguages e) as (_ & _ & Hc & _).
  destruct (load_languages_spec bundled loadGrammar (detected_languages t)
              (snd (run_hook loadLanguages e)) (detected_languages_NoDup t))
    as (lev & _ & _ & Hbc & _).
  cbn zeta in Hbc. by rewrite Hbc.
Qed.

(** The outcome of a block whose meta string parses is the outcome of one
    render call: the call with the directives of the block and the id that
    follows those of the blocks rendered before it. *)
Lemma block_outcome t e b mo :
  well_formed t → b ∈ collect t →
  parseMetaString (meta (node_of b)) = Ok mo →
  let rs := filter (λ b, meta_parses b = true) (sort_desc (collect t)) in
  let pl := plan_ (sort_desc (collect t)) (prepare_ t e) in
  ∃ k, rs !! k = Some b
    ∧ let o := html_nodes <$> codeToHighlightHtml (value (node_of b))
                                (render_options theme globalLineNumbers
                                   (lang_or_text (node_of b))
                                   (block_id (blockCounter e + S k)) mo) in
      (b, o) ∈ pl ∧ replacement pl (parent b) (index b) = o.
Proof using Type.
  intros Hwf Hb Hparse rs pl.
  assert (b ∈ sort_desc (collect t)) as Hbs by by rewrite sort_desc_perm.
  apply list_elem_of_lookup_1 in Hbs as [j Hj].
  assert (meta_parses b = true) as Hp by (unfold meta_parses; by rewrite Hparse).
  exists (length (filter (λ b, meta_parses b = true)
                    (take j (sort_desc (collect t))))).
  split; [by apply filter_lookup_take |]. cbn zeta.
  destruct (process_render theme globalLineNumbers codeToHighlightHtml
              (take j (sort_desc (collect t))) (prepare_ t e))
    as (_ & _ & _ & Hc).
  cbn zeta in Hc. rewrite prepare_counter in Hc.
  pose proof (plan_lookup (sort_desc (collect t)) (prepare_ t e) j b Hj) as Hpl.
  rewrite (attempt_parsed b _ mo Hparse), Hc in Hpl.
  rewrite <- Nat.add_succ_r in Hpl.
  apply list_elem_of_lookup_2 in Hpl. split; [done |].
  apply replacement_own; [| done]. by apply plan_positions_NoDup.
Qed.
End outcome_facts.


(** X8.  In a call that returns, the render collaborator is called once for
    every block whose meta string parses, in the order of processing (the
    higher index first), with the language of the block or [text], whether
    or not that language could be loaded; the calls get the block ids that
    follow the counter, one after the other, and the counter ends up
    advanced by their number.  A block whose render call raises has used up
    its id.  The counter is kept exact here, as the number of the source is
    while it stays below 2^53. *)
Theorem render_calls_are_numbered
    (theme : string) (globalLineNumbers : option lineNumbersOpt)
    (loadLanguages : option (nat → bool)) (bundled : string → bool)
    (loadGrammar : nat → string → bool)
    (codeToHighlightHtml : string → RenderOptions → option RenderResult)
    (t t' : node) (e e' : env) :
  transform theme globalLineNumbers loadLanguages bundled loadGrammar
            codeToHighlightHtml t e = (Ok t', e') →
  (Z.of_nat (blockCounter e') < 2 ^ 53)%Z →
  let rs := filter (λ b, meta_parses b = true) (sort_desc (collect t)) in
  filter is_render (events_since e e')
  = imap (λ k b, EvRender (block_id (blockCounter e + S k))
                          (lang_or_text (node_of b))) rs
  ∧ blockCounter e' = blockCounter e + length rs.
Proof.
  intros Ht _ rs.
  destruct (transform_render theme globalLineNumbers loadLanguages bundled
              loadGrammar codeToHighlightHtml t e) as (cev & Htr & Hr & Hc).
  cbn zeta in *.
  apply transform_Ok in Ht as Hok. destruct Hok as [Hhook _].
  rewrite Hhook, Ht in *. cbn [snd] in *. fold rs in Hr, Hc.
  split; [| done]. unfold events_since. by rewrite Htr, drop_app_length.
Qed.

(** X9.  Over any sequence of calls of the transform, rejected ones
    included, the block counter never goes down, the block ids given to
    the render collaborator are the ids that follow the counter, without a
    gap, and no id is given twice.  The counter is kept exact here, as the
    number of the source is while it stays below 2^53. *)
Theorem block_ids_never_repeat
    (theme : string) (globalLineNumbers : option lineNumbersOpt)
    (loadLanguages : option (nat → bool)) (bundled : string → bool)
    (loadGrammar : nat → string → bool)
    (codeToHighlightHtml : string → RenderOptions → option RenderResult)
    (ts : list node) (e : env) :
  let e' := transform_all theme globalLineNumbers loadLanguages bundled
              loadGrammar codeToHighlightHtml ts e in
  let ids := omap render_id (events_since e e') in
  (Z.of_nat (blockCounter e') < 2 ^ 53)%Z →
  blockCounter e ≤ blockCounter e'
  ∧ ids = block_id <$> seq (S (blockCounter e)) (blockCounter e' - blockCounter e)
  ∧ NoDup ids.
Proof.
  intros e' ids _.
  destruct (transform_all_ids theme globalLineNumbers loadLanguages bundled
              loadGrammar codeToHighlightHtml ts e) as (evs & Htr & Hle & Hid).
  cbn zeta in *. fold e' in Htr, Hle, Hid.
  assert (ids = block_id <$> seq (S (blockCounter e))
                               (blockCounter e' - blockCounter e)) as Hids.
  { unfold ids, events_since. by rewrite Htr, drop_app_length. }
  split_and!; [done | done |].
  rewrite Hids. apply NoDup_fmap_2_strong; [| apply NoDup_seq].
  intros n m _ _. apply block_id_inj.
Qed.

(** ** The transform: the events of the language pass *)

Lemma filter_ext_in {A} (P Q : A → Prop) `{∀ x, Decision (P x)}
    `{∀ x, Decision (Q x)} (l : list A) :
  (∀ x, x ∈ l → P x ↔ Q x) → filter P l = filter Q l.
Proof.
  induction l as [|x l IH]; intros HPQ; [done |].
  rewrite !filter_cons, IH by (intros y Hy; apply HPQ; by right).
  destruct (decide (P x)) as [HP | HP], (decide (Q x)) as [HQ | HQ];
    try done; destruct (HPQ x); try (by left); tauto.
Qed.

Lemma elem_of_load_outcomes (los : list (string * bool)) ev :
  ev ∈ los ≫= load_outcome
  ↔ ∃ l ok, (l, ok) ∈ los ∧ (ev = EvLoad l ok ∨ (ok = false ∧ ev = EvWarn l)).
Proof.
  rewrite list_elem_of_bind. split.
  - intros ([l ok] & Hev & Hin). exists l, ok. split; [done |].
    unfold load_outcome in Hev. simpl in Hev.
    apply elem_of_cons in Hev as [-> | Hev]; [by left |].
    destruct ok; [by apply elem_of_nil in Hev |].
    apply list_elem_of_singleton in Hev. by right.
  - intros (l & ok & Hin & Hev). exists (l, ok). split; [| done].
    unfold load_outcome. simpl. destruct Hev as [-> | [-> ->]]; [by left |].
    right. by left.
Qed.

Section loader_facts.
Context (bundled : string → bool) (loadGrammar : nat → string → bool).

Lemma load_languages_shape ls e :
  NoDup ls →
  ∃ los : list (string * bool),
    trace (load_languages bundled loadGrammar ls e)
    = trace e ++ (los ≫= load_outcome)
    ∧ los.*1 = filter (λ l, bundled l = true ∧ l ∉ loadedLanguages e) ls.
Proof using Type.
  revert e. induction ls as [|x ls IH]; intros e Hnd.
  { exists []. simpl. by rewrite app_nil_r. }
  apply NoDup_cons in Hnd as [Hx Hnd]. unfold load_languages. cbn [foldl].
  fold (load_languages bundled loadGrammar ls (load_language bundled loadGrammar e x)).
  destruct (IH (load_language bundled loadGrammar e x) Hnd) as (los & Htr & Hlos).
  rewrite filter_cons.
  destruct (load_language_cases bundled loadGrammar e x)
    as [[Heq Hwhy] | (Hnin & Hb & ok & Htr1 & Hc1 & _)].
  - rewrite Heq in *. exists los. split; [done |].
    rewrite decide_False; [done |].
    intros [Hb Hn]. destruct Hwhy; [done | congruence].
  - exists ((x, ok) :: los). split.
    + rewrite Htr, Htr1, <- app_assoc. f_equal.
    + rewrite decide_True by done. rewrite fmap_cons. simpl. f_equal.
      rewrite Hlos. apply filter_ext_in. intros l Hl. rewrite Hc1.
      assert (l ≠ x) by (by intros ->).
      destruct ok; set_solver.
Qed.
End loader_facts.

(** X10.  In a call that returns, the history after the hook is: for each
    detected language that is bundled and not yet in the cache, in the
    order in which the languages first occur in the document, one load,
    directly followed by a warning when it failed; then the events of the
    blocks.  A warning is logged exactly for the loads that failed, and a
    failed load does not end the call. *)
Theorem loader_events_shape
    (theme : string) (globalLineNumbers : option lineNumbersOpt)
    (loadLanguages : option (nat → bool)) (bundled : string → bool)
    (loadGrammar : nat → string → bool)
    (codeToHighlightHtml : string → RenderOptions → option RenderResult)
    (t t' : node) (e e' : env) :
  transform theme globalLineNumbers loadLanguages bundled loadGrammar
            codeToHighlightHtml t e = (Ok t', e') →
  ∃ (los : list (string * bool)) (pev : list event),
    events_since e e'
    = (if hook_due loadLanguages e then [EvHook] else [])
      ++ (los ≫= load_outcome) ++ pev
    ∧ Forall block_event pev
    ∧ los.*1 = filter (λ l, bundled l = true ∧ l ∉ loadedLanguages e)
                      (detected_languages t)
    ∧ (∀ l, EvWarn l ∈ events_since e e' ↔ EvLoad l false ∈ events_since e e').
Proof.
  unfold transform.
  destruct (run_hook_spec loadLanguages e) as (Htr0 & Hc0 & _).
  destruct (run_hook loadLanguages e) as [[] e1] eqn:Hh; [| done].
  cbn [fst snd] in *. rewrite process_blocks_plan. cbn [fst snd].
  intros [= _ <-].
  destruct (load_languages_shape bundled loadGrammar (detected_languages t) e1
              (detected_languages_NoDup t)) as (los & Htr1 & Hlos).
  destruct (process_env_spec theme globalLineNumbers codeToHighlightHtml
              (sort_desc (collect t))
              (load_languages bundled loadGrammar (detected_languages t) e1))
    as (pev & Htr2 & Hall2 & _).
  cbn zeta in *.
  assert (events_since e
            (foldl (λ e b, snd (attempt theme globalLineNumbers
                                  codeToHighlightHtml b e))
               (load_languages bundled loadGrammar (detected_languages t) e1)
               (sort_desc (collect t)))
          = (if hook_due loadLanguages e then [EvHook] else [])
            ++ (los ≫= load_outcome) ++ pev) as Hev.
  { unfold events_since. rewrite Htr2, Htr1, Htr0, <- !app_assoc.
    apply drop_app_length. }
  exists los, pev. split_and!; [done | done | by rewrite Hlos, Hc0 |].
  intros l. rewrite Hev, !elem_of_app, !elem_of_load_outcomes. split.
  - intros [Hin | [(l' & ok & Hin & [[=] | [-> [= ->]]]) | Hin]].
    + destruct (hook_due loadLanguages e); set_solver.
    + right. left. exists l', false. split; [done | by left].
    + by apply (proj1 (Forall_forall _ _) Hall2) in Hin.
  - intros [Hin | [(l' & ok & Hin & [[= -> <-] | [_ [=]]]) | Hin]].
    + destruct (hook_due loadLanguages e); set_solver.
    + right. left. exists l', false. split; [done | by right].
    + by apply (proj1 (Forall_forall _ _) Hall2) in Hin.
Qed.

(** ** The transform: a code node at the root *)

(** X11.  A code node that is the root of the tree has no parent and no
    index: the transform does not convert it and makes no render call for
    it, and the counter stays.  The first pass sees it all the same: its
    language, when bundled and not yet cached, is loaded. *)
Theorem root_code_is_not_converted
    (theme : string) (globalLineNumbers : option lineNumbersOpt)
    (loadLanguages : option (nat → bool)) (bundled : string → bool)
    (loadGrammar : nat → string → bool)
    (codeToHighlightHtml : string → RenderOptions → option RenderResult)
    (c : code) (e : env) :
  let r := transform theme globalLineNumbers loadLanguages bundled loadGrammar
             codeToHighlightHtml (Code c) e in
  (∀ t', fst r = Ok t' → t' = Code c)
  ∧ blockCounter (snd r) = blockCounter e
  ∧ Forall (λ ev, ¬ block_event ev) (events_since e (snd r))
  ∧ (∀ l, fst (run_hook loadLanguages e) = true →
          lang c = Some l → l ≠ ""%string → l ≠ "text"%string →
          bundled l = true → l ∉ loadedLanguages e →
          load_count l (events_since e (snd r)) = 1).
Proof.
  cbn zeta. split_and!.
  - unfold transform. destruct (run_hook loadLanguages e) as [[] e1]; [| done].
    by intros t' [= <-].
  - destruct (transform_render theme globalLineNumbers loadLanguages bundled
                loadGrammar codeToHighlightHtml (Code c) e) as (cev & _ & _ & Hc).
    cbn zeta in Hc. rewrite Hc.
    destruct (fst (run_hook loadLanguages e)); simpl; lia.
  - unfold transform.
    destruct (run_hook_spec loadLanguages e) as (Htr0 & _).
    destruct (run_hook loadLanguages e) as [[] e1]; cbn [fst snd] in *.
    + destruct (load_languages_spec bundled loadGrammar
                  (detected_languages (Code c)) e1
                  (detected_languages_NoDup (Code c)))
        as (lev & Htr1 & _ & _ & _ & _ & Hall & _).
      cbn zeta in Htr1. unfold events_since. simpl.
      rewrite Htr1, Htr0, <- app_assoc, drop_app_length.
      apply Forall_app. split.
      * destruct (hook_due loadLanguages e); repeat constructor. by intros [].
      * eapply Forall_impl; [exact Hall |]. by intros [] ? ?.
    + unfold events_since. rewrite Htr0, drop_app_length.
      destruct (hook_due loadLanguages e); repeat constructor. by intros [].
  - intros l Hhook Hl Hne1 Hne2 Hb Hnin.
    destruct (transform_call theme globalLineNumbers loadLanguages bundled
                loadGrammar codeToHighlightHtml (Code c) e)
      as (cev & _ & Hev & _ & Hcount & _).
    cbn zeta in *. rewrite Hev, Hcount. rewrite decide_True; [done |].
    split_and!; [done | | done | done].
    apply elem_of_detected_languages. split_and!; [| done | done].
    exists (c, None). split; [by left | done].
Qed.

(** ** The transform: when every block is converted *)

Lemma flat_imap_nil {A B} (F : nat → A → list B) i l :
  (∀ j x, l !! j = Some x → F (i + j) x = []) → flat_imap F i l = [].
Proof.
  revert i. induction l as [|x l IH]; intros i H; [done |].
  cbn [flat_imap]. rewrite IH.
  - specialize (H 0 x eq_refl). rewrite Nat.add_0_r in H. by rewrite H.
  - intros j y Hj. specialize (H (S j) y Hj).
    by replace (S i + j) with (i + S j) by lia.
Qed.

Lemma blocks_at_not_code pos n :
  (∀ k, n ≠ Code k) → blocks_at pos n = blocks_at None n.
Proof. destruct n; [by intros H; destruct (H c) | done..]. Qed.

Lemma expected_tree_no_code f n :
  (∀ p i items, f p i = Some items → html_only items) →
  (∀ b, b ∈ blocks_at None n → is_Some (f (parent b) (index b))) →
  (∀ k, n ≠ Code k) →
  ∀ pos, visit_code pos (expected_tree f n) = [].
Proof.
  intros Hh.
  induction n as [c|v|ty v|id ty cs IH] using node_induction;
    intros Hb Hn pos; [by destruct (Hn c) | done | done |].
  cbn [expected_tree visit_code]. apply flat_imap_nil. intros j c' Hj.
  apply list_elem_of_lookup_2, elem_of_flat_imap in Hj as (i & c & Hi & Hc').
  simpl in Hc'.
  assert (∀ k, c = Code k → is_Some (f id i)) as Hcode.
  { intros k ->.
    apply (Hb {| node_of := k; index := i; parent := id |}).
    rewrite blocks_at_Parent. apply elem_of_flat_imap. exists i, (Code k).
    split; [done |]. by left. }
  destruct (f id i) as [items|] eqn:Hf.
  - destruct (proj1 (Forall_forall _ _) (Hh id i items Hf) c' Hc') as [v ->].
    done.
  - apply list_elem_of_singleton in Hc' as ->.
    assert (∀ k, c ≠ Code k) as Hc.
    { intros k Hk. by destruct (Hcode k Hk). }
    apply (proj1 (Forall_lookup _ _) IH i c Hi); [| done].
    intros b Hin. apply Hb. rewrite blocks_at_Parent.
    apply elem_of_flat_imap. exists i, c. split; [done |].
    by rewrite (blocks_at_not_code _ c Hc).
Qed.

Lemma expected_tree_collect f t :
  (∀ p i items, f p i = Some items → html_only items) →
  (∀ b, b ∈ collect t → is_Some (f (parent b) (index b))) →
  collect (expected_tree f t) = [].
Proof.
  intros Hh Hb. destruct t as [k|v|ty v|id ty cs]; [done.. |].
  unfold collect, blocks_at. by rewrite (expected_tree_no_code f _ Hh Hb).
Qed.

Lemma meta_parses_true b :
  meta_parses b = true → ∃ mo, parseMetaString (meta (node_of b)) = Ok mo.
Proof.
  unfold meta_parses. destruct (parseMetaString _) as [mo|]; [| done].
  by exists mo.
Qed.

(** X12.  When the meta string of every block parses and every render call
    that the transform makes returns, a call on a well-formed tree that
    returns leaves no code block in the tree: a further pass collects
    nothing.  A second call on the result returns it unchanged and makes no
    render call.  The calls that the transform makes are those of C6: for
    the [k]-th block in the order of processing, the call on its body with
    its language, its directives and the [k]-th id after the counter. *)
Theorem full_conversion_leaves_no_block
    (theme : string) (globalLineNumbers : option lineNumbersOpt)
    (loadLanguages : option (nat → bool)) (bundled : string → bool)
    (loadGrammar : nat → string → bool)
    (codeToHighlightHtml : string → RenderOptions → option RenderResult)
    (t t' : node) (e e' : env) :
  well_formed t →
  transform theme globalLineNumbers loadLanguages bundled loadGrammar
            codeToHighlightHtml t e = (Ok t', e') →
  (∀ b, b ∈ collect t → meta_parses b = true) →
  (∀ k b mo,
     filter (λ b, meta_parses b = true) (sort_desc (collect t)) !! k = Some b →
     parseMetaString (meta (node_of b)) = Ok mo →
     is_Some (codeToHighlightHtml (value (node_of b))
                (render_options theme globalLineNumbers
                   (lang_or_text (node_of b))
                   (block_id (blockCounter e + S k)) mo))) →
  let r := transform theme globalLineNumbers loadLanguages bundled loadGrammar
             codeToHighlightHtml t' e' in
  collect t' = []
  ∧ fst r = Ok t'
  ∧ blockCounter (snd r) = blockCounter e'.
Proof.
  intros Hwf Ht Hparse Hrender.
  assert (collect t' = []) as Hnone.
  { rewrite (transform_tree _ _ _ _ _ _ t e t' e' Hwf Ht).
    apply expected_tree_collect.
    - intros p i items Hf.
      by destruct (proj1 (plan_replaces_code theme globalLineNumbers
                            codeToHighlightHtml t _ Hwf) p i items Hf).
    - intros b Hb.
      destruct (meta_parses_true b (Hparse b Hb)) as [mo Hmo].
      destruct (block_outcome theme globalLineNumbers loadLanguages bundled
                  loadGrammar codeToHighlightHtml t e b mo Hwf Hb Hmo)
        as (k & Hk & _ & ->).
      destruct (Hrender k b mo Hk Hmo) as [r ->]. by eexists. }
  assert (run_hook loadLanguages e' = (true, e')) as Hhook.
  { pose proof (transform_flag theme globalLineNumbers loadLanguages bundled
                  loadGrammar codeToHighlightHtml t e) as Hflag.
    rewrite Ht in Hflag. cbn [snd] in Hflag.
    apply transform_Ok in Ht as [Hh _].
    destruct (run_hook_spec loadLanguages e) as (_ & _ & _ & _ & Hdone).
    rewrite (Hdone Hh) in Hflag. unfold run_hook.
    destruct loadLanguages; [by rewrite Hflag | done]. }
  cbn zeta. unfold transform. rewrite Hhook, Hnone. cbn [sort_desc foldr foldl fst snd].
  split_and!; [done | done |].
  by destruct (load_languages_spec bundled loadGrammar (detected_languages t') e'
                 (detected_languages_NoDup t')) as (_ & _ & _ & -> & _).
Qed.

(** ** The transform: the children that are not converted *)

(** X13.  In a call on a well-formed tree that returns, the child list of
    every parent becomes longer by two for each of its blocks that was
    converted, and a child that is not a code node is neither removed nor
    moved past another: it stands, rewritten inside, at its index plus two
    for each converted block before it. *)
Theorem siblings_are_kept
    (theme : string) (globalLineNumbers : option lineNumbersOpt)
    (loadLanguages : option (nat → bool)) (bundled : string → bool)
    (loadGrammar : nat → string → bool)
    (codeToHighlightHtml : string → RenderOptions → option RenderResult)
    (t t' : node) (e e' : env) (p : loc) (cs : list node) :
  well_formed t →
  transform theme globalLineNumbers loadLanguages bundled loadGrammar
            codeToHighlightHtml t e = (Ok t', e') →
  children_of p t = Some cs →
  let f := replacement
             (plan theme globalLineNumbers codeToHighlightHtml
                   (sort_desc (collect t))
                   (prepare loadLanguages bundled loadGrammar t e)) in
  ∃ cs', children_of p t' = Some cs'
    ∧ length cs' = length cs + 2 * converted_before f p (length cs)
    ∧ ∀ i c, cs !! i = Some c → (∀ k, c ≠ Code k) →
        cs' !! final_index f p i = Some (expected_tree f c).
Proof.
  intros Hwf Ht Hcs f.
  rewrite (transform_tree _ _ _ _ _ _ t e t' e' Hwf Ht). fold f.
  destruct (plan_replaces_code theme globalLineNumbers codeToHighlightHtml t
              (prepare loadLanguages bundled loadGrammar t e) Hwf)
    as [Hrc Hlen].
  fold f in Hrc, Hlen.
  exists (flat_imap (image f p) 0 cs). split_and!.
  - by rewrite children_of_expected, Hcs.
  - rewrite <- (firstn_all cs) at 1.
    by rewrite (length_images f p cs (length cs)) by (done || eauto).
  - intros i c Hc Hnot.
    destruct (expected_position f t p cs i c Hrc (Hlen p) Hcs Hc)
      as (cs' & Hcs' & Htake).
    rewrite children_of_expected, Hcs in Hcs' by done. injection Hcs' as <-.
    assert (f p i = None) as Hf.
    { destruct (f p i) as [items|] eqn:Hf; [| done].
      destruct (Hrc p i items Hf) as [_ [k Hk]].
      apply (children_of_code_at p i k t cs Hk) in Hcs.
      rewrite Hc in Hcs. injection Hcs as ->. by destruct (Hnot k). }
    unfold image in Htake. rewrite Hf in Htake.
    by apply take_singleton_lookup.
Qed.

(** ** The transform: a meta string that makes the parser raise *)

(** X14.  A block whose meta string makes the parser raise is caught like a
    render failure.  In a call on a well-formed tree that returns, the
    block gets no replacement, the failure is logged with its language, and
    its code node stands unchanged in its parent, at its index plus two for
    each converted block before it. *)
Theorem parse_failure_is_isolated
    (theme : string) (globalLineNumbers : option lineNumbersOpt)
    (loadLanguages : option (nat → bool)) (bundled : string → bool)
    (loadGrammar : nat → string → bool)
    (codeToHighlightHtml : string → RenderOptions → option RenderResult)
    (t t' : node) (e e' : env) (b : block) :
  well_formed t →
  transform theme globalLineNumbers loadLanguages bundled loadGrammar
            codeToHighlightHtml t e = (Ok t', e') →
  b ∈ collect t → meta_parses b = false →
  let f := replacement
             (plan theme globalLineNumbers codeToHighlightHtml
                   (sort_desc (collect t))
                   (prepare loadLanguages bundled loadGrammar t e)) in
  f (parent b) (index b) = None
  ∧ EvError (lang_or_text (node_of b)) ∈ events_since e e'
  ∧ ∃ cs', children_of (parent b) t' = Some cs'
           ∧ cs' !! final_index f (parent b) (index b)
             = Some (Code (node_of b)).
Proof.
  intros Hwf Ht Hb Hfail f.
  assert (b ∈ sort_desc (collect t)) as Hbs by by rewrite sort_desc_perm.
  destruct (plan_entry_of theme globalLineNumbers codeToHighlightHtml _
              (prepare loadLanguages bundled loadGrammar t e) b Hbs)
    as [e_b Hin].
  assert (fst (attempt theme globalLineNumbers codeToHighlightHtml b e_b) = None)
    as Hnone.
  { unfold attempt. unfold meta_parses in Hfail.
    by destruct (parseMetaString _). }
  rewrite Hnone in Hin.
  assert (f (parent b) (index b) = None) as Hf.
  { apply replacement_own; [| done]. by apply plan_positions_NoDup. }
  split_and!; [done | |].
  - destruct (transform_spec theme globalLineNumbers loadLanguages bundled
                loadGrammar codeToHighlightHtml t e)
      as (lev & pev & Htr & _ & _ & _ & _ & _ & Herr).
    rewrite Ht in Htr. cbn [snd] in Htr.
    unfold events_since. rewrite Htr, drop_app_length.
    rewrite !elem_of_app. right. right.
    apply Herr; [by eapply transform_Ok | done].
  - destruct (transform_position _ _ _ _ _ _ t e t' e' b Hwf Ht Hb)
      as (cs' & Hcs & Hpos).
    fold f in Hpos. unfold image in Hpos. rewrite Hf in Hpos.
    exists cs'. split; [done |]. by apply take_singleton_lookup.
Qed.

(** ** The transform: the order of processing *)

Lemma filter_insert_desc i b (l : list block) :
  filter (λ x, index x = i) (insert_desc b l)
  = filter (λ x, index x = i) (b :: l).
Proof.
  induction l as [|x l IH]; [done |]. cbn [insert_desc].
  destruct (Nat.leb_spec (index x) (index b)) as [Hle | Hlt]; [done |].
  rewrite filter_cons, IH, !filter_cons.
  destruct (decide (index x = i)) as [Hx | Hx],
           (decide (index b = i)) as [Hb | Hb]; try done.
  lia.
Qed.

(** X16.  The sort that fixes the order of processing is stable: blocks
    with the same index, which then have different parents, stay in the
    order in which the second pass found them.  With the descending order
    of the indices this fixes the order of processing, and so the block id
    of every block, completely. *)
Theorem sort_desc_is_stable (l : list block) (i : nat) :
  filter (λ b, index b = i) (sort_desc l) = filter (λ b, index b = i) l.
Proof.
  induction l as [|b l IH]; [done |].
  unfold sort_desc. cbn [foldr]. fold (sort_desc l).
  by rewrite filter_insert_desc, !filter_cons, IH.
Qed.

(** ** The transform: the parents of the tree *)

Lemma flat_imap_const {A B} (F : A → list B) i l :
  flat_imap (λ _ x, F x) i l = l ≫= F.
Proof.
  revert i. induction l as [|x l IH]; intros i; [done |].
  cbn [flat_imap]. by rewrite IH, bind_cons.
Qed.

Lemma bind_flat_imap {A B C} (G : B → list C) (F : nat → A → list B) i l :
  flat_imap F i l ≫= G = flat_imap (λ j x, F j x ≫= G) i l.
Proof.
  revert i. induction l as [|x l IH]; intros i; [done |].
  cbn [flat_imap]. by rewrite bind_app, IH.
Qed.

Lemma ids_html_only items : html_only items → items ≫= ids = [].
Proof.
  induction 1 as [|n items [v ->] _ IH]; [done |]. by rewrite bind_cons, IH.
Qed.

Lemma ids_expected_tree f n :
  replaces_code f n → ids (expected_tree f n) = ids n.
Proof.
  induction n as [c|v|ty v|id ty cs IH] using node_induction; [done.. |].
  intros Hf. cbn [expected_tree ids]. f_equal.
  rewrite !flat_imap_const, bind_flat_imap, <- (flat_imap_const ids 0 cs).
  apply flat_imap_ext. intros j c Hj. simpl.
  destruct (f id j) as [items|] eqn:Hfj.
  - destruct (Hf id j items Hfj) as [Hh [k Hk]].
    apply code_at_Parent in Hk as [Hk _]. rewrite Hj in Hk.
    specialize (Hk eq_refl). injection Hk as ->.
    by rewrite ids_html_only.
  - rewrite bind_cons, app_nil_r.
    apply (proj1 (Forall_lookup _ _) IH j c Hj).
    by eapply replaces_code_child.
Qed.

(** X17.  The transform keeps the parents of the tree: in a call on a
    well-formed tree that returns, the result has the same parent objects
    in the same order, and is again well-formed, so that it can be given
    to the transform once more. *)
Theorem parents_are_preserved
    (theme : string) (globalLineNumbers : option lineNumbersOpt)
    (loadLanguages : option (nat → bool)) (bundled : string → bool)
    (loadGrammar : nat → string → bool)
    (codeToHighlightHtml : string → RenderOptions → option RenderResult)
    (t t' : node) (e e' : env) :
  well_formed t →
  transform theme globalLineNumbers loadLanguages bundled loadGrammar
            codeToHighlightHtml t e = (Ok t', e') →
  ids t' = ids t ∧ well_formed t'.
Proof.
  intros Hwf Ht.
  assert (ids t' = ids t) as Hids.
  { rewrite (transform_tree _ _ _ _ _ _ t e t' e' Hwf Ht).
    apply ids_expected_tree.
    by destruct (plan_replaces_code theme globalLineNumbers codeToHighlightHtml
                   t (prepare loadLanguages bundled loadGrammar t e) Hwf). }
  split; [done |]. unfold well_formed. by rewrite Hids.
Qed.

(** ** The further properties at concrete inputs *)

Ltac no_chars :=
  repeat first [ apply Forall_nil_2 | apply Forall_cons_2; [discriminate |] ].

Lemma meta_without_directives_is_ignored_witness :
  ¬ has_flag (list_ascii_of_string "title=example.js wrap")
  ∧ parseMetaString (Some "title=example.js wrap"%string) = Ok no_options.
Proof.
  assert (¬ has_flag (list_ascii_of_string "title=example.js wrap")) as Hflag.
  { intros H%has_flag_includes. vm_compute in H. discriminate. }
  split; [exact Hflag |].
  apply (meta_without_directives_is_ignored "title=example.js wrap");
    [no_chars | no_chars | no_chars | exact Hflag].
Defined.

Lemma parser_raises_only_on_long_range_witness :
  small_numbers (list_ascii_of_string "focus{2,1-4294967296}")
  ∧ parseMetaString (Some "focus{2,1-4294967296}"%string) = Throw RangeError.
Proof.
  assert (small_numbers (list_ascii_of_string "focus{2,1-4294967296}"))
    as Hsmall by (vm_compute; lia).
  split; [exact Hsmall |].
  destruct (parser_raises_only_on_long_range "focus{2,1-4294967296}" Hsmall)
    as (_ & _ & Hraise).
  apply (Hraise (list_ascii_of_string "2,1-4294967296")
           (list_ascii_of_string "1-4294967296")).
  - first_match re_focus_Some.
  - apply (list_elem_of_lookup_2 _ 1). reflexivity.
  - reflexivity.
  - by vm_compute.
Defined.

Lemma focus_lines_of_written_group_witness :
  small_numbers (list_ascii_of_string "wrap focus{1,3-5}")
  ∧ parseMetaString (Some "wrap focus{1,3-5}"%string) = Ok opts_written
  ∧ focusLines opts_written = Some [Num 1; Num 3; Num 4; Num 5]%Z.
Proof.
  assert (small_numbers (list_ascii_of_string "wrap focus{1,3-5}")) as Hsmall
    by (vm_compute; lia).
  assert (parseMetaString (Some "wrap focus{1,3-5}"%string) = Ok opts_written)
    as Hparse by reflexivity.
  split_and!; [exact Hsmall | exact Hparse |].
  apply (focus_lines_of_written_group "wrap focus{1,3-5}" opts_written
           [Line (list_ascii_of_string "1");
            Range (list_ascii_of_string "3") (list_ascii_of_string "5")]
           Hsmall Hparse).
  - discriminate.
  - repeat constructor; discriminate.
  - first_match re_focus_Some.
Defined.

Lemma focus_group_sets_highlight_witness :
  parseMetaString (Some "focus{2}"%string) = Ok opts_focus2
  ∧ is_Some (highlightLines opts_focus2).
Proof.
  assert (parseMetaString (Some "focus{2}"%string) = Ok opts_focus2)
    as Hparse by reflexivity.
  split; [exact Hparse |].
  apply (focus_group_sets_highlight "focus{2}" opts_focus2 Hparse).
  by eexists.
Defined.

Lemma parsed_lines_are_never_negative_witness :
  small_numbers
    (list_ascii_of_string "{1,3} showLineNumbers:10 +1 focus{1-2}")
  ∧ parseMetaString (Some "{1,3} showLineNumbers:10 +1 focus{1-2}"%string)
    = Ok opts_readme
  ∧ Forall small_line_or_nan [Num 1; Num 2]%Z.
Proof.
  assert (small_numbers
            (list_ascii_of_string "{1,3} showLineNumbers:10 +1 focus{1-2}"))
    as Hsmall by (vm_compute; lia).
  assert (parseMetaString (Some "{1,3} showLineNumbers:10 +1 focus{1-2}"%string)
          = Ok opts_readme) as Hparse by reflexivity.
  split_and!; [exact Hsmall | exact Hparse |].
  destruct (parsed_lines_are_never_negative _ _ Hsmall Hparse)
    as (_ & Hfocus & _).
  by apply Hfocus.
Defined.

Lemma render_call_options_witness :
  parseMetaString (meta (node_of flagged_block)) = Ok opts_flag
  ∧ ∃ ro,
      fst (attempt "dark-plus" (Some (LNStart (Some (Num 5%Z)))) sample_render_ok
             flagged_block sample_env)
      = html_nodes <$> sample_render_ok (value (node_of flagged_block)) ro
      ∧ r_blockId ro = "hl-1"%string
      ∧ lineNumbers (r_directives ro) = Some (LNBool true).
Proof.
  assert (parseMetaString (meta (node_of flagged_block)) = Ok opts_flag)
    as Hparse by reflexivity.
  split; [exact Hparse |].
  destruct (render_call_options "dark-plus" (Some (LNStart (Some (Num 5%Z))))
              sample_render_ok flagged_block sample_env opts_flag Hparse)
    as (ro & Hat & _ & _ & Hid & _ & _ & _ & _ & Hflag).
  exists ro. split_and!; [exact Hat | by rewrite Hid |].
  destruct (Hflag "showLineNumbers"%string eq_refl) as [-> _]; [| done].
  exists kw_showLineNumbers, [], []. split; [by left | done].
Defined.

Lemma render_calls_are_numbered_witness :
  sample_transform sample_doc sample_env
  = (Ok sample_result, snd (sample_transform sample_doc sample_env))
  ∧ (Z.of_nat (blockCounter (snd (sample_transform sample_doc sample_env)))
     < 2 ^ 53)%Z
  ∧ filter is_render
      (events_since sample_env (snd (sample_transform sample_doc sample_env)))
    = [EvRender "hl-1" "js"; EvRender "hl-2" "js"; EvRender "hl-3" "js";
       EvRender "hl-4" "rust"; EvRender "hl-5" "ts"]
  ∧ blockCounter (snd (sample_transform sample_doc sample_env)) = 5.
Proof.
  pose proof sample_transform_returns as Ht.
  assert (Z.of_nat (blockCounter (snd (sample_transform sample_doc sample_env)))
          < 2 ^ 53)%Z as Hlt by by vm_compute.
  split_and!; [exact Ht | exact Hlt | |];
    destruct (render_calls_are_numbered _ _ _ _ _ _ _ _ _ _ Ht Hlt) as [Hr Hc].
  - by rewrite Hr.
  - by rewrite Hc.
Defined.

Lemma loader_events_shape_witness :
  sample_transform sample_doc sample_env
  = (Ok sample_result, snd (sample_transform sample_doc sample_env))
  ∧ ∃ los : list (string * bool),
      los.*1 = ["js"; "ts"; "rust"]%string
      ∧ EvWarn "rust"
          ∈ events_since sample_env
              (snd (sample_transform sample_doc sample_env)).
Proof.
  pose proof sample_transform_returns as Ht.
  split; [exact Ht |].
  destruct (loader_events_shape _ _ _ _ _ _ _ _ _ _ Ht)
    as (los & pev & _ & _ & Hlos & Hwarn).
  exists los. split; [by rewrite Hlos |].
  apply Hwarn. apply (list_elem_of_lookup_2 _ 3). by vm_compute.
Defined.

Lemma sample_transform_ok_returns :
  sample_transform_ok sample_doc sample_env
  = (Ok sample_result_ok, snd (sample_transform_ok sample_doc sample_env)).
Proof.
  rewrite (surjective_pairing (sample_transform_ok sample_doc sample_env)) at 1.
  f_equal; by vm_compute.
Qed.

Ltac each_block H :=
  unfold collect, blocks_at in H; cbn in H;
  repeat (apply elem_of_cons in H as [-> | H]; [by vm_compute |]);
  by apply elem_of_nil in H.

Lemma full_conversion_leaves_no_block_witness :
  well_formed sample_doc
  ∧ sample_transform_ok sample_doc sample_env
    = (Ok sample_result_ok, snd (sample_transform_ok sample_doc sample_env))
  ∧ collect sample_result_ok = []
  ∧ fst (sample_transform_ok sample_result_ok
           (snd (sample_transform_ok sample_doc sample_env)))
    = Ok sample_result_ok.
Proof.
  pose proof sample_doc_well_formed as Hwf.
  pose proof sample_transform_ok_returns as Ht.
  split_and!; [exact Hwf | exact Ht | |];
    apply (full_conversion_leaves_no_block _ _ _ _ _ _ _ _ _ _ Hwf Ht).
  - intros b Hb. each_block Hb.
  - intros k b mo _ _. by eexists.
  - intros b Hb. each_block Hb.
  - intros k b mo _ _. by eexists.
Defined.

Lemma siblings_are_kept_witness :
  well_formed sample_doc
  ∧ sample_transform sample_doc sample_env
    = (Ok sample_result, snd (sample_transform sample_doc sample_env))
  ∧ ∃ cs', children_of 0 sample_result = Some cs'
           ∧ length cs' = 10
           ∧ cs' !! 4 = Some (Leaf "paragraph" "text").
Proof.
  pose proof sample_doc_well_formed as Hwf.
  pose proof sample_transform_returns as Ht.
  split_and!; [exact Hwf | exact Ht |].
  destruct (siblings_are_kept _ _ _ _ _ _ _ _ _ _ 0 _ Hwf Ht eq_refl)
    as (cs' & Hcs & Hlen & Hkept).
  exists cs'. split_and!; [exact Hcs | by rewrite Hlen |].
  by apply (Hkept 2 (Leaf "paragraph" "text")).
Defined.

Lemma sample_doc_long_range_well_formed : well_formed sample_doc_long_range.
Proof.
  unfold well_formed. assert (ids sample_doc_long_range = [0]) as -> by reflexivity.
  apply NoDup_singleton.
Qed.

Lemma sample_transform_long_range_returns :
  sample_transform_ok sample_doc_long_range sample_env
  = (Ok sample_result_long_range,
     snd (sample_transform_ok sample_doc_long_range sample_env)).
Proof.
  rewrite (surjective_pairing
             (sample_transform_ok sample_doc_long_range sample_env)) at 1.
  f_equal; by vm_compute.
Qed.

Lemma parse_failure_is_isolated_witness :
  well_formed sample_doc_long_range
  ∧ sample_transform_ok sample_doc_long_range sample_env
    = (Ok sample_result_long_range,
       snd (sample_transform_ok sample_doc_long_range sample_env))
  ∧ long_range_block ∈ collect sample_doc_long_range
  ∧ meta_parses long_range_block = false
  ∧ EvError "js"
      ∈ events_since sample_env
          (snd (sample_transform_ok sample_doc_long_range sample_env))
  ∧ ∃ cs', children_of 0 sample_result_long_range = Some cs'
           ∧ cs' !! 0 = Some (Code (node_of long_range_block)).
Proof.
  pose proof sample_doc_long_range_well_formed as Hwf.
  pose proof sample_transform_long_range_returns as Ht.
  assert (long_range_block ∈ collect sample_doc_long_range) as Hb.
  { apply (list_elem_of_lookup_2 _ 0). by vm_compute. }
  assert (meta_parses long_range_block = false) as Hfail by by vm_compute.
  destruct (parse_failure_is_isolated _ _ _ _ _ _ _ _ _ _ long_range_block
              Hwf Ht Hb Hfail) as (_ & Hlog & cs' & Hcs & Hat).
  split_and!; [exact Hwf | exact Ht | exact Hb | exact Hfail | exact Hlog |].
  exists cs'. split; [exact Hcs | exact Hat].
Defined.

Lemma block_ids_never_repeat_witness :
  (Z.of_nat (blockCounter
               (transform_all "dark-plus" None (Some (λ _, true)) (λ _, true)
                  (λ _ l, negb (String.eqb l "rust")) sample_render
                  [sample_doc; sample_doc] sample_env)) < 2 ^ 53)%Z
  ∧ NoDup (omap render_id
             (events_since sample_env
                (transform_all "dark-plus" None (Some (λ _, true)) (λ _, true)
                   (λ _ l, negb (String.eqb l "rust")) sample_render
                   [sample_doc; sample_doc] sample_env))).
Proof.
  assert (Z.of_nat (blockCounter
                      (transform_all "dark-plus" None (Some (λ _, true))
                         (λ _, true) (λ _ l, negb (String.eqb l "rust"))
                         sample_render [sample_doc; sample_doc] sample_env))
          < 2 ^ 53)%Z as Hlt by by vm_compute.
  split; [exact Hlt |].
  by destruct (block_ids_never_repeat _ _ _ _ _ _ _ _ Hlt) as (_ & _ & ?).
Defined.

Lemma highlight_text_is_selector_witness :
  parseMetaString (Some "{1,3} showLineNumbers:10 +1 focus{1-2}"%string)
  = Ok opts_readme
  ∧ all_in is_selector (list_ascii_of_string "1,3").
Proof.
  assert (parseMetaString (Some "{1,3} showLineNumbers:10 +1 focus{1-2}"%string)
          = Ok opts_readme) as Hparse by reflexivity.
  split; [exact Hparse |].
  by destruct (highlight_text_is_selector _ _ "1,3" Hparse eq_refl).
Defined.

Lemma parents_are_preserved_witness :
  well_formed sample_doc
  ∧ sample_transform sample_doc sample_env
    = (Ok sample_result, snd (sample_transform sample_doc sample_env))
  ∧ ids sample_result = [0; 1]
  ∧ well_formed sample_result.
Proof.
  pose proof sample_doc_well_formed as Hwf.
  pose proof sample_transform_returns as Ht.
  destruct (parents_are_preserved _ _ _ _ _ _ _ _ _ _ Hwf Ht) as [Hids Hwf'].
  split_and!; [exact Hwf | exact Ht | by rewrite Hids | exact Hwf'].
Defined.

Lemma incomplete_focus_range_is_empty_witness :
  focus_part (list_ascii_of_string "3-") = Ok []
  ∧ focus_part (list_ascii_of_string "-3") = Ok []
  ∧ focus_part (list_ascii_of_string "1-3-5") = Ok [Num 1; Num 2; Num 3]%Z.
Proof.
  destruct (incomplete_focus_range_is_empty (list_ascii_of_string "3")
              (list_ascii_of_string "5") []) as (H1 & H2 & _);
    [repeat constructor |].
  destruct (incomplete_focus_range_is_empty (list_ascii_of_string "1")
              (list_ascii_of_string "3") (list_ascii_of_string "5"))
    as (_ & _ & H3); [repeat constructor |].
  split_and!; [exact H1 | exact H2 |].
  etrans; [apply H3 | reflexivity].
  - split; [discriminate | repeat constructor].
  - split; [discriminate | repeat constructor].
Defined.


